(** * Kruskal and Prim over DIMACS road networks: a shallow embedding of
    [benchmark.py] and the properties of its core.

    The embedding follows the Python source function by function:
    - [UnionFind] (class [UnionFind]): the two Python lists [parent] and
      [rank], subscripted with Python's rules (a negative subscript counts
      from the end, anything else outside the list raises [IndexError]);
    - [run_kruskal] and [run_prim]: the two MST routines, without the
      wall-clock measurement (the second component of the returned pair in
      the source), which is not part of the computed result;
    - [build_adj]: the in-memory part of [read_dimacs_graph], the edge list
      and the [defaultdict(list)] adjacency it builds;
    - [read_dimacs_graph]: the loader, over the lines of the file, with
      [str.split] and [int] on strings of 8-bit characters;
    - [UnionFind_new] and [run_kruskal_within]: [UnionFind(n)] and
      [run_kruskal] with the allocation of the two lists, which the
      interpreter refuses when they are too long;
    - [benchmark]: the driver, with what it prints and how it ends.

    Python integers are unbounded: vertex identifiers, weights and
    [num_nodes] are all [Z]. *)

From stdpp Require Import gmap list fin_maps strings.
From Stdlib Require Import ZArith Lia Permutation Ascii.

Local Open Scope Z_scope.

(** ** Outcomes of a Python computation *)

Inductive exn : Type :=
| IndexError      (* list subscript out of range *)
| RecursionError. (* unbounded recursion: the recursion never bottoms out *)

Inductive result (A : Type) : Type :=
| Ok (a : A)
| Raise (e : exn).
Arguments Ok {A} a.
Arguments Raise {A} e.

(** ** Python list subscripts *)

(** [l[i]] addresses position [i] when [0 <= i < len(l)], position
    [len(l) + i] when [-len(l) <= i < 0], and raises otherwise. *)
Definition py_index (len : nat) (i : Z) : option nat :=
  if decide (0 ≤ i < Z.of_nat len) then Some (Z.to_nat i)
  else if decide (- Z.of_nat len ≤ i < 0) then Some (Z.to_nat (Z.of_nat len + i))
  else None.

Definition py_getitem (l : list Z) (i : Z) : result Z :=
  match py_index (length l) i with
  | Some k => match l !! k with Some x => Ok x | None => Raise IndexError end
  | None => Raise IndexError
  end.

Definition py_setitem (l : list Z) (i : Z) (x : Z) : result (list Z) :=
  match py_index (length l) i with
  | Some k => Ok (<[k:=x]> l)
  | None => Raise IndexError
  end.

(** ** class UnionFind *)

(** The object's two attributes.  [accessed] is ghost state: it is not a
    Python attribute, it records, most recent first, every subscript the
    methods used on [parent] or [rank]. *)
Record UnionFind : Type := mkUF {
  parent : list Z;
  rank : list Z;
  accessed : list Z
}.

(** Methods run in a state-and-exception monad over the object. *)
Definition M (A : Type) : Type := UnionFind → result (A * UnionFind).

Definition ret {A} (a : A) : M A := λ uf, Ok (a, uf).
Definition raise {A} (e : exn) : M A := λ _, Raise e.
Definition bind {A B} (m : M A) (k : A → M B) : M B :=
  λ uf, match m uf with
        | Ok (a, uf') => k a uf'
        | Raise e => Raise e
        end.

Declare Scope uf_scope.
Delimit Scope uf_scope with uf.
Notation "x <- m ;; k" := (bind m (λ x, k))
  (at level 100, m at next level, right associativity) : uf_scope.
Notation "m ;;; k" := (bind m (λ _, k))
  (at level 100, right associativity) : uf_scope.
Local Open Scope uf_scope.

(** [self.parent[i]] *)
Definition parent_get (i : Z) : M Z :=
  λ uf, match py_getitem (parent uf) i with
        | Ok x => Ok (x, mkUF (parent uf) (rank uf) (i :: accessed uf))
        | Raise e => Raise e
        end.

(** [self.parent[i] = x] *)
Definition parent_set (i x : Z) : M unit :=
  λ uf, match py_setitem (parent uf) i x with
        | Ok l => Ok (tt, mkUF l (rank uf) (i :: accessed uf))
        | Raise e => Raise e
        end.

(** [self.rank[i]] *)
Definition rank_get (i : Z) : M Z :=
  λ uf, match py_getitem (rank uf) i with
        | Ok x => Ok (x, mkUF (parent uf) (rank uf) (i :: accessed uf))
        | Raise e => Raise e
        end.

(** [self.rank[i] = x] *)
Definition rank_set (i x : Z) : M unit :=
  λ uf, match py_setitem (rank uf) i x with
        | Ok l => Ok (tt, mkUF (parent uf) l (i :: accessed uf))
        | Raise e => Raise e
        end.

(** [UnionFind(n)]: [parent = list(range(n + 1))], [rank = [0] * (n + 1)];
    both are empty when [n + 1 <= 0].  This is the object once its lists
    are built; [UnionFind_new] below accounts for an interpreter that
    cannot build them ([OverflowError], [MemoryError]). *)
Definition UnionFind_init (n : Z) : UnionFind :=
  mkUF (seqZ 0 (n + 1)) (replicate (Z.to_nat (n + 1)) 0) [].

(** [find], with the depth of the recursion made explicit.  The recursion
    follows [parent] pointers; when [depth] frames are not enough the
    outcome is [RecursionError]. *)
Fixpoint find_rec (depth : nat) (i : Z) : M Z :=
  match depth with
  | O => raise RecursionError
  | S depth =>
      p <- parent_get i ;;
      if decide (p ≠ i) then
        (* self.parent[i] = self.find(self.parent[i]) *)
        p' <- parent_get i ;;
        r <- find_rec depth p' ;;
        parent_set i r ;;;
        parent_get i
      else
        parent_get i
  end.

(** [find].  A chain of parent pointers that reaches a root passes through
    every cell of [parent] at most once, except that it can meet the cell of
    the root twice, first under its negative subscript: [len(parent) + 1]
    frames are enough for every chain that ends, and a chain that needs more
    never ends ([find_depth_adequate] below).  (The interpreter's own limit,
    which the program raises to 10^6 frames, is not modelled.) *)
Definition find (i : Z) : M Z :=
  λ uf, find_rec (S (length (parent uf))) i uf.

Definition union (i j : Z) : M bool :=
  root_i <- find i ;;
  root_j <- find j ;;
  if decide (root_i ≠ root_j) then
    ri <- rank_get root_i ;;
    rj <- rank_get root_j ;;
    (* if self.rank[root_i] < self.rank[root_j]: swap *)
    let '(root_i, root_j) :=
      if decide (ri < rj) then (root_j, root_i) else (root_i, root_j) in
    parent_set root_j root_i ;;;
    ri' <- rank_get root_i ;;
    rj' <- rank_get root_j ;;
    (if decide (ri' = rj') then
       (* self.rank[root_i] += 1 *)
       r <- rank_get root_i ;;
       rank_set root_i (r + 1)
     else ret tt) ;;;
    ret true
  else
    ret false.

(** ** Graph inputs *)

(** An edge [(u, v, w)]. *)
Definition edge : Type := Z * Z * Z.
Definition src (e : edge) : Z := e.1.1.
Definition dst (e : edge) : Z := e.1.2.
Definition weight (e : edge) : Z := e.2.

(** [adj[u]] on a [defaultdict(list)]: a missing key is inserted with an
    empty list, and that list is returned. *)
Definition adj_getitem (adj : gmap Z (list (Z * Z))) (u : Z)
  : list (Z * Z) * gmap Z (list (Z * Z)) :=
  match adj !! u with
  | Some l => (l, adj)
  | None => ([], <[u := []]> adj)
  end.

(** [adj[u].append(x)] *)
Definition adj_append (adj : gmap Z (list (Z * Z))) (u : Z) (x : Z * Z)
  : gmap Z (list (Z * Z)) :=
  let '(l, adj) := adj_getitem adj u in <[u := l ++ [x]]> adj.

(** The adjacency [read_dimacs_graph] builds from the edges in file order:
    [adj[u].append((w, v)); adj[v].append((w, u))]. *)
Definition build_adj (edges : list edge) : gmap Z (list (Z * Z)) :=
  foldl (λ adj e, adj_append (adj_append adj (src e) (weight e, dst e))
                             (dst e) (weight e, src e))
        ∅ edges.

(** ** run_kruskal *)

(** [sorted(edges, key=lambda x: x[2])]: a new list, stably sorted by
    weight. *)
Fixpoint insert_by_weight (e : edge) (l : list edge) : list edge :=
  match l with
  | [] => [e]
  | e' :: l' =>
      if decide (weight e ≤ weight e') then e :: l
      else e' :: insert_by_weight e l'
  end.

Definition sorted_by_weight (edges : list edge) : list edge :=
  foldr insert_by_weight [] edges.

(** The [for u, v, w in sorted_edges] loop. *)
Fixpoint kruskal_loop (es : list edge) (mst_weight edges_count : Z) : M (Z * Z) :=
  match es with
  | [] => ret (mst_weight, edges_count)
  | (u, v, w) :: es' =>
      b <- union u v ;;
      if b : bool then kruskal_loop es' (mst_weight + w) (edges_count + 1)
      else kruskal_loop es' mst_weight edges_count
  end.

(** [run_kruskal], given that [UnionFind(num_nodes)] is built
    ([run_kruskal_within] below is the routine with that allocation). *)
Definition run_kruskal (num_nodes : Z) (edges : list edge) : result Z :=
  let uf := UnionFind_init num_nodes in
  let sorted_edges := sorted_by_weight edges in
  match kruskal_loop sorted_edges 0 0 uf with
  | Ok ((mst_weight, _), _) => Ok mst_weight
  | Raise e => Raise e
  end.

(** ** run_prim *)

(** [heapq] belongs to Python's standard library, not to this program.  It
    is modelled by what it guarantees: [heappop] removes and returns a
    smallest entry of the queue, where entries [(weight, node)] are
    compared as Python compares tuples, lexicographically.  The queue is
    kept as a list in ascending order; which of several equal entries
    leaves first cannot be observed, equal pairs of integers being
    indistinguishable. *)
Definition entry_le (a b : Z * Z) : Prop :=
  a.1 < b.1 ∨ (a.1 = b.1 ∧ a.2 ≤ b.2).

Global Instance entry_le_dec a b : Decision (entry_le a b).
Proof. unfold entry_le. apply _. Defined.

Fixpoint heappush (pq : list (Z * Z)) (x : Z * Z) : list (Z * Z) :=
  match pq with
  | [] => [x]
  | y :: pq' => if decide (entry_le x y) then x :: pq else y :: heappush pq' x
  end.

Definition heappop (pq : list (Z * Z)) : option ((Z * Z) * list (Z * Z)) :=
  match pq with
  | [] => None
  | x :: pq' => Some (x, pq')
  end.

(** The local variables of [run_prim] together with the adjacency object it
    was handed (reading a [defaultdict] can change it). *)
Record prim_state : Type := mkPrim {
  pq : list (Z * Z);
  visited : gset Z;
  mst_weight : Z;
  adj : gmap Z (list (Z * Z))
}.

(** [for weight, neighbor in adj[u]: if neighbor not in visited: heappush] *)
Definition push_neighbors (visited : gset Z) (nbrs : list (Z * Z))
    (pq : list (Z * Z)) : list (Z * Z) :=
  foldl (λ pq wn, if decide (wn.2 ∉ visited) then heappush pq (wn.1, wn.2) else pq)
        pq nbrs.

(** One evaluation of the loop test [pq and len(visited) < num_nodes] and,
    if it holds, of the loop body.  [None]: the test failed and the loop is
    left.  ([heappop] is never called on an empty queue: the test comes
    first.) *)
Definition prim_step (num_nodes : Z) (st : prim_state) : option prim_state :=
  if decide (pq st ≠ [] ∧ Z.of_nat (size (visited st)) < num_nodes) then
    match heappop (pq st) with
    | Some ((w, u), pq') =>
        if decide (u ∈ visited st) then
          (* continue *)
          Some (mkPrim pq' (visited st) (mst_weight st) (adj st))
        else
          let visited' := visited st ∪ {[u]} in
          let mst_weight' := mst_weight st + w in
          let '(nbrs, adj') := adj_getitem (adj st) u in
          Some (mkPrim (push_neighbors visited' nbrs pq') visited' mst_weight' adj')
    | None => None
    end
  else None.

(** The [while] loop; [None] when [fuel] tests were not enough. *)
Fixpoint prim_loop (fuel : nat) (num_nodes : Z) (st : prim_state)
  : option prim_state :=
  match fuel with
  | O => None
  | S fuel =>
      match prim_step num_nodes st with
      | Some st' => prim_loop fuel num_nodes st'
      | None => Some st
      end
  end.

(** Number of [(weight, neighbor)] entries stored in the adjacency. *)
Definition adj_entries (adj : gmap Z (list (Z * Z))) : nat :=
  sum_list_with (λ kv : Z * list (Z * Z), length kv.2) (map_to_list adj).

(** A vertex is visited at most once and its entries are pushed at that
    visit only, and every test of the loop that succeeds pops one entry: the
    loop makes at most [adj_entries adj0 + 2] tests ([prim_final_returns]
    below). *)
Definition prim_final (num_nodes : Z) (adj0 : gmap Z (list (Z * Z)))
  : option prim_state :=
  prim_loop (adj_entries adj0 + 2) num_nodes (mkPrim [(0, 1)] ∅ 0 adj0).

(** [run_prim] returns the weight; the second component is the adjacency
    object as the call leaves it. *)
Definition run_prim (num_nodes : Z) (adj0 : gmap Z (list (Z * Z)))
  : option (Z * gmap Z (list (Z * Z))) :=
  match prim_final num_nodes adj0 with
  | Some st => Some (mst_weight st, adj st)
  | None => None
  end.

(** ** read_dimacs_graph *)

(** The exceptions of the loader and of the benchmark: those of the core,
    [ValueError] from [int] and from [str], [FileNotFoundError] from
    [gzip.open], [OverflowError] and [MemoryError] from the lists of
    [UnionFind.__init__]. *)
Inductive error : Type :=
| Core (e : exn)
| ValueError
| FileNotFoundError
| OverflowError
| MemoryError.

Inductive outcome (A : Type) : Type :=
| Returns (a : A)
| Raises (e : error).
Arguments Returns {A} a.
Arguments Raises {A} e.

Definition obind {A B} (m : outcome A) (k : A → outcome B) : outcome B :=
  match m with
  | Returns a => k a
  | Raises e => Raises e
  end.

Declare Scope out_scope.
Delimit Scope out_scope with out.
Notation "x <- m ;; k" := (obind m (λ x, k))
  (at level 100, m at next level, right associativity) : out_scope.

(** A line of the file is a [str]: here a [string], whose characters are
    the code points below 256 (a DIMACS file is plain ASCII).  [ord c] is
    the code point. *)
Definition ord (c : ascii) : Z := Z.of_N (N_of_ascii c).

(** [c.isspace()]: the ASCII white space, the separators 0x1c .. 0x1f, NEL
    and the no-break space. *)
Definition isspace (c : ascii) : bool :=
  bool_decide (9 ≤ ord c ≤ 13 ∨ 28 ≤ ord c ≤ 32 ∨ ord c = 133 ∨ ord c = 160).

(** [line.split()]: the maximal runs of characters that are not white
    space.  [word] holds the run being read. *)
Fixpoint split_from (word : string) (s : string) : list string :=
  match s with
  | EmptyString => if decide (word = "") then [] else [word]
  | String c s' =>
      if isspace c then
        if decide (word = "") then split_from "" s'
        else word :: split_from "" s'
      else split_from (word +:+ String c "") s'
  end.

Definition py_split (line : string) : list string := split_from "" line.

(** The white space that [int] skips around a literal: [int] does not take
    the separators 0x1c .. 0x1f for white space. *)
Definition int_space (c : ascii) : bool :=
  bool_decide (9 ≤ ord c ≤ 13 ∨ ord c = 32 ∨ ord c = 133 ∨ ord c = 160).

Fixpoint lstrip (s : string) : string :=
  match s with
  | String c s' => if int_space c then lstrip s' else s
  | EmptyString => EmptyString
  end.

Fixpoint all_space (s : string) : bool :=
  match s with
  | String c s' => int_space c && all_space s'
  | EmptyString => true
  end.

Definition digit (c : ascii) : option Z :=
  if decide (48 ≤ ord c ≤ 57) then Some (ord c - 48) else None.

(** The digits of a literal, with single underscores allowed between
    them: the value read so far, the number of digits read, and what
    follows the literal.  [need_digit] holds at the start and after an
    underscore, where only a digit can follow. *)
Fixpoint scan_digits (need_digit : bool) (value digits : Z) (s : string)
  : option (Z * Z * string) :=
  match s with
  | String c s' =>
      match digit c with
      | Some d => scan_digits false (10 * value + d) (digits + 1) s'
      | None =>
          if decide (c = "_"%char) then
            if need_digit then None else scan_digits true value digits s'
          else if need_digit then None else Some (value, digits, s)
      end
  | EmptyString => if need_digit then None else Some (value, digits, s)
  end.

(** An optional sign in front of the digits. *)
Definition split_sign (s : string) : Z * string :=
  match s with
  | String c s' =>
      if decide (c = "+"%char) then (1, s')
      else if decide (c = "-"%char) then (-1, s')
      else (1, s)
  | EmptyString => (1, s)
  end.

(** [int(s)] for a [str]; [None] stands for [ValueError].
    [max_str_digits] is [sys.get_int_max_str_digits()]: 4300 unless the
    interpreter is told otherwise, 0 when it sets no limit (as before
    Python 3.11); literals of up to 640 digits always pass. *)
Definition py_int (max_str_digits : Z) (s : string) : option Z :=
  let '(sign, s) := split_sign (lstrip s) in
  match scan_digits true 0 0 s with
  | Some (value, digits, rest) =>
      if all_space rest then
        if decide (640 < digits ∧ 0 < max_str_digits ∧ max_str_digits < digits)
        then None
        else Some (sign * value)
      else None
  | None => None
  end.

(** [int(parts[k])] *)
Definition int_field (max_str_digits : Z) (parts : list string) (k : nat)
  : outcome Z :=
  match parts !! k with
  | Some s =>
      match py_int max_str_digits s with
      | Some z => Returns z
      | None => Raises ValueError
      end
  | None => Raises (Core IndexError)
  end.

(** The three results of the loader as the loop builds them:
    [num_nodes], [edges], [adj]. *)
Definition loader_state : Type := Z * list edge * gmap Z (list (Z * Z)).

(** The body of [for line in f]. *)
Definition read_line (max_str_digits : Z) (st : loader_state) (line : string)
  : outcome loader_state :=
  let '(num_nodes, edges, adj) := st in
  if String.prefix "p" line then
    (let parts := py_split line in
     n <- int_field max_str_digits parts 2 ;;
     Returns (n, edges, adj))%out
  else if String.prefix "a" line then
    (let parts := py_split line in
     u <- int_field max_str_digits parts 1 ;;
     v <- int_field max_str_digits parts 2 ;;
     w <- int_field max_str_digits parts 3 ;;
     Returns (num_nodes, edges ++ [(u, v, w)],
              adj_append (adj_append adj u (w, v)) v (w, u)))%out
  else Returns st.

Fixpoint read_lines (max_str_digits : Z) (lines : list string)
    (st : loader_state) : outcome loader_state :=
  match lines with
  | [] => Returns st
  | line :: lines' =>
      match read_line max_str_digits st line with
      | Returns st' => read_lines max_str_digits lines' st'
      | Raises e => Raises e
      end
  end.

(** The files that [gzip.open(filename, 'rt')] can open, each with the
    lines that iterating over it gives; [None]: there is no such file.
    (Other failures of the file system, of decompression or of decoding
    are not modelled; the message that the loader prints first is
    accounted for in [benchmark].) *)
Definition files : Type := string → option (list string).

Definition read_dimacs_graph (max_str_digits : Z) (fs : files)
    (filename : string) : outcome loader_state :=
  match fs filename with
  | None => Raises FileNotFoundError
  | Some lines => read_lines max_str_digits lines (0, [], ∅)
  end.

(** ** UnionFind(n), with the allocation of its lists *)

(** What the interpreter can allocate: [maxsize] is [sys.maxsize], the
    longest list there can be; [max_cells] is the length of the longest
    lists that [UnionFind.__init__] finds memory for when it is called. *)
Record limits : Type := mkLimits { maxsize : positive; max_cells : positive }.

(** [UnionFind(n)]: [list(range(n + 1))] and [[0] * (n + 1)] raise
    [OverflowError] when [n + 1] is more than [sys.maxsize], and
    [MemoryError] when there is no room for that many cells; otherwise the
    structure is [UnionFind_init n]. *)
Definition UnionFind_new (lim : limits) (n : Z) : outcome UnionFind :=
  if decide (Z.pos (maxsize lim) < n + 1) then Raises OverflowError
  else if decide (Z.pos (max_cells lim) < n + 1) then Raises MemoryError
  else Returns (UnionFind_init n).

(** [run_kruskal(num_nodes, edges)], with [uf = UnionFind(num_nodes)] as
    the interpreter builds it. *)
Definition run_kruskal_within (lim : limits) (num_nodes : Z)
    (edges : list edge) : outcome Z :=
  match UnionFind_new lim num_nodes with
  | Returns uf =>
      match kruskal_loop (sorted_by_weight edges) 0 0 uf with
      | Ok (mst_weight, _, _) => Returns mst_weight
      | Raise e => Raises (Core e)
      end
  | Raises e => Raises e
  end.

(** ** benchmark *)

(** [f"{cost}"] calls [str(cost)], which raises [ValueError] when [cost]
    has more than 640 digits and more than [max_str_digits] of them (0: no
    limit). *)
Definition printable (max_str_digits z : Z) : bool :=
  bool_decide (Z.abs z < 10 ^ 640 ∨ max_str_digits ≤ 0
               ∨ Z.abs z < 10 ^ max_str_digits).

(** What [benchmark] prints, call by call.  The rows are shown without
    their four timing fields, which no run determines.  The output stream
    is taken to accept what is written to it. *)
Inductive printed : Type :=
| Heading
| Rule
| Loading (filename : string)
| NotFound (filename : string)
| KruskalRow (name : string) (cost : Z)
| PrimRow (name : string) (cost : Z).

(** How [benchmark] ends: it returns, or an exception leaves it.
    [OutOfFuel] is the model's own: the budget of [prim_final] was not
    enough (it always is). *)
Inductive ending : Type :=
| Finished
| Aborted (e : error)
| OutOfFuel.

(** [for i in range(3): cost, duration = run_kruskal(num_nodes, edges);
    k_cost = cost] *)
Fixpoint kruskal_runs (lim : limits) (k : nat) (num_nodes : Z)
    (edges : list edge) (k_cost : Z) : outcome Z :=
  match k with
  | O => Returns k_cost
  | S k =>
      match run_kruskal_within lim num_nodes edges with
      | Returns cost => kruskal_runs lim k num_nodes edges cost
      | Raises e => Raises e
      end
  end.

(** [for i in range(3): cost, duration = run_prim(num_nodes, adj);
    p_cost = cost]: every run is handed the same adjacency object, as
    the runs before have left it. *)
Fixpoint prim_runs (k : nat) (num_nodes : Z) (adj : gmap Z (list (Z * Z)))
    (p_cost : Z) : option (Z * gmap Z (list (Z * Z))) :=
  match k with
  | O => Some (p_cost, adj)
  | S k =>
      match run_prim num_nodes adj with
      | Some (cost, adj') => prim_runs k num_nodes adj' cost
      | None => None
      end
  end.

(** [for name, filename in datasets] *)
Fixpoint benchmark_loop (lim : limits) (max_str_digits : Z) (fs : files)
    (datasets : list (string * string)) : list printed * ending :=
  match datasets with
  | [] => ([], Finished)
  | (name, filename) :: datasets' =>
      match read_dimacs_graph max_str_digits fs filename with
      | Raises FileNotFoundError =>
          (* except FileNotFoundError: print; continue *)
          let '(out, e) := benchmark_loop lim max_str_digits fs datasets' in
          (Loading filename :: NotFound filename :: out, e)
      | Raises e => ([Loading filename], Aborted e)
      | Returns (num_nodes, edges, adj) =>
          match kruskal_runs lim 3 num_nodes edges 0 with
          | Raises e => ([Loading filename], Aborted e)
          | Returns k_cost =>
              if printable max_str_digits k_cost then
                match prim_runs 3 num_nodes adj 0 with
                | Some (p_cost, _) =>
                    if printable max_str_digits p_cost then
                      let '(out, e) :=
                        benchmark_loop lim max_str_digits fs datasets' in
                      (Loading filename :: KruskalRow name k_cost
                         :: PrimRow name p_cost :: Rule :: out, e)
                    else
                      ([Loading filename; KruskalRow name k_cost],
                       Aborted ValueError)
                | None =>
                    ([Loading filename; KruskalRow name k_cost], OutOfFuel)
                end
              else ([Loading filename], Aborted ValueError)
          end
      end
  end.


(** * Specification vocabulary

    ** Graphs, walks and spanning trees *)

(** The two endpoints of an edge. *)
Definition ends (e : edge) : Z * Z := (src e, dst e).

(** Sum of the weights of a list of edges. *)
Definition total_weight (T : list edge) : Z :=
  foldr (λ e s, weight e + s) 0 T.

(** [conn L x y]: [x] and [y] are joined by a walk along the pairs of [L],
    each usable in both directions. *)
Inductive conn (L : list (Z * Z)) : Z → Z → Prop :=
| conn_refl x : conn L x x
| conn_step x y z : (x, y) ∈ L ∨ (y, x) ∈ L → conn L y z → conn L x z.

(** No cycle: no edge of [T] has its endpoints joined by the other edges of
    [T].  (A loop, or a second copy of an edge, is a cycle.) *)
Definition acyclic (T : list edge) : Prop :=
  ∀ T1 e T2, T = T1 ++ e :: T2 →
    ¬ conn (ends <$> (T1 ++ T2)) (src e) (dst e).

(** [forest_mod P S]: [S] is a forest over the pairs [P] taken as already
    joined: each edge of [S] joins two vertices that [P] and the edges after
    it leave apart. *)
Fixpoint forest_mod (P : list (Z * Z)) (S : list edge) : Prop :=
  match S with
  | [] => True
  | e :: S' =>
      forest_mod P S' ∧ ¬ conn ((ends <$> S') ++ P) (src e) (dst e)
  end.

(** [basis E P S]: [S] completes [P] to a spanning forest of the candidate
    edges [E]: it is made of candidates, is a forest over [P], and together
    with [P] joins the endpoints of every candidate. *)
Record basis (E : edge → Prop) (P : list (Z * Z)) (S : list edge) : Prop := {
  basis_sub : ∀ e, e ∈ S → E e;
  basis_forest : forest_mod P S;
  basis_span : ∀ e, E e → conn ((ends <$> S) ++ P) (src e) (dst e)
}.

(** [w] is the least total weight of such a completion. *)
Definition min_basis (E : edge → Prop) (P : list (Z * Z)) (w : Z) : Prop :=
  (∃ S, basis E P S ∧ total_weight S = w) ∧
  (∀ S, basis E P S → w ≤ total_weight S).

(** Hypotheses shared by the steps below: [e] is a candidate that is not
    a loop over [P]; the candidates [E'] left after choosing [e] are those
    of [E], up to loops over [ends e :: P]. *)
Definition shrinks (E E' : edge → Prop) (P : list (Z * Z)) (e : edge) : Prop :=
  (∀ f, E' f → E f) ∧
  (∀ f, E f → E' f ∨ conn (ends e :: P) (src f) (dst f)).

(** [f] has one endpoint on each side of the cut [V]. *)
Definition crosses (V : Z → bool) (f : edge) : bool :=
  negb (bool_decide (V (src f) = V (dst f))).

(** ** The union-find structure *)

(** [pfun l i]: the cell [l[i]] for a subscript within [0 .. len(l) - 1]. *)
Definition pfun (l : list Z) (i : Z) : Z := l !!! Z.to_nat i.

(** The cells of [UnionFind(n)]. *)
Definition in_range (n i : Z) : Prop := 0 ≤ i ≤ n.

(** [chain p i l r]: following [parent] pointers from [i] passes through the
    cells of [l], none of them a root, and stops at the root [r]. *)
Inductive chain (p : list Z) : Z → list Z → Z → Prop :=
| chain_root i : pfun p i = i → chain p i [] i
| chain_step i l r :
    pfun p i ≠ i → chain p (pfun p i) l r → chain p i (i :: l) r.

(** [r] is the root that the chain from [i] reaches. *)
Definition root_of (p : list Z) (i r : Z) : Prop := ∃ l, chain p i l r.

(** Two cells are in the same set when they have the same root. *)
Definition same_set (p : list Z) (a b : Z) : Prop :=
  ∃ r, root_of p a r ∧ root_of p b r.

(** Path compression: every cell of [l] now points to [r]. *)
Definition compress (p : list Z) (l : list Z) (r : Z) : list Z :=
  foldr (λ x acc, <[Z.to_nat x := r]> acc) p l.

(** The invariant of the structure built by [UnionFind(n)]: both lists keep
    their length [n + 1], parent pointers stay within [0 .. n], ranks grow
    strictly along them, and only subscripts within [0 .. n] were used. *)
Record uf_inv (n : Z) (uf : UnionFind) : Prop := {
  inv_len_parent : length (parent uf) = Z.to_nat (n + 1);
  inv_len_rank : length (rank uf) = Z.to_nat (n + 1);
  inv_parent_range : ∀ i, in_range n i → in_range n (pfun (parent uf) i);
  inv_rank_up : ∀ i, in_range n i → pfun (parent uf) i ≠ i →
      pfun (rank uf) i < pfun (rank uf) (pfun (parent uf) i);
  inv_accessed : Forall (in_range n) (accessed uf)
}.

(** The structure stands for the pairs of [L]. *)
Definition represents (n : Z) (uf : UnionFind) (L : list (Z * Z)) : Prop :=
  ∀ x y, in_range n x → in_range n y →
    (same_set (parent uf) x y ↔ conn L x y).

(** The states that calls of [find] and [union] with arguments within
    [0 .. n] lead to from [UnionFind(n)]. *)
Inductive reachable (n : Z) : UnionFind → Prop :=
| reach_init : reachable n (UnionFind_init n)
| reach_find uf i r uf' :
    reachable n uf → in_range n i → find i uf = Ok (r, uf') → reachable n uf'
| reach_union uf i j b uf' :
    reachable n uf → in_range n i → in_range n j →
    union i j uf = Ok (b, uf') → reachable n uf'.

(** A [parent] list of length [n + 1] with pointers within [0 .. n]. *)
Definition closed_parent (n : Z) (p : list Z) : Prop :=
  length p = Z.to_nat (n + 1) ∧ ∀ x, in_range n x → in_range n (pfun p x).

(** Roots are the same before and after, on the cells [0 .. n]. *)
Definition same_roots (n : Z) (p p' : list Z) : Prop :=
  ∀ y s, in_range n y → (root_of p y s ↔ root_of p' y s).

(** The state [union] leaves when it links the root [b] under the root
    [a]: the rank of [a] grows by one when both ranks were equal. *)
Definition linked (uf : UnionFind) (a b : Z) (acc : list Z) : UnionFind :=
  mkUF (<[Z.to_nat b := a]> (parent uf))
       (if decide (pfun (rank uf) a = pfun (rank uf) b)
        then <[Z.to_nat a := pfun (rank uf) a + 1]> (rank uf)
        else rank uf)
       acc.

(** ** The descent of [find], in any state *)

(** [rchain p i cs]: from the subscript [i], [find] descends through the
    positions [cs] of [p], each holding a pointer other than the subscript
    that led to it, and then stops, at a root or at a subscript out of
    range.  Subscripts are taken as Python takes them, in any list [p]. *)
Inductive rchain (p : list Z) : Z → list nat → Prop :=
| rchain_stop i : (∀ j, py_getitem p i = Ok j → j = i) → rchain p i []
| rchain_step i c j cs :
    py_index (length p) i = Some c → p !! c = Some j → j ≠ i →
    rchain p j cs → rchain p i (c :: cs).

(** ** Sorted and well-formed edge lists *)

(** Ascending by weight. *)
Fixpoint ascending (es : list edge) : Prop :=
  match es with
  | [] => True
  | e :: es' => (∀ f, f ∈ es' → weight e ≤ weight f) ∧ ascending es'
  end.

(** Every endpoint is a vertex [1 .. n]. *)
Definition wf_edges (n : Z) (edges : list edge) : Prop :=
  ∀ e, e ∈ edges → (1 ≤ src e ≤ n) ∧ (1 ≤ dst e ≤ n).

(** ** The loop of [run_prim] *)

(** The list [adj[u]] evaluates to. *)
Definition adj_list (adj : gmap Z (list (Z * Z))) (u : Z) : list (Z * Z) :=
  default [] (adj !! u).

(** The adjacency lists both directions of every edge, and nothing else. *)
Definition adj_matches (edges : list edge) (adj : gmap Z (list (Z * Z))) : Prop :=
  ∀ u v w, (w, v) ∈ adj_list adj u ↔ (u, v, w) ∈ edges ∨ (v, u, w) ∈ edges.

(** Ascending queue. *)
Fixpoint pq_sorted (pq : list (Z * Z)) : Prop :=
  match pq with
  | [] => True
  | x :: pq' => (∀ y, y ∈ pq' → entry_le x y) ∧ pq_sorted pq'
  end.

(** Entries not yet pushed: those of the vertices not yet visited. *)
Definition pending (adj : gmap Z (list (Z * Z))) (V : gset Z) : nat :=
  sum_list_with (λ kv : Z * list (Z * Z),
                   if decide (kv.1 ∈ V) then 0%nat else length kv.2)
                (map_to_list adj).

(** What bounds the number of tests the loop still makes. *)
Definition prim_measure (st : prim_state) : nat :=
  (length (pq st) + pending (adj st) (visited st))%nat.

(** The edges of the connected component of the vertex [root]. *)
Definition in_component (root : Z) (edges : list edge) (e : edge) : Prop :=
  e ∈ edges ∧ conn (ends <$> edges) root (src e).

(** Invariant of the loop from its second test on.  [P] holds the ends of
    the edges chosen so far. *)
Record prim_inv (N : Z) (edges : list edge) (st : prim_state)
    (P : list (Z * Z)) : Prop := {
  pi_sorted : pq_sorted (pq st);
  pi_start : 1 ∈ visited st;
  pi_range : ∀ v, v ∈ visited st → 1 ≤ v ≤ N;
  pi_tree : ∀ v, v ∈ visited st → conn P 1 v;
  pi_inside : ∀ p, p ∈ P → p.1 ∈ visited st ∧ p.2 ∈ visited st;
  pi_graph : ∀ x y, conn P x y → conn (ends <$> edges) x y;
  pi_queue : ∀ w y, (w, y) ∈ pq st →
    ∃ x, x ∈ visited st ∧ (w, y) ∈ adj_list (adj st) x;
  pi_frontier : ∀ x w y, x ∈ visited st → (w, y) ∈ adj_list (adj st) x →
    y ∉ visited st → (w, y) ∈ pq st;
  pi_adj : adj_matches edges (adj st);
  pi_opt : ∀ w', min_basis (in_component 1 edges) P w' →
    min_basis (in_component 1 edges) [] (mst_weight st + w')
}.

(** The state after the first run of the body, which pops the seed
    [(0, 1)]. *)
Definition prim_seeded (adj0 : gmap Z (list (Z * Z))) : prim_state :=
  mkPrim (push_neighbors {[1]} (adj_list adj0 1) [])
         {[1]} 0 (adj_getitem adj0 1).2.

(** ** Spanning trees and forests *)

(** Every two vertices are joined by a walk. *)
Definition connected (N : Z) (edges : list edge) : Prop :=
  ∀ u v, 1 ≤ u ≤ N → 1 ≤ v ≤ N → conn (ends <$> edges) u v.

(** A spanning tree: edges of the graph, without a cycle, that join every
    two vertices. *)
Definition spanning_tree (N : Z) (edges T : list edge) : Prop :=
  T ⊆ edges ∧ acyclic T ∧
  ∀ u v, 1 ≤ u ≤ N → 1 ≤ v ≤ N → conn (ends <$> T) u v.

(** A spanning forest: a spanning tree of every connected component. *)
Definition spanning_forest (edges T : list edge) : Prop :=
  T ⊆ edges ∧ acyclic T ∧
  ∀ u v, conn (ends <$> edges) u v → conn (ends <$> T) u v.

(** A spanning tree of the connected component of [root]. *)
Definition component_tree (root : Z) (edges T : list edge) : Prop :=
  T ⊆ edges ∧ acyclic T ∧
  (∀ e, e ∈ T → conn (ends <$> edges) root (src e)) ∧
  ∀ v, conn (ends <$> edges) root v → conn (ends <$> T) root v.

(** [w] is the least total weight among the edge sets that satisfy [Q]. *)
Definition least_weight (Q : list edge → Prop) (w : Z) : Prop :=
  (∃ T, Q T ∧ total_weight T = w) ∧ ∀ T, Q T → w ≤ total_weight T.

(** ** Connected components *)




(** ** Scenarios *)


(** A client's sequence of [union] calls, then the test
    [find(a) == find(b)]. *)
Fixpoint do_unions (pairs : list (Z * Z)) : M unit :=
  match pairs with
  | [] => ret tt
  | (a, b) :: pairs' => union a b ;;; do_unions pairs'
  end.

Definition find_eq (a b : Z) : M bool :=
  ra <- find a ;;
  rb <- find b ;;
  ret (bool_decide (ra = rb)).

(** The triangle of the specification's scenario. *)
Definition triangle : list edge := [(1, 2, 1); (2, 3, 2); (1, 3, 3)].

(** Four vertices in two components. *)
Definition two_islands : list edge := [(1, 2, 5); (3, 4, 7)].

(** Python list objects by identity, to tell the caller's edge list from
    the list that [sorted] returns. *)
Definition py_sorted (r : positive) (σ : gmap positive (list edge))
  : option (positive * gmap positive (list edge)) :=
  match σ !! r with
  | Some l =>
      let r' := fresh (dom σ) in Some (r', <[r' := sorted_by_weight l]> σ)
  | None => None
  end.

(** [run_kruskal] with its argument [edges] given as a reference into the
    store of list objects. *)
Definition run_kruskal_in_store (num_nodes : Z) (edges : positive)
    (σ : gmap positive (list edge))
  : option (result Z * gmap positive (list edge)) :=
  match py_sorted edges σ with
  | Some (sorted_edges, σ') =>
      match σ' !! sorted_edges with
      | Some es =>
          Some (match kruskal_loop es 0 0 (UnionFind_init num_nodes) with
                | Ok ((mst_weight, _), _) => Ok mst_weight
                | Raise e => Raise e
                end, σ')
      | None => None
      end
  | None => None
  end.

(** What a run of [run_prim] can have done to the adjacency [adj0] it was
    given, once it has visited [V]: existing keys keep their lists, and a
    visited vertex that was not a key is now one, with an empty list. *)
Definition adj_touched (adj0 : gmap Z (list (Z * Z))) (V : gset Z)
    (a : gmap Z (list (Z * Z))) : Prop :=
  ∀ k, a !! k = match adj0 !! k with
                | Some l => Some l
                | None => if decide (k ∈ V) then Some [] else None
                end.

(** Invariant of the whole loop of [run_prim], for any input: what became
    of the adjacency, and where queue entries and visited vertices come
    from. *)
Record prim_frame (adj0 : gmap Z (list (Z * Z))) (st : prim_state) : Prop := {
  pf_adj : adj_touched adj0 (visited st) (adj st);
  pf_queue : ∀ w y, (w, y) ∈ pq st →
    (w, y) = (0, 1) ∨ ∃ x, (w, y) ∈ adj_list adj0 x;
  pf_visited : ∀ v, v ∈ visited st → v = 1 ∨ ∃ x w, (w, v) ∈ adj_list adj0 x
}.

(** ** Ranks and sizes *)

(** What union by rank maintains: ranks are not negative, and a root of
    rank [k] is the root of at least [2^k] cells. *)
Definition rank_sizes (n : Z) (uf : UnionFind) : Prop :=
  (∀ x, in_range n x → 0 ≤ pfun (rank uf) x) ∧
  ∀ r, in_range n r → pfun (parent uf) r = r →
    ∃ L, NoDup L ∧
         (∀ x, x ∈ L → in_range n x ∧ root_of (parent uf) x r) ∧
         2 ^ pfun (rank uf) r ≤ Z.of_nat (length L).

(** ** Roots *)


(** ** Subscripts from the end *)

(** The subscripts that a Python list of [n + 1] cells accepts: the cells
    [0 .. n] and their negative names [-(n + 1) .. -1]. *)
Definition valid_subscript (n i : Z) : Prop := - (n + 1) ≤ i ≤ n.

(** The cell that a valid subscript addresses. *)
Definition cell (n i : Z) : Z := if decide (i < 0) then i + (n + 1) else i.

(** Both endpoints of an edge are valid subscripts. *)
Definition valid_edge (n : Z) (e : edge) : Prop :=
  valid_subscript n (src e) ∧ valid_subscript n (dst e).


(** Two states of the object with the same two lists. *)
Definition same_lists (uf1 uf2 : UnionFind) : Prop :=
  parent uf1 = parent uf2 ∧ rank uf1 = rank uf2.

(** Two outcomes that differ at most by the recorded subscripts. *)
Definition same_outcome {A} (r1 r2 : result (A * UnionFind)) : Prop :=
  match r1, r2 with
  | Ok (a1, u1), Ok (a2, u2) => a1 = a2 ∧ same_lists u1 u2
  | Raise e1, Raise e2 => e1 = e2
  | _, _ => False
  end.

(** What [union] does once it has the two roots (the body of
    [if root_i != root_j] and the final [return False]). *)
Definition link (root_i root_j : Z) : M bool :=
  if decide (root_i ≠ root_j) then
    ri <- rank_get root_i ;;
    rj <- rank_get root_j ;;
    let '(root_i, root_j) :=
      if decide (ri < rj) then (root_j, root_i) else (root_i, root_j) in
    parent_set root_j root_i ;;;
    ri' <- rank_get root_i ;;
    rj' <- rank_get root_j ;;
    (if decide (ri' = rj') then
       r <- rank_get root_i ;;
       rank_set root_i (r + 1)
     else ret tt) ;;;
    ret true
  else
    ret false.

(** ** Undirected graphs *)

(** An edge taken in the other direction. *)
Definition flip (e : edge) : edge := (dst e, src e, weight e).

(** Two edge lists that describe the same undirected weighted graph:
    order, direction and repetition of the edges apart. *)
Definition same_graph (E E' : list edge) : Prop :=
  ∀ e, (e ∈ E ∨ flip e ∈ E) ↔ (e ∈ E' ∨ flip e ∈ E').

(** An edge of [E'] for the edge [e] of a graph that [E'] describes too. *)
Definition direct (E' : list edge) (e : edge) : edge :=
  if decide (e ∈ E') then e else flip e.

(** [rest] lists the edges away from the connected component of the
    vertex [1]. *)
Definition outside (edges rest : list edge) : Prop :=
  ∀ e, e ∈ rest ↔ e ∈ edges ∧ ¬ conn (ends <$> edges) 1 (src e).

(** ** Runs of [run_prim] on a shared adjacency *)

(** Two states of the loop of [run_prim] that differ at most by keys of the
    adjacency that hold an empty list. *)
Definition same_run (st1 st2 : prim_state) : Prop :=
  pq st1 = pq st2 ∧ visited st1 = visited st2 ∧
  mst_weight st1 = mst_weight st2 ∧
  ∀ k, adj_list (adj st1) k = adj_list (adj st2) k.

(** ** The lines of a file *)

(** The lines that the loader looks at. *)
Definition relevant (line : string) : bool :=
  String.prefix "p" line || String.prefix "a" line.

(** The fields of a line that the loader converts, in the order in which
    it converts them. *)
Definition needed (line : string) : list nat :=
  if String.prefix "p" line then [2%nat]
  else if String.prefix "a" line then [1%nat; 2%nat; 3%nat]
  else [].

(** The exception that converting the field [k] raises, if any. *)
Definition field_error (max_str_digits : Z) (parts : list string) (k : nat)
  : option error :=
  match int_field max_str_digits parts k with
  | Returns _ => None
  | Raises e => Some e
  end.

(** The exception that a line raises: that of the first of its needed
    fields that is missing or is no integer literal. *)
Definition line_error (max_str_digits : Z) (line : string) : option error :=
  head (omap (field_error max_str_digits (py_split line)) (needed line)).

(** The first exception among the lines of a file. *)
Definition first_error (max_str_digits : Z) (lines : list string)
  : option error :=
  head (omap (line_error max_str_digits) lines).

(** The integer in the field [k]. *)
Definition field_value (max_str_digits : Z) (parts : list string) (k : nat)
  : option Z :=
  parts !! k ≫= py_int max_str_digits.

(** The number of nodes that a problem line announces. *)
Definition line_nodes (max_str_digits : Z) (line : string) : option Z :=
  if String.prefix "p" line
  then field_value max_str_digits (py_split line) 2
  else None.

(** The arc that an arc line describes. *)
Definition line_arc (max_str_digits : Z) (line : string) : option edge :=
  if String.prefix "p" line then None
  else if String.prefix "a" line then
    let parts := py_split line in
    u ← field_value max_str_digits parts 1;
    v ← field_value max_str_digits parts 2;
    w ← field_value max_str_digits parts 3;
    Some (u, v, w)
  else None.

(** What the loader returns for the lines of a well-formed file. *)
Definition graph_of_lines (max_str_digits : Z) (lines : list string)
  : loader_state :=
  let edges := omap (line_arc max_str_digits) lines in
  (default 0 (last (omap (line_nodes max_str_digits) lines)),
   edges, build_adj edges).

(** One more edge in the adjacency: both directions. *)
Definition adj_add (adj : gmap Z (list (Z * Z))) (e : edge)
  : gmap Z (list (Z * Z)) :=
  adj_append (adj_append adj (src e) (weight e, dst e)) (dst e) (weight e, src e).

(** ** Writing a graph in the DIMACS format *)

(** The character of a decimal digit. *)
Definition digit_char (d : Z) : ascii := ascii_of_N (Z.to_N (48 + d)).

(** The digits of [n] in front of [tail], the last digit first written. *)
Fixpoint numeral_from (fuel : nat) (n : Z) (tail : string) : string :=
  match fuel with
  | O => tail
  | S fuel =>
      let tail := String (digit_char (n mod 10)) tail in
      if decide (n < 10) then tail else numeral_from fuel (n / 10) tail
  end.

(** The decimal numeral of a natural number (it has no more decimal digits
    than binary ones). *)
Definition numeral (n : Z) : string :=
  numeral_from (S (Z.to_nat (Z.log2 n))) n "".

(** [str(z)] *)
Definition show (z : Z) : string :=
  if decide (z < 0) then String "-" (numeral (- z)) else numeral z.

(** The end of a line. *)
Definition newline : string := String "010" "".

(** An arc line [a u v w] and the problem line [p sp n m]. *)
Definition arc_line (e : edge) : string :=
  "a " +:+ (show (src e) +:+ (" " +:+ (show (dst e) +:+
    (" " +:+ (show (weight e) +:+ newline))))).

Definition problem_line (n m : Z) : string :=
  "p sp " +:+ (show n +:+ (" " +:+ (show m +:+ newline))).

(** The lines of the file that describes a graph. *)
Definition dimacs_lines (n : Z) (edges : list edge) : list string :=
  problem_line n (Z.of_nat (length edges)) :: (arc_line <$> edges).

(** The numeral of [z] passes the interpreter's limit on the digits of a
    literal. *)
Definition fits (max_str_digits z : Z) : Prop :=
  Z.abs z < 10 ^ 640 ∨ max_str_digits ≤ 0 ∨ Z.abs z < 10 ^ max_str_digits.

(** The three numbers of an edge pass it. *)
Definition fits_edge (max_str_digits : Z) (e : edge) : Prop :=
  fits max_str_digits (src e) ∧ fits max_str_digits (dst e)
  ∧ fits max_str_digits (weight e).

(** No character of [s] is white space. *)
Fixpoint no_space (s : string) : bool :=
  match s with
  | String c s' => negb (isspace c) && no_space s'
  | EmptyString => true
  end.

(** ** Reports of the benchmark *)

(** One report after another: the second is not reached when the first
    does not finish. *)
Definition and_then (r1 r2 : list printed * ending) : list printed * ending :=
  match r1.2 with
  | Finished => (r1.1 ++ r2.1, r2.2)
  | _ => r1
  end.

(** The report on one data set, with a single run of each routine. *)
Definition report (lim : limits) (max_str_digits : Z) (fs : files)
    (name filename : string) : list printed * ending :=
  match read_dimacs_graph max_str_digits fs filename with
  | Raises FileNotFoundError =>
      ([Loading filename; NotFound filename], Finished)
  | Raises e => ([Loading filename], Aborted e)
  | Returns (num_nodes, edges, adj) =>
      match run_kruskal_within lim num_nodes edges with
      | Raises e => ([Loading filename], Aborted e)
      | Returns k_cost =>
          if printable max_str_digits k_cost then
            match run_prim num_nodes adj with
            | Some (p_cost, _) =>
                if printable max_str_digits p_cost then
                  ([Loading filename; KruskalRow name k_cost;
                    PrimRow name p_cost; Rule], Finished)
                else
                  ([Loading filename; KruskalRow name k_cost],
                   Aborted ValueError)
            | None => ([Loading filename; KruskalRow name k_cost], OutOfFuel)
            end
          else ([Loading filename], Aborted ValueError)
      end
  end.

(** [UnionFind(n)] can be built. *)
Definition allocates (lim : limits) (n : Z) : Prop :=
  n + 1 ≤ Z.pos (maxsize lim) ∧ n + 1 ≤ Z.pos (max_cells lim).

(** A result of the core, as a result of the benchmark. *)
Definition lift {A} (r : result A) : outcome A :=
  match r with
  | Ok a => Returns a
  | Raise e => Raises (Core e)
  end.


(** ** More scenarios *)

(** The triangle once more: its edges in another order, taken in the
    other direction, one of them listed in both. *)
Definition triangle_again : list edge :=
  [(3, 1, 3); (2, 1, 1); (3, 2, 2); (1, 2, 1)].


(** The lines of a file that describes the triangle, after a comment. *)
Definition triangle_file : list string :=
  (λ s, s +:+ newline)
    <$> ["c a triangle"; "p sp 3 3"; "a 1 2 1"; "a 2 3 2"; "a 1 3 3"].

(** The lines of a file that lacks its problem line. *)
Definition headless_file : list string :=
  (λ s, s +:+ newline) <$> ["c one road"; "a 1 2 5"].

(** A directory that holds these two files. *)
Definition sample_files : files :=
  λ filename,
    if decide (filename = "triangle.gr.gz") then Some triangle_file
    else if decide (filename = "headless.gr.gz") then Some headless_file
    else None.



(** A 64-bit interpreter with room for lists of [2^32] cells. *)
Definition roomy : limits := mkLimits (2 ^ 63 - 1) (2 ^ 32).

(** * Proofs *)

(** ** Walks, forests and the exchange step *)

Section Conn.
Implicit Types (L : list (Z * Z)) (x y z : Z).

Lemma conn_edge L x y : (x, y) ∈ L ∨ (y, x) ∈ L → conn L x y.
Proof. intros H. eapply conn_step; [exact H | apply conn_refl]. Qed.

Lemma conn_trans L x y z : conn L x y → conn L y z → conn L x z.
Proof.
  induction 1 as [|x y' y Hxy _ IH]; [done|].
  intros Hz. eapply conn_step; eauto.
Qed.

Lemma conn_sym L x y : conn L x y → conn L y x.
Proof.
  induction 1 as [|x y' y Hxy _ IH]; [apply conn_refl|].
  eapply conn_trans; [exact IH|]. apply conn_edge. tauto.
Qed.

Lemma conn_mono L L' x y : (∀ p, p ∈ L → p ∈ L') → conn L x y → conn L' x y.
Proof.
  intros Hsub. induction 1 as [|x y' y Hxy _ IH]; [apply conn_refl|].
  eapply conn_step; [|exact IH]. destruct Hxy; auto.
Qed.

(** What one more pair can connect. *)
Lemma conn_cons_inv L a b x y :
  conn ((a, b) :: L) x y →
  conn L x y ∨ (conn L x a ∧ conn L b y) ∨ (conn L x b ∧ conn L a y).
Proof.
  induction 1 as [x|x y' y Hxy _ IH]; [left; apply conn_refl|].
  assert (Hcase : conn L x y' ∨ (x = a ∧ y' = b) ∨ (x = b ∧ y' = a)).
  { destruct Hxy as [Hxy|Hxy]; apply elem_of_cons in Hxy as [Heq|Hin].
    - injection Heq as -> ->. auto.
    - left. apply conn_edge. auto.
    - injection Heq as -> ->. auto.
    - left. apply conn_edge. auto. }
  destruct Hcase as [Hc|[[-> ->]|[-> ->]]].
  - destruct IH as [IH|[[IH1 IH2]|[IH1 IH2]]].
    + left. eapply conn_trans; eauto.
    + right; left. split; [eapply conn_trans; eauto|done].
    + right; right. split; [eapply conn_trans; eauto|done].
  - destruct IH as [IH|[[IH1 IH2]|[IH1 IH2]]].
    + right; left. split; [apply conn_refl|done].
    + right; left. split; [apply conn_refl|done].
    + left. done.
  - destruct IH as [IH|[[IH1 IH2]|[IH1 IH2]]].
    + right; right. split; [apply conn_refl|done].
    + left. done.
    + right; right. split; [apply conn_refl|done].
Qed.

Lemma conn_cons L a b x y :
  conn ((a, b) :: L) x y ↔
  conn L x y ∨ (conn L x a ∧ conn L b y) ∨ (conn L x b ∧ conn L a y).
Proof.
  split; [apply conn_cons_inv|].
  assert (Hm : ∀ u v, conn L u v → conn ((a, b) :: L) u v).
  { intros u v. apply conn_mono. intros p Hp. by apply elem_of_cons; right. }
  assert (Hab : conn ((a, b) :: L) a b).
  { apply conn_edge. left. apply elem_of_cons. by left. }
  intros [H|[[H1 H2]|[H1 H2]]]; [by apply Hm| |].
  - eapply conn_trans; [apply Hm, H1|]. eapply conn_trans; [exact Hab|by apply Hm].
  - eapply conn_trans; [apply Hm, H1|].
    eapply conn_trans; [apply conn_sym, Hab|by apply Hm].
Qed.
End Conn.

(** Closing a goal [conn ((a, b) :: L) x y] from walks in [L]. *)
Ltac conn_base :=
  first [eassumption | apply conn_sym; eassumption | apply conn_refl].
Ltac conn_via :=
  apply conn_cons;
  solve [ left; conn_base
        | right; left; split; conn_base
        | right; right; split; conn_base ].

Section Forest.
Implicit Types (L P : list (Z * Z)) (S : list edge) (x y z a b : Z).

Lemma conn_nil x y : conn [] x y ↔ x = y.
Proof.
  split; [|intros ->; apply conn_refl].
  destruct 1 as [|x y' y [H|H] _]; [done| |]; by apply elem_of_nil in H.
Qed.

Lemma conn_dec L x y : conn L x y ∨ ¬ conn L x y.
Proof.
  revert x y. induction L as [|[a b] L IH]; intros x y.
  - rewrite conn_nil. destruct (decide (x = y)); auto.
  - rewrite conn_cons.
    destruct (IH x y), (IH x a), (IH b y), (IH x b), (IH a y); tauto.
Qed.

Lemma conn_ext L L' x y :
  (∀ p, p ∈ L ↔ p ∈ L') → conn L x y ↔ conn L' x y.
Proof. intros H. split; apply conn_mono; intros p; apply H. Qed.

(** Replacing a pair by what it connects. *)
Lemma conn_cons_sub L L' a b x y :
  conn L' a b → (∀ u v, conn L u v → conn L' u v) →
  conn ((a, b) :: L) x y → conn L' x y.
Proof.
  intros Hab Hsub [H|[[H1 H2]|[H1 H2]]]%conn_cons_inv; [by apply Hsub| |].
  - eapply conn_trans; [apply Hsub, H1|]. eapply conn_trans; [exact Hab|by apply Hsub].
  - eapply conn_trans; [apply Hsub, H1|].
    eapply conn_trans; [apply conn_sym, Hab|by apply Hsub].
Qed.

Lemma conn_app_mono L P P' x y :
  (∀ u v, conn P u v → conn P' u v) →
  conn (L ++ P) x y → conn (L ++ P') x y.
Proof.
  intros HP. revert x y. induction L as [|[a b] L IH]; intros x y; simpl; [apply HP|].
  apply conn_cons_sub.
  - apply conn_edge. left. apply elem_of_cons. by left.
  - intros u v Huv. eapply conn_mono; [|apply IH, Huv].
    intros p Hp. apply elem_of_cons. by right.
Qed.

Lemma conn_app_l L P x y : conn P x y → conn (L ++ P) x y.
Proof. apply conn_mono. intros p Hp. apply elem_of_app. by right. Qed.

Lemma conn_app_r L P x y : conn L x y → conn (L ++ P) x y.
Proof. apply conn_mono. intros p Hp. apply elem_of_app. by left. Qed.

Lemma conn_middle L P a b x y :
  conn (L ++ (a, b) :: P) x y ↔ conn ((a, b) :: L ++ P) x y.
Proof.
  apply conn_ext. intros p.
  rewrite elem_of_app, !elem_of_cons, elem_of_app. tauto.
Qed.

Lemma conn_cons_weaken L a b x y : conn L x y → conn ((a, b) :: L) x y.
Proof. apply conn_mono. intros p Hp. apply elem_of_cons. by right. Qed.

Lemma conn_cons_head L a b : conn ((a, b) :: L) a b.
Proof. apply conn_edge. left. apply elem_of_cons. by left. Qed.

(** Members of a forest are not loops. *)
Lemma forest_mod_nonloop P S e :
  forest_mod P S → e ∈ S → ¬ conn P (src e) (dst e).
Proof.
  induction S as [|f S IH]; intros HF He; [by apply elem_of_nil in He|].
  destruct HF as [HF Hf]. apply elem_of_cons in He as [->|He]; [|by apply IH].
  intros Hc. apply Hf. by apply conn_app_l.
Qed.

Lemma forest_mod_weaken P P' S :
  (∀ u v, conn P u v → conn P' u v) → forest_mod P' S → forest_mod P S.
Proof.
  intros HP. induction S as [|f S IH]; [done|].
  intros [HF Hf]. split; [by apply IH|].
  intros Hc. apply Hf. eapply conn_app_mono; eauto.
Qed.

(** A pair that the forest does not connect can be contracted first. *)
Lemma forest_mod_add P S a b :
  forest_mod P S → ¬ conn ((ends <$> S) ++ P) a b →
  forest_mod ((a, b) :: P) S.
Proof.
  induction S as [|f S IH]; [done|].
  intros [HF Hf] Hab. simpl in Hab.
  split.
  - apply IH; [done|]. intros Hc. apply Hab. by apply conn_cons_weaken.
  - intros Hc. apply conn_middle in Hc.
    apply conn_cons_inv in Hc as [Hc|[[H1 H2]|[H1 H2]]]; [done| |];
      apply Hab; conn_via.
Qed.

(** Conversely, a forest over a contracted pair does not connect it. *)
Lemma forest_mod_cons_disconnected P S a b :
  forest_mod ((a, b) :: P) S → ¬ conn P a b →
  ¬ conn ((ends <$> S) ++ P) a b.
Proof.
  induction S as [|f S IH]; [done|].
  intros [HF Hf] Hab Hc. simpl in Hc.
  apply conn_cons_inv in Hc as [Hc|[[H1 H2]|[H1 H2]]]; [by apply IH| |];
    apply Hf, conn_middle; conn_via.
Qed.

Lemma forest_mod_swap P S e f :
  forest_mod P (e :: f :: S) → forest_mod P (f :: e :: S).
Proof.
  simpl. intros [[HF Hf] He]. split; [split; [done|]|].
  - intros Hc. apply He. by apply conn_cons_weaken.
  - intros Hc. apply conn_cons_inv in Hc as [Hc|[[H1 H2]|[H1 H2]]]; [done| |];
      apply He; conn_via.
Qed.

Lemma conn_fmap_perm S S' P x y :
  S ≡ₚ S' → conn ((ends <$> S) ++ P) x y ↔ conn ((ends <$> S') ++ P) x y.
Proof.
  intros HS. apply conn_ext. intros p. rewrite !elem_of_app.
  by rewrite HS.
Qed.

Lemma forest_mod_perm P S S' : S ≡ₚ S' → forest_mod P S → forest_mod P S'.
Proof.
  induction 1 as [|e S S' HS IH|e f S|S S' S'' _ IH1 _ IH2]; [done| | |by auto].
  - intros [HF He]. split; [by apply IH|]. by rewrite <- (conn_fmap_perm S S').
  - apply forest_mod_swap.
Qed.
End Forest.

Section Exchange.
Implicit Types (L P : list (Z * Z)) (S : list edge) (x y z a b : Z).

Lemma conn_cons_ext L L' p x y :
  (∀ u v, conn L u v ↔ conn L' u v) → conn (p :: L) x y ↔ conn (p :: L') x y.
Proof.
  intros H. destruct p as [a b].
  split; apply conn_cons_sub; try apply conn_cons_head;
    intros u v Huv; apply conn_cons_weaken, H, Huv.
Qed.

Lemma total_weight_app S1 S2 :
  total_weight (S1 ++ S2) = total_weight S1 + total_weight S2.
Proof. induction S1 as [|e S1 IH]; simpl; lia. Qed.

Lemma total_weight_perm S S' : S ≡ₚ S' → total_weight S = total_weight S'.
Proof. induction 1; simpl; lia. Qed.

(** The exchange step: in a forest that connects [a] and [b] there is a
    member [f], the one that first brings them together, which the pair
    [(a, b)] can replace. *)
Lemma forest_exchange P S a b :
  forest_mod P S → ¬ conn P a b → conn ((ends <$> S) ++ P) a b →
  ∃ S1 f S2,
    S = S1 ++ f :: S2 ∧
    ¬ conn ((ends <$> S2) ++ P) a b ∧
    conn ((ends <$> (f :: S2)) ++ P) a b ∧
    forest_mod ((a, b) :: P) (S1 ++ S2) ∧
    ∀ x y, conn ((ends <$> (S1 ++ S2)) ++ (a, b) :: P) x y
           ↔ conn ((ends <$> S) ++ P) x y.
Proof.
  induction S as [|s S IH]; intros HF Hab Hc; [done|].
  destruct HF as [HF Hs].
  destruct (conn_dec ((ends <$> S) ++ P) a b) as [Hyes|Hno].
  - destruct (IH HF Hab Hyes) as (S1 & f & S2 & -> & Hn & Hy & HF' & Heq).
    exists (s :: S1), f, S2. split_and!; [done..| |].
    + split; [done|]. by rewrite Heq.
    + intros x y. simpl. by apply conn_cons_ext.
  - exists [], s, S. split_and!; [done..| |].
    + simpl. by apply forest_mod_add.
    + intros x y. simpl. rewrite conn_middle.
      simpl in Hc.
      assert (Hs12 : conn ((a, b) :: (ends <$> S) ++ P) (src s) (dst s)).
      { apply conn_cons_inv in Hc as [Hc|[[H1 H2]|[H1 H2]]]; [done| |]; conn_via. }
      split; apply conn_cons_sub; try done; apply conn_cons_weaken.
Qed.
End Exchange.

Section Greedy.
Implicit Types (L P : list (Z * Z)) (S : list edge) (x y z a b : Z).
Implicit Types (E : edge → Prop) (e f : edge).

Lemma basis_perm E P S S' : S ≡ₚ S' → basis E P S → basis E P S'.
Proof.
  intros HS [H1 H2 H3]. split.
  - intros e He. apply H1. by rewrite HS.
  - by eapply forest_mod_perm.
  - intros e He. rewrite <- (conn_fmap_perm S S') by done. by apply H3.
Qed.

Lemma basis_cons E E' P e S' :
  E e → ¬ conn P (src e) (dst e) → shrinks E E' P e →
  basis E' (ends e :: P) S' → basis E P (e :: S').
Proof.
  intros He Hne [Hsub Hsup] [H1 H2 H3]. split.
  - intros f [->|Hf]%elem_of_cons; auto.
  - split.
    + eapply forest_mod_weaken; [|exact H2]. intros u v. apply conn_cons_weaken.
    + by apply forest_mod_cons_disconnected.
  - intros f Hf. simpl. destruct (Hsup f Hf) as [Hf'|Hloop].
    + apply conn_middle. by apply H3.
    + revert Hloop. apply conn_mono. intros p.
      rewrite !elem_of_cons, elem_of_app. tauto.
Qed.

Lemma basis_exchange E E' P e S :
  E e → ¬ conn P (src e) (dst e) → shrinks E E' P e →
  basis E P S →
  ∃ S1 f S2,
    S = S1 ++ f :: S2 ∧
    ¬ conn ((ends <$> S2) ++ P) (src e) (dst e) ∧
    conn ((ends <$> (f :: S2)) ++ P) (src e) (dst e) ∧
    basis E' (ends e :: P) (S1 ++ S2).
Proof.
  intros He Hne [Hsub Hsup] [H1 H2 H3].
  destruct (forest_exchange P S (src e) (dst e) H2 Hne (H3 e He))
    as (S1 & f & S2 & -> & Hn & Hy & HF & Heq).
  exists S1, f, S2. split_and!; [done..|]. split.
  - intros g Hg. destruct (Hsup g) as [Hg'|Hloop]; [|done|].
    + apply H1. rewrite elem_of_app in Hg. rewrite elem_of_app, elem_of_cons. tauto.
    + by destruct (forest_mod_nonloop _ _ _ HF Hg).
  - exact HF.
  - intros g Hg. apply Heq. auto.
Qed.

Lemma min_basis_pick E E' P e w' :
  E e → ¬ conn P (src e) (dst e) → shrinks E E' P e →
  (∀ S, basis E P S →
     ∃ S', basis E' (ends e :: P) S' ∧ weight e + total_weight S' ≤ total_weight S) →
  min_basis E' (ends e :: P) w' → min_basis E P (weight e + w').
Proof.
  intros He Hne Hsh Hlow [(S' & HS' & <-) Hmin]. split.
  - exists (e :: S'). split; [by eapply basis_cons|done].
  - intros S HS. destruct (Hlow S HS) as (S'' & HS'' & Hle).
    specialize (Hmin S'' HS''). lia.
Qed.

(** Kruskal's choice: a candidate of least weight. *)
Lemma min_basis_pick_lightest E E' P e w' :
  E e → ¬ conn P (src e) (dst e) → shrinks E E' P e →
  (∀ f, E f → weight e ≤ weight f) →
  min_basis E' (ends e :: P) w' → min_basis E P (weight e + w').
Proof.
  intros He Hne Hsh Hlight. apply min_basis_pick; [done..|].
  intros S HS.
  destruct (basis_exchange E E' P e S He Hne Hsh HS)
    as (S1 & f & S2 & -> & _ & _ & HB).
  exists (S1 ++ S2). split; [done|].
  rewrite !total_weight_app. simpl.
  assert (weight e ≤ weight f); [|lia].
  apply Hlight, HS. rewrite elem_of_app, elem_of_cons. tauto.
Qed.

(** A walk along pairs that do not cross a cut stays on its side. *)
Lemma conn_cut L (V : Z → bool) x y :
  (∀ p, p ∈ L → V p.1 = V p.2) → conn L x y → V x = V y.
Proof.
  intros HL. induction 1 as [|x y' y [Hxy|Hxy] _ IH]; [done| |];
    apply HL in Hxy; simpl in Hxy; congruence.
Qed.

(** Prim's choice: a lightest candidate among those that cross a cut
    which [P] does not cross. *)
Lemma min_basis_pick_cut E P (V : Z → bool) e w' :
  E e → crosses V e = true →
  (∀ p, p ∈ P → V p.1 = V p.2) →
  (∀ f, E f → crosses V f = true → weight e ≤ weight f) →
  min_basis E (ends e :: P) w' → min_basis E P (weight e + w').
Proof.
  intros He Hcross HP Hlight.
  assert (Hne : ¬ conn P (src e) (dst e)).
  { intros Hc. apply (conn_cut _ V) in Hc; [|done].
    unfold crosses in Hcross. rewrite bool_decide_eq_true_2 in Hcross; done. }
  assert (Hsh : shrinks E E P e) by (split; auto).
  apply min_basis_pick; [done..|].
  intros S HS.
  assert (HSperm : S ≡ₚ filter (λ f, crosses V f = true) S
                     ++ filter (λ f, ¬ crosses V f = true) S).
  { clear. induction S as [|f S IH]; [done|].
    rewrite !filter_cons. destruct (decide (crosses V f = true)) as [Hf|Hf].
    - rewrite decide_False by tauto. simpl. by f_equiv.
    - rewrite decide_True by done. rewrite IH at 1. apply Permutation_middle. }
  apply (basis_perm _ _ _ _ HSperm) in HS as HS'.
  destruct (basis_exchange E E P e _ He Hne Hsh HS')
    as (S1 & f & S2 & Heq & Hn & Hy & HB).
  exists (S1 ++ S2). split; [done|].
  rewrite (total_weight_perm _ _ HSperm), Heq, !total_weight_app. simpl.
  assert (weight e ≤ weight f); [|lia].
  assert (Hf : f ∈ S).
  { rewrite HSperm, Heq, elem_of_app, elem_of_cons. tauto. }
  apply Hlight; [by apply HS|].
  destruct (crosses V f) eqn:Hcf; [done|]. exfalso.
  (* [f] does not cross: [f :: S2] lies in the second part *)
  assert (Hnc : ∀ g, g ∈ filter (λ f, ¬ crosses V f = true) S →
                     V (src g) = V (dst g)).
  { intros g [Hg _]%list_elem_of_filter. unfold crosses in Hg.
    destruct (decide (V (src g) = V (dst g))) as [|Hd]; [done|].
    rewrite bool_decide_eq_false_2 in Hg; done. }
  assert (Hsuf : ∀ g, g ∈ f :: S2 → V (src g) = V (dst g)).
  { apply app_eq_app in Heq as [l [[Heq1 Heq2]|[Heq1 Heq2]]].
    - destruct l as [|g' l]; simpl in Heq2.
      + intros g Hg. apply Hnc. by rewrite <- Heq2.
      + injection Heq2 as Hfg HS2.
        assert (Hin : f ∈ filter (λ f, crosses V f = true) S).
        { rewrite Heq1, elem_of_app, elem_of_cons. subst g'. tauto. }
        apply list_elem_of_filter in Hin as [Hin _]. congruence.
    - intros g Hg. apply Hnc. rewrite Heq2, elem_of_app. by right. }
  apply (conn_cut _ V) in Hy.
  - unfold crosses in Hcross. rewrite bool_decide_eq_true_2 in Hcross; done.
  - intros p [Hp|Hp]%elem_of_app; [|by apply HP].
    apply list_elem_of_fmap in Hp as (g & -> & Hg). by apply Hsuf.
Qed.

(** Skipping a candidate that is a loop over [P]. *)
Lemma min_basis_skip E E' P e w :
  conn P (src e) (dst e) →
  (∀ f, E' f → E f) → (∀ f, E f → E' f ∨ f = e) →
  min_basis E' P w → min_basis E P w.
Proof.
  intros Hloop Hsub Hsup.
  assert (Hiff : ∀ S, basis E P S ↔ basis E' P S).
  { intros S. split; intros [H1 H2 H3]; split; auto.
    - intros f Hf. destruct (Hsup f (H1 f Hf)) as [? | ->]; [done|].
      by destruct (forest_mod_nonloop _ _ _ H2 Hf).
    - intros f Hf. destruct (Hsup f Hf) as [? | ->]; [auto|]. by apply conn_app_l. }
  intros [(S & HS & <-) Hmin]. split.
  - exists S. by rewrite Hiff.
  - intros S' HS'. apply Hmin. by rewrite <- Hiff.
Qed.

(** Nothing is left to choose once [P] connects every candidate. *)
Lemma min_basis_done E P :
  (∀ e, E e → conn P (src e) (dst e)) → min_basis E P 0.
Proof.
  intros HP.
  assert (Hnil : ∀ S, basis E P S → S = []).
  { intros [|f S] [H1 H2 H3]; [done|].
    destruct (forest_mod_nonloop _ _ f H2); [by left|].
    apply HP, H1. by left. }
  split.
  - exists []. split; [|done]. split; [by intros ? ?%elem_of_nil|done|auto].
  - intros S HS. by rewrite (Hnil S HS).
Qed.

Lemma min_basis_ext E E' P w :
  (∀ e, E e ↔ E' e) → min_basis E P w → min_basis E' P w.
Proof.
  intros HE.
  assert (Hiff : ∀ S, basis E P S ↔ basis E' P S).
  { intros S. split; intros [H1 H2 H3]; split; auto.
    - intros f Hf. by apply HE, H1.
    - intros f Hf. by apply H3, HE.
    - intros f Hf. by apply HE, H1.
    - intros f Hf. by apply H3, HE. }
  intros [(S & HS & <-) Hmin]. split.
  - exists S. by rewrite <- Hiff.
  - intros S' HS'. apply Hmin. by rewrite Hiff.
Qed.

Lemma min_basis_unique E P w w' : min_basis E P w → min_basis E P w' → w = w'.
Proof.
  intros [(S & HS & <-) Hmin] [(S' & HS' & <-) Hmin'].
  specialize (Hmin S' HS'). specialize (Hmin' S HS). lia.
Qed.

Lemma acyclic_forest_mod S : acyclic S ↔ forest_mod [] S.
Proof.
  split.
  - induction S as [|e S IH]; [done|]. intros Hac. split.
    + apply IH. intros T1 f T2 -> Hc.
      apply (Hac (e :: T1) f T2); [done|]. simpl. by apply conn_cons_weaken.
    + rewrite app_nil_r. by apply (Hac [] e S).
  - intros HF T1 e T2 -> Hc.
    apply (forest_mod_perm _ _ (e :: T1 ++ T2)) in HF as [_ HF].
    + apply HF. by rewrite app_nil_r.
    + by rewrite Permutation_middle.
Qed.
End Greedy.

(** ** Union-find: chains, path compression, union by rank *)

Section Subscripts.
Context (n : Z).
Implicit Types (l p : list Z) (i x : Z).

Lemma py_index_in_range l i :
  length l = Z.to_nat (n + 1) → in_range n i →
  py_index (length l) i = Some (Z.to_nat i).
Proof.
  intros Hl [? ?]. unfold py_index. rewrite decide_True; [done|lia].
Qed.

Lemma py_getitem_in_range l i :
  length l = Z.to_nat (n + 1) → in_range n i →
  py_getitem l i = Ok (pfun l i).
Proof.
  intros Hl Hi. unfold py_getitem. rewrite py_index_in_range by done.
  rewrite list_lookup_lookup_total_lt; [done|]. destruct Hi. lia.
Qed.

Lemma py_setitem_in_range l i x :
  length l = Z.to_nat (n + 1) → in_range n i →
  py_setitem l i x = Ok (<[Z.to_nat i := x]> l).
Proof.
  intros Hl Hi. unfold py_setitem. by rewrite py_index_in_range.
Qed.

Lemma pfun_insert_eq l i x :
  length l = Z.to_nat (n + 1) → in_range n i →
  pfun (<[Z.to_nat i := x]> l) i = x.
Proof.
  intros Hl [? ?]. unfold pfun. apply list_lookup_total_insert_eq. lia.
Qed.

Lemma pfun_insert_ne l i j x :
  in_range n i → in_range n j → i ≠ j →
  pfun (<[Z.to_nat i := x]> l) j = pfun l j.
Proof.
  intros [? ?] [? ?] Hne. unfold pfun. apply list_lookup_total_insert_ne. lia.
Qed.

Lemma length_compress p l r : length (compress p l r) = length p.
Proof. induction l as [|x l IH]; simpl; [done|]. by rewrite length_insert. Qed.

Lemma pfun_compress_in p l r x :
  length p = Z.to_nat (n + 1) → Forall (in_range n) l →
  x ∈ l → pfun (compress p l r) x = r.
Proof.
  intros Hp Hl. induction Hl as [|y l Hy Hl IH]; [by intros ?%elem_of_nil|].
  intros Hx. simpl. destruct (decide (y = x)) as [->|Hne].
  - apply pfun_insert_eq; [|done]. by rewrite length_compress.
  - apply elem_of_cons in Hx as [->|Hx]; [done|].
    assert (in_range n x) by (rewrite Forall_forall in Hl; auto).
    rewrite pfun_insert_ne by done. auto.
Qed.

Lemma pfun_compress_out p l r x :
  Forall (in_range n) l → in_range n x →
  x ∉ l → pfun (compress p l r) x = pfun p x.
Proof.
  intros Hl Hx. induction Hl as [|y l Hy Hl IH]; [done|].
  intros Hnin. simpl. rewrite not_elem_of_cons in Hnin. destruct Hnin.
  rewrite pfun_insert_ne by done. auto.
Qed.
End Subscripts.

Section Chains.
Context (n : Z).
Implicit Types (l p : list Z) (i x r : Z) (uf : UnionFind).

Lemma chain_det p i l r l' r' :
  chain p i l r → chain p i l' r' → l = l' ∧ r = r'.
Proof.
  intros H. revert l' r'. induction H as [i Hi|i l r Hi _ IH]; intros l' r' H'.
  - by inversion H'.
  - inversion H' as [|? ? ? ? H'']; subst; [done|].
    by destruct (IH _ _ H'') as [-> ->].
Qed.

Lemma root_of_det p i r r' : root_of p i r → root_of p i r' → r = r'.
Proof. intros [l H] [l' H']. by destruct (chain_det _ _ _ _ _ _ H H'). Qed.

Lemma chain_is_root p i l r : chain p i l r → pfun p r = r.
Proof. induction 1; auto. Qed.

Lemma root_of_root p r : pfun p r = r → root_of p r r.
Proof. intros H. exists []. by constructor. Qed.

Lemma root_of_is_root p i r : root_of p i r → pfun p r = r.
Proof. intros [l H]. by eapply chain_is_root. Qed.

Lemma root_of_step p i r : pfun p i ≠ i → root_of p (pfun p i) r → root_of p i r.
Proof. intros Hi [l H]. exists (i :: l). by constructor. Qed.

Lemma chain_in_range p i l r :
  (∀ x, in_range n x → in_range n (pfun p x)) → in_range n i →
  chain p i l r → in_range n r ∧ Forall (in_range n) l.
Proof.
  intros Hp Hi H. induction H as [i _|i l r _ _ IH]; [by split|].
  destruct (IH (Hp _ Hi)) as [? ?]. split; [done|]. by constructor.
Qed.


(** Ranks strictly increase along a chain. *)
Lemma chain_rank uf i l r :
  uf_inv n uf → in_range n i → chain (parent uf) i l r →
  (∀ x, x ∈ l → pfun (rank uf) x < pfun (rank uf) r) ∧
  pfun (rank uf) i ≤ pfun (rank uf) r.
Proof.
  intros Hinv Hi H.
  induction H as [i _|i l r Hne _ IH]; [split; [by intros ? ?%elem_of_nil|lia]|].
  destruct (IH (inv_parent_range _ _ Hinv _ Hi)) as [IH1 IH2].
  pose proof (inv_rank_up _ _ Hinv _ Hi Hne).
  split; [|lia]. intros x [->|Hx]%elem_of_cons; [lia|auto].
Qed.

Lemma chain_not_root uf i l r :
  uf_inv n uf → in_range n i → chain (parent uf) i l r → r ∉ l.
Proof.
  intros Hinv Hi H Hr.
  destruct (chain_rank _ _ _ _ Hinv Hi H) as [Hlt _]. specialize (Hlt _ Hr). lia.
Qed.

(** Distinct cells within [0 .. n] are at most [n + 1]. *)
Lemma in_range_NoDup_length (l : list Z) :
  NoDup l → Forall (in_range n) l → (length l ≤ Z.to_nat (n + 1))%nat.
Proof.
  intros Hnd Hl. rewrite <- (length_seqZ 0 (n + 1)).
  apply submseteq_length, NoDup_submseteq; [done|].
  intros x Hx. rewrite Forall_forall in Hl. apply Hl in Hx as [? ?].
  apply elem_of_seqZ. lia.
Qed.

Lemma chain_exists_fuel uf (f : nat) i seen :
  uf_inv n uf → in_range n i →
  NoDup seen → Forall (in_range n) seen →
  (∀ x, x ∈ seen → pfun (rank uf) x < pfun (rank uf) i) →
  (Z.to_nat (n + 1) ≤ length seen + f)%nat →
  ∃ l r, chain (parent uf) i l r ∧ (length l < f)%nat.
Proof.
  intros Hinv. revert i seen.
  induction f as [|f IH]; intros i seen Hi Hnd Hseen Hrk Hlen.
  - exfalso.
    assert (Hnd' : NoDup (i :: seen)).
    { constructor; [|done]. intros Hin. specialize (Hrk _ Hin). lia. }
    apply in_range_NoDup_length in Hnd'; [|by constructor].
    simpl in Hnd'. lia.
  - destruct (decide (pfun (parent uf) i = i)) as [Hroot|Hne].
    { exists [], i. split; [by constructor|simpl; lia]. }
    pose proof (inv_rank_up _ _ Hinv _ Hi Hne) as Hup.
    destruct (IH (pfun (parent uf) i) (i :: seen)) as (l & r & Hc & Hl).
    + by apply (inv_parent_range _ _ Hinv).
    + constructor; [|done]. intros Hin. specialize (Hrk _ Hin). lia.
    + by constructor.
    + intros x [->|Hx]%elem_of_cons; [done|]. specialize (Hrk _ Hx). lia.
    + simpl. lia.
    + exists (i :: l), r. split; [by constructor|simpl; lia].
Qed.

(** Every chain ends, within [len(parent)] steps. *)
Lemma chain_exists uf i :
  uf_inv n uf → in_range n i →
  ∃ l r, chain (parent uf) i l r ∧ (length l < length (parent uf))%nat.
Proof.
  intros Hinv Hi. rewrite (inv_len_parent _ _ Hinv).
  apply (chain_exists_fuel uf _ i []);
    [done|done|constructor|constructor|by intros ? ?%elem_of_nil|simpl; lia].
Qed.

Lemma root_of_exists uf i :
  uf_inv n uf → in_range n i → ∃ r, root_of (parent uf) i r.
Proof.
  intros Hinv Hi. destruct (chain_exists uf i Hinv Hi) as (l & r & H & _).
  exists r, l. done.
Qed.
End Chains.

Section Find.
Context (n : Z).
Implicit Types (l p rk : list Z) (i x r : Z) (uf : UnionFind).

Lemma parent_get_ok uf i :
  length (parent uf) = Z.to_nat (n + 1) → in_range n i →
  parent_get i uf
  = Ok (pfun (parent uf) i, mkUF (parent uf) (rank uf) (i :: accessed uf)).
Proof. intros Hl Hi. unfold parent_get. by rewrite (py_getitem_in_range n). Qed.

Lemma parent_set_ok uf i x :
  length (parent uf) = Z.to_nat (n + 1) → in_range n i →
  parent_set i x uf
  = Ok (tt, mkUF (<[Z.to_nat i := x]> (parent uf)) (rank uf) (i :: accessed uf)).
Proof. intros Hl Hi. unfold parent_set. by rewrite (py_setitem_in_range n). Qed.

Lemma rank_get_ok uf i :
  length (rank uf) = Z.to_nat (n + 1) → in_range n i →
  rank_get i uf
  = Ok (pfun (rank uf) i, mkUF (parent uf) (rank uf) (i :: accessed uf)).
Proof. intros Hl Hi. unfold rank_get. by rewrite (py_getitem_in_range n). Qed.

Lemma rank_set_ok uf i x :
  length (rank uf) = Z.to_nat (n + 1) → in_range n i →
  rank_set i x uf
  = Ok (tt, mkUF (parent uf) (<[Z.to_nat i := x]> (rank uf)) (i :: accessed uf)).
Proof. intros Hl Hi. unfold rank_set. by rewrite (py_setitem_in_range n). Qed.

(** What [find] computes along a chain. *)
Lemma find_rec_chain p rk i l r :
  length p = Z.to_nat (n + 1) →
  (∀ x, in_range n x → in_range n (pfun p x)) →
  in_range n i → chain p i l r →
  ∀ depth acc, (length l < depth)%nat →
    ∃ tr, find_rec depth i (mkUF p rk acc)
          = Ok (r, mkUF (compress p l r) rk (tr ++ acc))
          ∧ Forall (in_range n) tr.
Proof.
  intros Hlen Hp Hi H.
  induction H as [i Hroot|i l r Hne H IH]; intros depth acc Hd.
  - destruct depth as [|depth]; [simpl in Hd; lia|]. simpl.
    unfold bind. rewrite (parent_get_ok _ i) by done. simpl.
    rewrite decide_False by (intros ?; congruence).
    rewrite (parent_get_ok _ i) by done. simpl. rewrite Hroot.
    exists [i; i]. split; [done|]. by repeat apply Forall_cons_2.
  - destruct depth as [|depth]; [simpl in Hd; lia|]. simpl in Hd. simpl.
    unfold bind. rewrite (parent_get_ok _ i) by done. simpl.
    rewrite decide_True by done.
    rewrite (parent_get_ok _ i) by done. simpl.
    destruct (IH (Hp _ Hi) depth (i :: i :: acc)) as (tr & -> & Htr); [lia|].
    rewrite (parent_set_ok _ i) by (simpl; by rewrite ?length_compress). simpl.
    rewrite (parent_get_ok _ i)
      by (simpl; by rewrite ?length_insert, ?length_compress). simpl.
    rewrite (pfun_insert_eq n) by (by rewrite ?length_compress).
    exists (i :: i :: tr ++ [i; i]). split.
    + f_equal. f_equal. f_equal. simpl. by rewrite <- app_assoc.
    + repeat (apply Forall_cons_2; [done|]). apply Forall_app. split; [done|].
      by repeat apply Forall_cons_2.
Qed.
End Find.

Section Compression.
Context (n : Z).
Implicit Types (l p rk : list Z) (i x y r s : Z) (uf : UnionFind).

Lemma uf_inv_closed uf : uf_inv n uf → closed_parent n (parent uf).
Proof. intros H. split; [apply H|apply H]. Qed.

Lemma root_of_range p i r :
  closed_parent n p → in_range n i → root_of p i r → in_range n r.
Proof.
  intros [_ Hp] Hi [l H]. by destruct (chain_in_range n _ _ _ _ Hp Hi H).
Qed.

(** Pointing one cell at its own root changes no root. *)
Lemma root_of_point p x r :
  closed_parent n p → in_range n x → root_of p x r →
  ∀ y s, in_range n y → root_of p y s → root_of (<[Z.to_nat x := r]> p) y s.
Proof.
  intros Hcl Hx Hxr y s Hy [l H].
  pose proof (root_of_range _ _ _ Hcl Hx Hxr) as Hr.
  destruct Hcl as [Hlen Hp].
  induction H as [i Hroot|i l s Hne H IH].
  - apply root_of_root. destruct (decide (i = x)) as [->|Hix].
    + rewrite (pfun_insert_eq n) by done.
      eapply root_of_det; [exact Hxr|by apply root_of_root].
    + by rewrite (pfun_insert_ne n).
  - destruct (decide (i = x)) as [->|Hix].
    + assert (s = r) as ->.
      { eapply root_of_det; [|exact Hxr]. apply root_of_step; [done|by exists l]. }
      assert (r ≠ x).
      { intros ->. apply Hne. by eapply root_of_is_root. }
      apply root_of_step; rewrite (pfun_insert_eq n) by done; [done|].
      apply root_of_root. rewrite (pfun_insert_ne n) by done.
      by eapply root_of_is_root.
    + apply root_of_step; rewrite (pfun_insert_ne n) by done; [done|].
      apply IH. by apply Hp.
Qed.

Lemma closed_parent_insert p x r :
  closed_parent n p → in_range n x → in_range n r →
  closed_parent n (<[Z.to_nat x := r]> p).
Proof.
  intros [Hlen Hp] Hx Hr. split; [by rewrite length_insert|].
  intros y Hy. destruct (decide (x = y)) as [->|Hne].
  - by rewrite (pfun_insert_eq n).
  - rewrite (pfun_insert_ne n) by done. auto.
Qed.

Lemma compress_preserves p l r :
  closed_parent n p → in_range n r → Forall (in_range n) l →
  (∀ x, x ∈ l → root_of p x r) →
  closed_parent n (compress p l r) ∧
  ∀ y s, in_range n y → root_of p y s → root_of (compress p l r) y s.
Proof.
  intros Hcl Hr Hl. induction Hl as [|x l Hx Hl IH]; intros Hroot; [done|].
  destruct IH as [IHcl IH]; [intros; apply Hroot; by right|].
  simpl. split; [by apply closed_parent_insert|].
  intros y s Hy Hys. apply root_of_point; auto.
  apply IH; [done|]. apply Hroot. by left.
Qed.

Lemma chain_suffix_root p i l r x :
  chain p i l r → x ∈ l → root_of p x r.
Proof.
  induction 1 as [|i l r Hne H IH]; [by intros ?%elem_of_nil|].
  intros [->|Hx]%elem_of_cons; [|auto].
  exists (i :: l). by constructor.
Qed.

Lemma same_roots_same_set p p' x y :
  same_roots n p p' → in_range n x → in_range n y →
  (same_set p x y ↔ same_set p' x y).
Proof.
  intros H Hx Hy. unfold same_set.
  split; intros (r & H1 & H2); exists r; split; by apply H.
Qed.

(** Specification of [find] on a well-formed structure. *)
Lemma find_spec uf i :
  uf_inv n uf → in_range n i →
  ∃ l r uf',
    find i uf = Ok (r, uf') ∧
    chain (parent uf) i l r ∧
    parent uf' = compress (parent uf) l r ∧
    rank uf' = rank uf ∧
    in_range n r ∧
    uf_inv n uf' ∧
    same_roots n (parent uf) (parent uf').
Proof.
  intros Hinv Hi.
  destruct (chain_exists n uf i Hinv Hi) as (l & r & Hc & Hlen).
  pose proof (uf_inv_closed _ Hinv) as [Hlp Hp].
  destruct (chain_in_range n _ _ _ _ Hp Hi Hc) as [Hr Hl].
  destruct (find_rec_chain n (parent uf) (rank uf) i l r Hlp Hp Hi Hc
              (S (length (parent uf))) (accessed uf) ltac:(lia))
    as (tr & Hf & Htr).
  destruct (compress_preserves (parent uf) l r) as [[Hlen' Hcl'] Hpres];
    [by split|done|done|by intros x Hx; eapply chain_suffix_root|].
  exists l, r, (mkUF (compress (parent uf) l r) (rank uf) (tr ++ accessed uf)).
  assert (Hinv' : uf_inv n (mkUF (compress (parent uf) l r) (rank uf)
                               (tr ++ accessed uf))).
  { split; simpl; [done|apply Hinv|done| |].
    - intros x Hx. destruct (decide (x ∈ l)) as [Hin|Hnin].
      + rewrite (pfun_compress_in n) by done. intros Hne.
        destruct (chain_rank n uf i l r Hinv Hi Hc) as [Hlt _]. auto.
      + rewrite (pfun_compress_out n) by done. by apply (inv_rank_up _ _ Hinv).
    - apply Forall_app. split; [done|apply Hinv]. }
  assert (Hfind : find i uf = Ok (r, mkUF (compress (parent uf) l r) (rank uf)
                                        (tr ++ accessed uf))).
  { unfold find. destruct uf as [p rk acc]. exact Hf. }
  assert (Hsame : same_roots n (parent uf) (compress (parent uf) l r)).
  { intros y s Hy. split; [by apply Hpres|]. intros Hs.
    destruct (root_of_exists n uf y Hinv Hy) as [s' Hs'].
    assert (s = s') as ->; [|done].
    eapply root_of_det; [exact Hs|]. by apply Hpres. }
  by split_and!.
Qed.
End Compression.

Section Union.
Context (n : Z).
Implicit Types (l p rk : list Z) (i j x y r s a b : Z) (uf : UnionFind).

(** Attaching the root [b] under the root [a]. *)
Lemma root_of_link p a b :
  closed_parent n p → in_range n a → in_range n b →
  pfun p a = a → pfun p b = b → a ≠ b →
  ∀ y s, in_range n y → root_of p y s →
    root_of (<[Z.to_nat b := a]> p) y (if decide (s = b) then a else s).
Proof.
  intros [Hlen Hp] Ha Hb Hra Hrb Hab y s Hy [l H].
  assert (Hroot_a : root_of (<[Z.to_nat b := a]> p) a a).
  { apply root_of_root. by rewrite (pfun_insert_ne n). }
  induction H as [i Hroot|i l s Hne H IH].
  - destruct (decide (i = b)) as [->|Hib].
    + apply root_of_step; rewrite (pfun_insert_eq n) by done; done.
    + apply root_of_root. by rewrite (pfun_insert_ne n).
  - assert (i ≠ b) by congruence.
    apply root_of_step; rewrite (pfun_insert_ne n) by done; [done|].
    apply IH. by apply Hp.
Qed.


Lemma same_set_sym p x y : same_set p x y → same_set p y x.
Proof. intros (r & ? & ?). by exists r. Qed.

Lemma same_set_trans p x y z : same_set p x y → same_set p y z → same_set p x z.
Proof.
  intros (r & Hx & Hy) (r' & Hy' & Hz).
  rewrite <- (root_of_det _ _ _ _ Hy Hy') in Hz. by exists r.
Qed.

Lemma same_set_roots p x y rx ry :
  root_of p x rx → root_of p y ry → (same_set p x y ↔ rx = ry).
Proof.
  intros Hx Hy. split.
  - intros (r & Hx' & Hy').
    by rewrite (root_of_det _ _ _ _ Hx Hx'), (root_of_det _ _ _ _ Hy Hy').
  - intros ->. by exists ry.
Qed.

(** [union], step by step. *)
Lemma union_exec uf i j :
  uf_inv n uf → in_range n i → in_range n j →
  ∃ ri rj uf2,
    root_of (parent uf) i ri ∧ root_of (parent uf) j rj ∧
    in_range n ri ∧ in_range n rj ∧
    uf_inv n uf2 ∧ same_roots n (parent uf) (parent uf2) ∧
    rank uf2 = rank uf ∧
    if decide (ri = rj) then union i j uf = Ok (false, uf2)
    else
      let '(a, b) := if decide (pfun (rank uf) ri < pfun (rank uf) rj)
                     then (rj, ri) else (ri, rj) in
      ∃ tr, union i j uf = Ok (true, linked uf2 a b (tr ++ accessed uf2))
            ∧ Forall (in_range n) tr.
Proof.
  intros Hinv Hi Hj.
  destruct (find_spec n uf i Hinv Hi)
    as (l1 & ri & uf1 & Hf1 & Hc1 & Hp1 & Hrk1 & Hri & Hinv1 & Hsr1).
  destruct (find_spec n uf1 j Hinv1 Hj)
    as (l2 & rj & uf2 & Hf2 & Hc2 & Hp2 & Hrk2 & Hrj & Hinv2 & Hsr2).
  exists ri, rj, uf2.
  assert (Hsr : same_roots n (parent uf) (parent uf2)).
  { intros y s Hy. rewrite (Hsr1 y s Hy). apply Hsr2, Hy. }
  assert (Hrk : rank uf2 = rank uf) by congruence.
  split_and!; try done.
  { by exists l1. }
  { apply Hsr1; [done|]. by exists l2. }
  unfold union, bind. rewrite Hf1, Hf2.
  destruct (decide (ri = rj)) as [Heq|Hne].
  { destruct (decide (ri ≠ rj)); done. }
  destruct (decide (ri ≠ rj)) as [_|?]; [|done].
  pose proof (inv_len_rank _ _ Hinv2) as Hlr.
  pose proof (inv_len_parent _ _ Hinv2) as Hlp.
  rewrite (rank_get_ok n) by done. simpl.
  rewrite (rank_get_ok n) by done. simpl.
  rewrite <- Hrk.
  assert (Hgen : ∀ a b acc, in_range n a → in_range n b → Forall (in_range n) acc →
    ∃ tr,
      (parent_set b a;;;
       ri' <- rank_get a;;
       rj' <- rank_get b;;
       (if decide (ri' = rj') then r <- rank_get a;; rank_set a (r + 1)
        else ret tt);;; ret true)
        (mkUF (parent uf2) (rank uf2) (acc ++ accessed uf2))
      = Ok (true, linked uf2 a b (tr ++ accessed uf2))
      ∧ Forall (in_range n) tr).
  { intros a b acc Ha Hb Hacc. unfold bind, linked.
    rewrite (parent_set_ok n) by done. simpl.
    rewrite (rank_get_ok n) by done. simpl.
    rewrite (rank_get_ok n) by done. simpl.
    destruct (decide (pfun (rank uf2) a = pfun (rank uf2) b)).
    - rewrite (rank_get_ok n) by done. simpl.
      rewrite (rank_set_ok n) by done. simpl.
      exists (a :: a :: b :: a :: b :: acc). split; [done|].
      by repeat (apply Forall_cons_2; [done|]).
    - exists (b :: a :: b :: acc). split; [done|].
      by repeat (apply Forall_cons_2; [done|]). }
  destruct (decide (pfun (rank uf2) ri < pfun (rank uf2) rj)).
  - apply (Hgen rj ri [rj; ri]); try done. by repeat apply Forall_cons_2.
  - apply (Hgen ri rj [rj; ri]); try done. by repeat apply Forall_cons_2.
Qed.
End Union.

Section UnionSpec.
Context (n : Z).
Implicit Types (l p rk : list Z) (i j x y r s a b : Z) (uf : UnionFind).

Lemma linked_inv uf a b acc :
  uf_inv n uf → in_range n a → in_range n b →
  pfun (parent uf) a = a → pfun (parent uf) b = b → a ≠ b →
  pfun (rank uf) b ≤ pfun (rank uf) a →
  Forall (in_range n) acc →
  uf_inv n (linked uf a b acc).
Proof.
  intros Hinv Ha Hb Hra Hrb Hab Hle Hacc.
  pose proof (inv_len_rank _ _ Hinv) as Hlr.
  pose proof (inv_len_parent _ _ Hinv) as Hlp.
  assert (Hrk' : ∀ x, in_range n x →
    pfun (rank (linked uf a b acc)) x
    = if decide (x = a) then
        (if decide (pfun (rank uf) a = pfun (rank uf) b)
         then pfun (rank uf) a + 1 else pfun (rank uf) a)
      else pfun (rank uf) x).
  { intros x Hx. unfold linked. simpl.
    destruct (decide (pfun (rank uf) a = pfun (rank uf) b)).
    - destruct (decide (x = a)) as [->|].
      + by rewrite (pfun_insert_eq n).
      + by rewrite (pfun_insert_ne n).
    - by destruct (decide (x = a)) as [->|]. }
  split.
  - simpl. by rewrite length_insert.
  - simpl. destruct (decide _); [by rewrite length_insert|done].
  - apply (closed_parent_insert n); [by apply uf_inv_closed|done..].
  - intros x Hx.
    assert (Hpx : in_range n (pfun (parent (linked uf a b acc)) x)).
    { apply (closed_parent_insert n); [by apply uf_inv_closed|done..]. }
    rewrite !Hrk' by done. revert Hpx. simpl.
    destruct (decide (x = b)) as [->|Hxb].
    + rewrite (pfun_insert_eq n) by done. intros _ _.
      rewrite decide_False, decide_True by done.
      destruct (decide _); lia.
    + rewrite (pfun_insert_ne n) by done. intros Hpx Hne.
      pose proof (inv_rank_up _ _ Hinv x Hx Hne) as Hup.
      assert (x ≠ a) by congruence. rewrite decide_False by done.
      destruct (decide (pfun (parent uf) x = a)) as [Heq|];
        [rewrite Heq in Hup; destruct (decide _); lia|lia].
  - done.
Qed.

(** Specification of [union]: it links exactly when the two arguments
    had different roots, and merges exactly their two sets. *)
Lemma union_spec uf i j :
  uf_inv n uf → in_range n i → in_range n j →
  ∃ (merged : bool) uf',
    union i j uf = Ok (merged, uf') ∧
    uf_inv n uf' ∧
    (merged = true ↔ ¬ same_set (parent uf) i j) ∧
    ∀ x y, in_range n x → in_range n y →
      (same_set (parent uf') x y ↔
         same_set (parent uf) x y
         ∨ (same_set (parent uf) x i ∧ same_set (parent uf) j y)
         ∨ (same_set (parent uf) x j ∧ same_set (parent uf) i y)).
Proof.
  intros Hinv Hi Hj.
  destruct (union_exec n uf i j Hinv Hi Hj)
    as (ri & rj & uf2 & Hri & Hrj & Hiri & Hirj & Hinv2 & Hsr & Hrk & Hex).
  pose proof (same_set_roots _ _ _ _ _ Hri Hrj) as Hij.
  destruct (decide (ri = rj)) as [Heq|Hne].
  - exists false, uf2. split_and!; [done..| |].
    + split; [done|]. intros H. destruct H. by apply Hij.
    + intros x y Hx Hy. rewrite <- (same_roots_same_set n _ _ x y Hsr) by done.
      apply Hij in Heq.
      split; [tauto|]. intros [H|[[H1 H2]|[H1 H2]]]; [done| |].
      * exact (same_set_trans _ _ _ _ H1 (same_set_trans _ _ _ _ Heq H2)).
      * exact (same_set_trans _ _ _ _ H1
                 (same_set_trans _ _ _ _ (same_set_sym _ _ _ Heq) H2)).
  - (* the linked state, whichever root goes below *)
    assert (Hlink : ∀ a b acc,
      ((a = ri ∧ b = rj) ∨ (a = rj ∧ b = ri)) →
      pfun (rank uf2) b ≤ pfun (rank uf2) a →
      Forall (in_range n) acc →
      uf_inv n (linked uf2 a b acc) ∧
      ∀ x y, in_range n x → in_range n y →
        (same_set (parent (linked uf2 a b acc)) x y ↔
           same_set (parent uf) x y
           ∨ (same_set (parent uf) x i ∧ same_set (parent uf) j y)
           ∨ (same_set (parent uf) x j ∧ same_set (parent uf) i y))).
    { intros a b acc Hab Hle Hacc.
      assert (Ha : in_range n a) by (destruct Hab as [[-> _]|[-> _]]; done).
      assert (Hb : in_range n b) by (destruct Hab as [[_ ->]|[_ ->]]; done).
      assert (Hra : pfun (parent uf2) a = a).
      { apply (root_of_is_root _ a). apply Hsr; [done|].
        apply root_of_root.
        destruct Hab as [[-> _]|[-> _]]; by eapply root_of_is_root. }
      assert (Hrb : pfun (parent uf2) b = b).
      { apply (root_of_is_root _ b). apply Hsr; [done|].
        apply root_of_root.
        destruct Hab as [[_ ->]|[_ ->]]; by eapply root_of_is_root. }
      assert (Hneq : a ≠ b) by (destruct Hab as [[-> ->]|[-> ->]]; congruence).
      split; [by apply linked_inv|].
      intros x y Hx Hy.
      destruct (root_of_exists n uf x Hinv Hx) as [sx Hsx].
      destruct (root_of_exists n uf y Hinv Hy) as [sy Hsy].
      pose proof (root_of_link n (parent uf2) a b (uf_inv_closed n _ Hinv2)
                    Ha Hb Hra Hrb Hneq) as Hl.
      pose proof (Hl x sx Hx (proj1 (Hsr x sx Hx) Hsx)) as Hx3.
      pose proof (Hl y sy Hy (proj1 (Hsr y sy Hy) Hsy)) as Hy3.
      rewrite (same_set_roots _ _ _ _ _ Hx3 Hy3).
      rewrite (same_set_roots _ _ _ _ _ Hsx Hsy).
      rewrite (same_set_roots _ _ _ _ _ Hsx Hri).
      rewrite (same_set_roots _ _ _ _ _ Hsx Hrj).
      rewrite (same_set_roots _ _ _ _ _ Hrj Hsy).
      rewrite (same_set_roots _ _ _ _ _ Hri Hsy).
      simpl. clear -Hab Hne.
      destruct Hab as [[-> ->]|[-> ->]];
        repeat case_decide; subst; intuition congruence. }
    assert (Htrue : (true = true ↔ ¬ same_set (parent uf) i j)).
    { split; [|done]. intros _ H. by apply Hne, Hij. }
    destruct (decide (pfun (rank uf) ri < pfun (rank uf) rj)) as [Hlt|Hge];
      destruct Hex as (tr & Hex & Htr).
    + destruct (Hlink rj ri (tr ++ accessed uf2)) as [Hinv' Hsame];
        [tauto|rewrite Hrk; lia|apply Forall_app; split; [done|apply Hinv2]|].
      exists true, (linked uf2 rj ri (tr ++ accessed uf2)). done.
    + destruct (Hlink ri rj (tr ++ accessed uf2)) as [Hinv' Hsame];
        [tauto|rewrite Hrk; lia|apply Forall_app; split; [done|apply Hinv2]|].
      exists true, (linked uf2 ri rj (tr ++ accessed uf2)). done.
Qed.
End UnionSpec.

Section Initial.
Context (n : Z).
Implicit Types (l p rk : list Z) (i j x y r s : Z) (uf : UnionFind).
Implicit Types (L P : list (Z * Z)) (es : list edge).

Lemma pfun_init x : in_range n x → pfun (parent (UnionFind_init n)) x = x.
Proof.
  intros [? ?]. unfold pfun. simpl. rewrite lookup_total_seqZ_lt by lia. lia.
Qed.

Lemma init_inv : uf_inv n (UnionFind_init n).
Proof.
  split.
  - simpl. apply length_seqZ.
  - simpl. apply length_replicate.
  - intros x Hx. by rewrite pfun_init.
  - intros x Hx Hne. by rewrite pfun_init in Hne.
  - constructor.
Qed.

Lemma init_represents : represents n (UnionFind_init n) [].
Proof.
  intros x y Hx Hy. rewrite conn_nil.
  rewrite (same_set_roots _ x y x y);
    [done|apply root_of_root; by apply pfun_init..].
Qed.

Lemma reachable_inv uf : reachable n uf → uf_inv n uf.
Proof.
  induction 1 as [|uf i r uf' _ IH Hi Hf|uf i j b uf' _ IH Hi Hj Hu].
  - apply init_inv.
  - destruct (find_spec n uf i IH Hi) as (l & r' & uf'' & Hf' & _ & _ & _ & _ & Hinv & _).
    congruence.
  - destruct (union_spec n uf i j IH Hi Hj) as (b' & uf'' & Hu' & Hinv & _).
    congruence.
Qed.

Lemma represents_ext uf L L' :
  (∀ x y, conn L x y ↔ conn L' x y) → represents n uf L → represents n uf L'.
Proof. intros H Hr x y Hx Hy. by rewrite <- H; apply Hr. Qed.

Lemma union_represents uf i j L :
  uf_inv n uf → in_range n i → in_range n j → represents n uf L →
  ∃ (merged : bool) uf',
    union i j uf = Ok (merged, uf') ∧ uf_inv n uf' ∧
    represents n uf' ((i, j) :: L) ∧
    (merged = true ↔ ¬ conn L i j).
Proof.
  intros Hinv Hi Hj Hrep.
  destruct (union_spec n uf i j Hinv Hi Hj) as (m & uf' & Hu & Hinv' & Hm & Hsame).
  exists m, uf'. split_and!; [done..| |].
  - intros x y Hx Hy. rewrite (Hsame x y Hx Hy), conn_cons.
    by rewrite (Hrep x y Hx Hy), (Hrep x i Hx Hi), (Hrep j y Hj Hy),
      (Hrep x j Hx Hj), (Hrep i y Hi Hy).
  - by rewrite Hm, (Hrep i j Hi Hj).
Qed.
End Initial.

(** ** The recursion depth of [find] *)

Section Depth.
Implicit Types (p rk acc : list Z) (i j : Z) (cs : list nat) (d : nat).

Lemma py_getitem_step p i c j :
  py_index (length p) i = Some c → p !! c = Some j → py_getitem p i = Ok j.
Proof. intros Hc Hj. unfold py_getitem. by rewrite Hc, Hj. Qed.

Lemma py_getitem_inv p i j :
  py_getitem p i = Ok j →
  ∃ c, py_index (length p) i = Some c ∧ p !! c = Some j.
Proof.
  unfold py_getitem. destruct (py_index (length p) i) as [c|]; [|done].
  destruct (p !! c) as [x|] eqn:Hx; [|done]. intros [= ->]. eauto.
Qed.

Lemma py_index_lt len i c : py_index len i = Some c → (c < len)%nat.
Proof.
  unfold py_index. repeat case_decide; [| |done]; intros [= <-]; lia.
Qed.

Lemma rchain_det p i cs cs' : rchain p i cs → rchain p i cs' → cs = cs'.
Proof.
  intros H. revert cs'.
  induction H as [i Hstop|i c j cs Hc Hj Hne _ IH]; intros cs' H'.
  - inversion H' as [|? c' j' ? Hc' Hj' Hne']; subst; [done|].
    destruct Hne'. apply Hstop. by eapply py_getitem_step.
  - inversion H' as [? Hstop|? c' j' cs'' Hc' Hj' Hne' H'']; subst.
    + destruct Hne. apply Hstop. by eapply py_getitem_step.
    + assert (c' = c) as -> by congruence.
      assert (j' = j) as -> by congruence.
      f_equal. by apply IH.
Qed.

Lemma rchain_from_position p i cs c :
  rchain p i cs → c ∈ cs →
  ∃ pre suf j, cs = pre ++ c :: suf ∧ p !! c = Some j ∧ rchain p j suf.
Proof.
  induction 1 as [|i c' j cs Hc Hj Hne H IH]; [by intros ?%elem_of_nil|].
  intros [->|Hin]%elem_of_cons.
  - by exists [], cs, j.
  - destruct (IH Hin) as (pre & suf & j' & -> & Hj' & H').
    by exists (c' :: pre), suf, j'.
Qed.

(** The descent never comes back to a position. *)
Lemma rchain_NoDup p i cs : rchain p i cs → NoDup cs.
Proof.
  induction 1 as [|i c j cs Hc Hj Hne H IH]; [constructor|].
  constructor; [|done]. intros Hin.
  destruct (rchain_from_position _ _ _ _ H Hin) as (pre & suf & j' & Heq & Hj' & H').
  assert (j' = j) as -> by congruence.
  pose proof (rchain_det _ _ _ _ H H') as Hcs.
  rewrite Hcs in Heq at 1. apply (f_equal length) in Heq.
  rewrite length_app in Heq. simpl in Heq. lia.
Qed.

Lemma rchain_positions p i cs : rchain p i cs → Forall (λ c, (c < length p)%nat) cs.
Proof.
  induction 1 as [|i c j cs Hc Hj Hne H IH]; constructor; [|done].
  by eapply py_index_lt.
Qed.

Lemma rchain_length p i cs : rchain p i cs → (length cs ≤ length p)%nat.
Proof.
  intros H. rewrite <- (length_seq (length p) 0%nat).
  apply submseteq_length, NoDup_submseteq; [by eapply rchain_NoDup|].
  intros c Hc. pose proof (rchain_positions _ _ _ H) as Hall.
  rewrite Forall_forall in Hall. apply elem_of_seq. specialize (Hall c Hc). lia.
Qed.

(** Any two depths beyond the length of the descent give the same
    outcome. *)
Lemma find_rec_depth_irrelevant p rk i cs :
  rchain p i cs →
  ∀ d d' acc, (length cs < d)%nat → (length cs < d')%nat →
    find_rec d i (mkUF p rk acc) = find_rec d' i (mkUF p rk acc).
Proof.
  induction 1 as [i Hstop|i c j cs Hc Hj Hne H IH]; intros d d' acc Hd Hd';
    (destruct d as [|d]; [simpl in Hd; lia|]);
    (destruct d' as [|d']; [simpl in Hd'; lia|]);
    simpl; unfold bind, parent_get; simpl.
  - destruct (py_getitem p i) as [j|e] eqn:Hg; [|done].
    rewrite (Hstop j eq_refl). by rewrite !decide_False by (intros ?; congruence).
  - rewrite (py_getitem_step _ _ _ _ Hc Hj). rewrite !decide_True by done.
    simpl. rewrite (py_getitem_step _ _ _ _ Hc Hj).
    simpl in Hd, Hd'. by rewrite (IH d d' (i :: i :: acc)) by lia.
Qed.

(** An outcome other than [RecursionError] comes with a descent shorter
    than the depth. *)
Lemma find_rec_rchain d :
  ∀ i p rk acc,
    find_rec d i (mkUF p rk acc) ≠ Raise RecursionError →
    ∃ cs, rchain p i cs ∧ (length cs < d)%nat.
Proof.
  induction d as [|d IH]; intros i p rk acc Hres; [done|].
  destruct (py_getitem p i) as [j|e] eqn:Hg.
  - destruct (decide (j = i)) as [->|Hne].
    + exists []. split; [|simpl; lia]. constructor. intros j Hj. congruence.
    + destruct (py_getitem_inv _ _ _ Hg) as (c & Hc & Hj).
      destruct (IH j p rk (i :: i :: acc)) as (cs & Hcs & Hlen).
      { intros Hrec. apply Hres. simpl. unfold bind, parent_get. simpl.
        rewrite Hg. rewrite decide_True by done. simpl. rewrite Hg.
        by rewrite Hrec. }
      exists (c :: cs). split; [by econstructor|simpl; lia].
  - exists []. split; [|simpl; lia]. constructor. intros j Hj. congruence.
Qed.

(** The depth that [find] allows is enough: whenever some depth gives an
    outcome other than [RecursionError], [find] gives that outcome. *)
Lemma find_depth_adequate d i uf :
  find_rec d i uf ≠ Raise RecursionError → find i uf = find_rec d i uf.
Proof.
  destruct uf as [p rk acc]. intros Hres.
  destruct (find_rec_rchain d i p rk acc Hres) as (cs & Hcs & Hlen).
  pose proof (rchain_length _ _ _ Hcs).
  unfold find. cbn [parent].
  apply (find_rec_depth_irrelevant p rk i cs Hcs); [lia|done].
Qed.
End Depth.

(** ** The loop of [run_kruskal] *)

Section Sorting.
Implicit Types (e f : edge) (es l : list edge).

Lemma insert_by_weight_perm e l : insert_by_weight e l ≡ₚ e :: l.
Proof.
  induction l as [|f l IH]; simpl; [done|].
  case_decide; [done|]. rewrite IH. apply perm_swap.
Qed.

Lemma sorted_by_weight_perm es : sorted_by_weight es ≡ₚ es.
Proof.
  induction es as [|e es IH]; simpl; [done|].
  by rewrite insert_by_weight_perm, IH.
Qed.

Lemma insert_by_weight_ascending e l :
  ascending l → ascending (insert_by_weight e l).
Proof.
  induction l as [|f l IH]; simpl; [intros _; split; [by intros ? ?%elem_of_nil|done]|].
  intros [Hf Hl]. case_decide as Hle.
  - split; [|by split]. intros g [->|Hg]%elem_of_cons; [done|].
    specialize (Hf g Hg). lia.
  - split; [|by apply IH]. intros g Hg.
    rewrite insert_by_weight_perm in Hg.
    apply elem_of_cons in Hg as [->|Hg]; [lia|auto].
Qed.

Lemma sorted_by_weight_ascending es : ascending (sorted_by_weight es).
Proof.
  induction es as [|e es IH]; simpl; [done|]. by apply insert_by_weight_ascending.
Qed.
End Sorting.

Section KruskalLoop.
Context (n : Z).
Implicit Types (uf : UnionFind) (P : list (Z * Z)) (es : list edge).

Lemma kruskal_loop_spec es :
  ∀ uf P acc cnt,
    uf_inv n uf → represents n uf P →
    (∀ e, e ∈ es → in_range n (src e) ∧ in_range n (dst e)) →
    ascending es →
    ∃ w c uf',
      kruskal_loop es acc cnt uf = Ok ((acc + w, cnt + c), uf') ∧
      uf_inv n uf' ∧
      min_basis (λ e, e ∈ es) P w.
Proof.
  induction es as [|e es IH]; intros uf P acc cnt Hinv Hrep Hrange Hasc.
  - exists 0, 0, uf. split_and!; [simpl; unfold ret; do 3 f_equal; lia|done|].
    apply min_basis_done. by intros e ?%elem_of_nil.
  - destruct Hasc as [Hlight Hasc].
    destruct (Hrange e) as [Hu Hv]; [by left|].
    assert (Hrange' : ∀ f, f ∈ es → in_range n (src f) ∧ in_range n (dst f)).
    { intros f Hf. apply Hrange. by right. }
    destruct (union_represents n uf (src e) (dst e) P Hinv Hu Hv Hrep)
      as (m & uf1 & Hun & Hinv1 & Hrep1 & Hm).
    destruct e as [[u v] w]. simpl. unfold bind.
    change (union u v uf) with (union (src (u, v, w)) (dst (u, v, w)) uf).
    rewrite Hun. set (e := (u, v, w)) in *.
    destruct m.
    + assert (Hne : ¬ conn P (src e) (dst e)) by (by apply Hm).
      destruct (IH uf1 (ends e :: P) (acc + w) (cnt + 1) Hinv1 Hrep1 Hrange' Hasc)
        as (w' & c' & uf' & Hk & Hinv' & Hmin).
      exists (weight e + w'), (1 + c'), uf'. split_and!; [|done|].
      * rewrite Hk. unfold e, weight. simpl. do 3 f_equal; lia.
      * eapply (min_basis_pick_lightest _ (λ f, f ∈ es)); [by left|done| | |done].
        -- split; [by right|]. intros f [->|Hf]%elem_of_cons; [|by left].
           right. apply conn_cons_head.
        -- intros f [->|Hf]%elem_of_cons; [lia|auto].
    + assert (Hc : conn P (src e) (dst e)).
      { destruct (conn_dec P (src e) (dst e)) as [|Hn]; [done|].
        apply Hm in Hn. done. }
      assert (Hrep' : represents n uf1 P).
      { eapply represents_ext; [|exact Hrep1]. intros x y.
        split; [|apply conn_cons_weaken].
        apply conn_cons_sub; auto. }
      destruct (IH uf1 P acc cnt Hinv1 Hrep' Hrange' Hasc)
        as (w' & c' & uf' & Hk & Hinv' & Hmin).
      exists w', c', uf'. split_and!; [done..|].
      eapply (min_basis_skip _ (λ f, f ∈ es) _ e); [done|by right| |done].
      intros f [->|Hf]%elem_of_cons; auto.
Qed.
End KruskalLoop.

(** ** The loop of [run_prim] *)

Section Heap.
Implicit Types (pq nbrs : list (Z * Z)) (x y : Z * Z) (V : gset Z).

Lemma entry_le_total x y : entry_le x y ∨ entry_le y x.
Proof. unfold entry_le. lia. Qed.

Lemma entry_le_trans x y z : entry_le x y → entry_le y z → entry_le x z.
Proof. unfold entry_le. lia. Qed.

Lemma entry_le_weight x y : entry_le x y → x.1 ≤ y.1.
Proof. unfold entry_le. lia. Qed.

Lemma heappush_perm pq x : heappush pq x ≡ₚ x :: pq.
Proof.
  induction pq as [|y pq IH]; simpl; [done|].
  case_decide; [done|]. rewrite IH. apply perm_swap.
Qed.

Lemma heappush_sorted pq x : pq_sorted pq → pq_sorted (heappush pq x).
Proof.
  induction pq as [|y pq IH]; simpl; [intros _; split; [by intros ? ?%elem_of_nil|done]|].
  intros [Hy Hpq]. case_decide as Hle.
  - split; [|by split]. intros z [->|Hz]%elem_of_cons; [done|].
    eapply entry_le_trans; eauto.
  - split; [|by apply IH]. intros z Hz. rewrite heappush_perm in Hz.
    apply elem_of_cons in Hz as [->|Hz]; [|auto].
    by destruct (entry_le_total x y).
Qed.

Lemma push_neighbors_elem V nbrs pq x :
  x ∈ push_neighbors V nbrs pq ↔ x ∈ pq ∨ (x ∈ nbrs ∧ x.2 ∉ V).
Proof.
  unfold push_neighbors. revert pq.
  induction nbrs as [|[w v] nbrs IH]; intros pq; simpl.
  - rewrite elem_of_nil. tauto.
  - rewrite IH, elem_of_cons. case_decide as Hv.
    + rewrite heappush_perm, elem_of_cons. split; [|tauto].
      intros [[->|?]|?]; tauto.
    + split; [tauto|]. intros [?|[[->|?] ?]]; [tauto| |tauto]. done.
Qed.

Lemma push_neighbors_sorted V nbrs pq :
  pq_sorted pq → pq_sorted (push_neighbors V nbrs pq).
Proof.
  unfold push_neighbors. revert pq.
  induction nbrs as [|[w v] nbrs IH]; intros pq Hpq; simpl; [done|].
  apply IH. case_decide; [by apply heappush_sorted|done].
Qed.

Lemma push_neighbors_length V nbrs pq :
  (length (push_neighbors V nbrs pq) ≤ length pq + length nbrs)%nat.
Proof.
  unfold push_neighbors. revert pq.
  induction nbrs as [|[w v] nbrs IH]; intros pq; simpl; [lia|].
  etrans; [apply IH|]. case_decide; [|lia].
  rewrite heappush_perm. simpl. lia.
Qed.
End Heap.

Section Visiting.
Implicit Types (V : gset Z) (u x y : Z).

Lemma visit_old V u x : x ∈ V → x ∈ V ∪ {[u]}.
Proof. intros. apply elem_of_union. by left. Qed.

Lemma visit_new V u : u ∈ V ∪ {[u]}.
Proof. apply elem_of_union. right. by apply elem_of_singleton. Qed.

Lemma visit_inv V u x : x ∈ V ∪ {[u]} → x ∈ V ∨ x = u.
Proof. rewrite elem_of_union, elem_of_singleton. tauto. Qed.

Lemma visit_not V u y : y ∉ V ∪ {[u]} → (y ∉ V) ∧ (y ≠ u).
Proof. rewrite elem_of_union, elem_of_singleton. tauto. Qed.
End Visiting.

Section Adjacency.
Implicit Types (adj : gmap Z (list (Z * Z))) (u k : Z) (V : gset Z).

Lemma adj_getitem_fst adj u : (adj_getitem adj u).1 = adj_list adj u.
Proof. unfold adj_getitem, adj_list. by destruct (adj !! u). Qed.

Lemma adj_getitem_lookup adj u k :
  (adj_getitem adj u).2 !! k
  = match adj !! k with
    | Some l => Some l
    | None => if decide (k = u) then Some [] else None
    end.
Proof.
  unfold adj_getitem. destruct (adj !! u) as [l|] eqn:Hu; simpl.
  - destruct (adj !! k) eqn:Hk; [done|]. case_decide; [congruence|done].
  - destruct (decide (k = u)) as [->|Hne].
    + by rewrite lookup_insert_eq, Hu.
    + rewrite lookup_insert_ne by done. by destruct (adj !! k).
Qed.

Lemma adj_getitem_list adj u k :
  adj_list (adj_getitem adj u).2 k = adj_list adj k.
Proof.
  unfold adj_list. rewrite adj_getitem_lookup.
  destruct (adj !! k); [done|]. by case_decide.
Qed.

Lemma pending_empty adj : pending adj ∅ = adj_entries adj.
Proof. done. Qed.

Lemma pending_fresh_key (l : list (Z * list (Z * Z))) u V :
  u ∉ l.*1 →
  sum_list_with (λ kv, if decide (kv.1 ∈ V ∪ {[u]}) then 0%nat else length kv.2) l
  = sum_list_with (λ kv, if decide (kv.1 ∈ V) then 0%nat else length kv.2) l.
Proof.
  induction l as [|[k x] l IH]; simpl; [done|].
  rewrite not_elem_of_cons. intros [Hk Hl]. rewrite IH by done. f_equal.
  destruct (decide (k ∈ V)).
  - rewrite decide_True; [done|by apply visit_old].
  - rewrite decide_False; [done|]. intros [?|?]%visit_inv; congruence.
Qed.

(** Visiting [u] takes its entries out of the pending ones. *)
Lemma pending_visit adj u V :
  u ∉ V →
  (pending (adj_getitem adj u).2 (V ∪ {[u]}) + length (adj_list adj u)
   = pending adj V)%nat.
Proof.
  intros Hu. unfold pending, adj_getitem, adj_list.
  destruct (adj !! u) as [l|] eqn:Hlook; simpl.
  - rewrite <- (map_to_list_delete adj u l Hlook). simpl.
    rewrite decide_True by apply visit_new. rewrite decide_False by done.
    rewrite pending_fresh_key; [lia|].
    intros Hin. apply list_elem_of_fmap in Hin as ([k x] & Hk & Hin).
    simpl in Hk. subst k. apply elem_of_map_to_list in Hin.
    by rewrite lookup_delete_eq in Hin.
  - rewrite map_to_list_insert by done. simpl.
    rewrite decide_True by apply visit_new.
    rewrite pending_fresh_key; [lia|].
    intros Hin. apply list_elem_of_fmap in Hin as ([k x] & Hk & Hin).
    simpl in Hk. subst k. apply elem_of_map_to_list in Hin. congruence.
Qed.
End Adjacency.

Section Termination.
Implicit Types (st : prim_state) (fuel : nat).

(** [prim_step], by cases on the queue. *)
Lemma prim_step_eq num_nodes st :
  prim_step num_nodes st
  = match pq st with
    | [] => None
    | (w, u) :: pq' =>
        if decide (Z.of_nat (size (visited st)) < num_nodes) then
          if decide (u ∈ visited st) then
            Some (mkPrim pq' (visited st) (mst_weight st) (adj st))
          else
            let visited' := visited st ∪ {[u]} in
            let mst_weight' := mst_weight st + w in
            let '(nbrs, adj') := adj_getitem (adj st) u in
            Some (mkPrim (push_neighbors visited' nbrs pq') visited'
                         mst_weight' adj')
        else None
    end.
Proof.
  unfold prim_step. destruct (pq st) as [|[w u] pq'].
  - by rewrite decide_False by (by intros [? _]).
  - simpl. destruct (decide (Z.of_nat (size (visited st)) < num_nodes)).
    + by rewrite decide_True by done.
    + by rewrite decide_False by (by intros [_ ?]).
Qed.

Lemma prim_step_measure num_nodes st st' :
  prim_step num_nodes st = Some st' →
  (prim_measure st' < prim_measure st)%nat.
Proof.
  rewrite prim_step_eq. unfold prim_measure.
  destruct st as [q V m a]. simpl.
  destruct q as [|[w u] q']; [done|].
  case_decide; [|done]. case_decide as Hu.
  - intros [= <-]. simpl. lia.
  - pose proof (adj_getitem_fst a u) as H1.
    pose proof (pending_visit a u V Hu) as H2.
    destruct (adj_getitem a u) as [nbrs a']. simpl in *. subst nbrs.
    intros [= <-]. simpl.
    pose proof (push_neighbors_length (V ∪ {[u]}) (adj_list a u) q'). lia.
Qed.

Lemma prim_loop_terminates num_nodes fuel st :
  (prim_measure st < fuel)%nat → ∃ st', prim_loop fuel num_nodes st = Some st'.
Proof.
  revert st. induction fuel as [|fuel IH]; intros st Hm; [lia|].
  simpl. destruct (prim_step num_nodes st) as [st1|] eqn:Hstep; [|by eexists].
  apply IH. apply prim_step_measure in Hstep. lia.
Qed.

(** The loop of [run_prim] always ends within its budget. *)
Lemma prim_final_returns num_nodes adj0 :
  ∃ st, prim_final num_nodes adj0 = Some st.
Proof.
  apply prim_loop_terminates. unfold prim_measure. simpl.
  rewrite pending_empty. lia.
Qed.
End Termination.

Section PrimInvariant.
Context (N : Z) (edges : list edge).
Hypothesis Hwf : wf_edges N edges.
Implicit Types (st : prim_state) (P : list (Z * Z)).

Lemma edge_conn e : e ∈ edges → conn (ends <$> edges) (src e) (dst e).
Proof.
  intros He. apply conn_edge. left.
  apply list_elem_of_fmap. by exists e.
Qed.

(** An adjacency entry is an edge of the graph, in one direction or the
    other. *)
Lemma adj_entry_edge (a : gmap Z (list (Z * Z))) x y w :
  adj_matches edges a → (w, y) ∈ adj_list a x →
  ∃ e, e ∈ edges ∧ weight e = w ∧
       ((src e = x ∧ dst e = y) ∨ (src e = y ∧ dst e = x)).
Proof.
  intros Ha Hin. apply Ha in Hin as [Hin|Hin].
  - exists (x, y, w). auto.
  - exists (y, x, w). auto.
Qed.

Lemma edge_adj_entry (a : gmap Z (list (Z * Z))) e :
  adj_matches edges a → e ∈ edges →
  (weight e, dst e) ∈ adj_list a (src e) ∧ (weight e, src e) ∈ adj_list a (dst e).
Proof.
  intros Ha He. destruct e as [[u v] w]. split; apply Ha; auto.
Qed.

Lemma prim_step_inv st P st' :
  prim_inv N edges st P → prim_step N st = Some st' → ∃ P', prim_inv N edges st' P'.
Proof.
  intros Hinv. destruct st as [q V m a]. destruct Hinv as
    [Hsorted Hstart Hrange Htree Hinside Hgraph Hqueue Hfront Hadj Hopt].
  simpl in *. rewrite prim_step_eq. simpl.
  destruct q as [|[w u] q']; [done|].
  case_decide as Hsize; [|done]. destruct Hsorted as [Hmin Hsorted].
  case_decide as Hu.
  - (* a stale entry *)
    intros [= <-]. exists P. split; simpl; try done.
    + intros w' y Hin. apply Hqueue. by right.
    + intros x w' y Hx Hin Hy.
      pose proof (Hfront x w' y Hx Hin Hy) as [Heq|?]%elem_of_cons; [|done].
      by injection Heq as -> ->.
  - (* [u] joins the tree *)
    destruct (Hqueue w u) as (x & Hx & Hxu); [by left|].
    destruct (adj_entry_edge a x u w Hadj Hxu) as (e & He & Hwe & Hends).
    pose proof (adj_getitem_fst a u) as Hnb.
    pose proof (adj_getitem_list a u) as Hlist.
    destruct (adj_getitem a u) as [nbrs a']. simpl in Hnb, Hlist. subst nbrs.
    intros [= <-].
    assert (Hsd : (src e ∈ V ∧ dst e = u) ∨ (dst e ∈ V ∧ src e = u)).
    { destruct Hends as [[-> ->]|[-> ->]]; auto. }
    assert (Hxu' : conn (ends e :: P) x u).
    { destruct Hends as [[<- <-]|[<- <-]];
        [apply conn_cons_head|apply conn_sym, conn_cons_head]. }
    exists (ends e :: P). split; simpl.
    + by apply push_neighbors_sorted.
    + by apply visit_old.
    + intros v [Hv| ->]%visit_inv; [by apply Hrange|].
      destruct (Hwf e He). destruct Hends as [[_ <-]|[<- _]]; done.
    + intros v [Hv| ->]%visit_inv.
      * apply conn_cons_weaken, Htree, Hv.
      * eapply conn_trans; [apply conn_cons_weaken, Htree, Hx|done].
    + intros p [->|Hp]%elem_of_cons.
      * simpl. destruct Hsd as [[? ->]|[? ->]];
          split; first [by apply visit_old|apply visit_new].
      * destruct (Hinside p Hp). split; by apply visit_old.
    + intros y z. apply conn_cons_sub; [by apply edge_conn|done].
    + intros w' y [Hin|[Hin Hy]]%push_neighbors_elem.
      * destruct (Hqueue w' y) as (x' & Hx' & Hin'); [by right|].
        exists x'. rewrite Hlist. split; [by apply visit_old|done].
      * exists u. rewrite Hlist. split; [apply visit_new|done].
    + intros x' w' y Hx' Hin Hy. rewrite Hlist in Hin.
      apply push_neighbors_elem.
      apply visit_inv in Hx' as [Hx'| ->]; [|by right].
      left. apply visit_not in Hy as [Hy' Hyu].
      pose proof (Hfront x' w' y Hx' Hin Hy') as [Heq|?]%elem_of_cons; [|done].
      by injection Heq as -> ->.
    + intros x' y w'. rewrite Hlist. apply Hadj.
    + intros w' Hmin'.
      replace (m + w + w') with (m + (weight e + w')) by lia.
      apply Hopt.
      apply (min_basis_pick_cut _ _ (λ z, bool_decide (z ∈ V))); [| | | |done].
      * split; [done|].
        destruct Hsd as [[Hs _]|[Hd Hs]].
        -- apply Hgraph, Htree, Hs.
        -- eapply conn_trans; [apply Hgraph, Htree, Hd|].
           apply conn_sym. by apply edge_conn.
      * unfold crosses. destruct Hsd as [[Hs ->]|[Hd ->]].
        -- rewrite (bool_decide_eq_true_2 _ Hs), (bool_decide_eq_false_2 _ Hu). done.
        -- rewrite (bool_decide_eq_true_2 _ Hd), (bool_decide_eq_false_2 _ Hu). done.
      * intros p Hp. destruct (Hinside p Hp) as [H1 H2].
        by rewrite (bool_decide_eq_true_2 _ H1), (bool_decide_eq_true_2 _ H2).
      * intros f [Hf _] Hcr. rewrite Hwe.
        destruct (edge_adj_entry a f Hadj Hf) as [Hf1 Hf2].
        assert (Hin : (weight f, dst f) ∈ (w, u) :: q' ∨ (weight f, src f) ∈ (w, u) :: q').
        { unfold crosses in Hcr.
          destruct (decide (src f ∈ V)) as [Hs|Hs];
            destruct (decide (dst f ∈ V)) as [Hd|Hd].
          - rewrite (bool_decide_eq_true_2 _ Hs), (bool_decide_eq_true_2 _ Hd) in Hcr.
            by rewrite bool_decide_eq_true_2 in Hcr.
          - left. by apply (Hfront (src f)).
          - right. by apply (Hfront (dst f)).
          - rewrite (bool_decide_eq_false_2 _ Hs), (bool_decide_eq_false_2 _ Hd) in Hcr.
            by rewrite bool_decide_eq_true_2 in Hcr. }
        destruct Hin as [[Heq|Hin]%elem_of_cons|[Heq|Hin]%elem_of_cons].
        -- injection Heq as -> _. lia.
        -- apply (entry_le_weight _ _ (Hmin _ Hin)).
        -- injection Heq as -> _. lia.
        -- apply (entry_le_weight _ _ (Hmin _ Hin)).
Qed.

(** Vertices [1 .. N] that are all distinct: at most [N]. *)
Lemma visited_size_lt (V : gset Z) v :
  (∀ x, x ∈ V → 1 ≤ x ≤ N) → 1 ≤ v ≤ N → v ∉ V → Z.of_nat (size V) < N.
Proof.
  intros HV Hv Hnin.
  assert (Hsub : v :: elements V ⊆+ seqZ 1 N).
  { apply NoDup_submseteq.
    - constructor; [by rewrite elem_of_elements|apply NoDup_elements].
    - intros x [->|Hx%elem_of_elements]%elem_of_cons; apply elem_of_seqZ;
        [lia|]. specialize (HV x Hx). lia. }
  apply submseteq_length in Hsub. rewrite length_seqZ in Hsub.
  simpl in Hsub. unfold size, set_size. simpl. lia.
Qed.

(** When the loop is left, the tree spans the component of vertex 1. *)
Lemma prim_exit_spans st P :
  prim_inv N edges st P → prim_step N st = None →
  ∀ e, in_component 1 edges e → conn P (src e) (dst e).
Proof.
  intros Hinv Hstep.
  assert (Hall : ∀ e, in_component 1 edges e →
                      src e ∈ visited st ∧ dst e ∈ visited st).
  { destruct st as [q V m a]. destruct Hinv as
      [Hsorted Hstart Hrange Htree Hinside Hgraph Hqueue Hfront Hadj Hopt].
    simpl in *. rewrite prim_step_eq in Hstep. simpl in Hstep.
    assert (Hcases : q = [] ∨ ¬ Z.of_nat (size V) < N).
    { destruct q as [|[w u] q']; [by left|]. right.
      case_decide; [|done]. case_decide; [done|].
      by destruct (adj_getitem a u). }
    destruct Hcases as [-> |Hfull].
    - (* the queue is empty: no edge leaves the visited set *)
      assert (Hclosed : ∀ x z, conn (ends <$> edges) x z → x ∈ V → z ∈ V).
      { intros x z. induction 1 as [|x y z Hxy _ IH]; [done|].
        intros Hx. apply IH.
        destruct (decide (y ∈ V)) as [|Hy]; [done|]. exfalso.
        assert (Hin : ∃ w, (w, y) ∈ adj_list a x).
        { destruct Hxy as [Hxy|Hxy];
            apply list_elem_of_fmap in Hxy as (f & Hf & Hin);
            injection Hf as -> ->;
            destruct (edge_adj_entry a f Hadj Hin); eauto. }
        destruct Hin as [w Hin].
        by pose proof (Hfront x w y Hx Hin Hy) as ?%elem_of_nil. }
      intros e [He Hc].
      assert (src e ∈ V) by (by eapply Hclosed).
      split; [done|]. eapply Hclosed; [by apply edge_conn|done].
    - (* every vertex has been visited *)
      assert (Hevery : ∀ v, 1 ≤ v ≤ N → v ∈ V).
      { intros v Hv. destruct (decide (v ∈ V)) as [|Hnin]; [done|].
        destruct Hfull. by eapply visited_size_lt. }
      intros e [He _]. destruct (Hwf e He). split; by apply Hevery. }
  intros e He. destruct (Hall e He) as [Hs Hd].
  eapply conn_trans; [apply conn_sym|]; by apply (pi_tree _ _ _ _ Hinv).
Qed.

Lemma prim_loop_inv fuel st P st' :
  prim_inv N edges st P → prim_loop fuel N st = Some st' →
  ∃ P', prim_inv N edges st' P' ∧ prim_step N st' = None.
Proof.
  revert st P. induction fuel as [|fuel IH]; intros st P Hinv; [done|].
  simpl. destruct (prim_step N st) as [st1|] eqn:Hstep.
  - destruct (prim_step_inv st P st1 Hinv Hstep) as [P1 Hinv1].
    by apply (IH st1 P1).
  - intros [= <-]. by exists P.
Qed.

Lemma prim_final_seeded adj0 :
  1 ≤ N →
  prim_final N adj0 = prim_loop (adj_entries adj0 + 1) N (prim_seeded adj0).
Proof.
  intros HN. unfold prim_final. replace (adj_entries adj0 + 2)%nat
    with (S (adj_entries adj0 + 1)) by lia.
  cbn [prim_loop]. rewrite prim_step_eq. cbn [pq visited mst_weight adj].
  rewrite size_empty. rewrite decide_True by lia.
  rewrite decide_False by (by apply not_elem_of_empty).
  unfold prim_seeded. rewrite <- adj_getitem_fst.
  destruct (adj_getitem adj0 1) as [nbrs a']. simpl.
  by rewrite (left_id_L ∅ (∪)).
Qed.

Lemma prim_seeded_inv adj0 :
  1 ≤ N → adj_matches edges adj0 → prim_inv N edges (prim_seeded adj0) [].
Proof.
  intros HN Hadj.
  assert (Hlist : ∀ k, adj_list (adj_getitem adj0 1).2 k = adj_list adj0 k)
    by apply adj_getitem_list.
  split; simpl.
  - by apply push_neighbors_sorted.
  - by apply elem_of_singleton.
  - intros v ->%elem_of_singleton. lia.
  - intros v ->%elem_of_singleton. apply conn_refl.
  - by intros p ?%elem_of_nil.
  - intros x y ->%conn_nil. apply conn_refl.
  - intros w y [Hin|[Hin Hy]]%push_neighbors_elem; [by apply elem_of_nil in Hin|].
    exists 1. rewrite Hlist. split; [by apply elem_of_singleton|done].
  - intros x w y ->%elem_of_singleton Hin Hy. rewrite Hlist in Hin.
    apply push_neighbors_elem. by right.
  - intros x y w. rewrite Hlist. apply Hadj.
  - intros w' Hmin. by rewrite Z.add_0_l.
Qed.

(** [run_prim] computes the least weight of a spanning tree of the
    component of vertex 1. *)
Lemma prim_final_spec adj0 :
  1 ≤ N → adj_matches edges adj0 →
  ∃ st P,
    prim_final N adj0 = Some st ∧
    prim_inv N edges st P ∧ prim_step N st = None ∧
    min_basis (in_component 1 edges) [] (mst_weight st).
Proof.
  intros HN Hadj.
  destruct (prim_final_returns N adj0) as [st Hst].
  rewrite prim_final_seeded in Hst by done.
  destruct (prim_loop_inv _ _ _ _ (prim_seeded_inv adj0 HN Hadj) Hst)
    as (P & Hinv & Hexit).
  exists st, P. rewrite prim_final_seeded by done. split_and!; [done..|].
  replace (mst_weight st) with (mst_weight st + 0) by lia.
  apply (pi_opt _ _ _ _ Hinv). apply min_basis_done.
  by apply (prim_exit_spans st P).
Qed.
End PrimInvariant.

(** ** What the two routines compute *)

Section Trees.
Context (N : Z) (edges : list edge).
Implicit Types (T : list edge).

Lemma conn_sub (L L' : list (Z * Z)) x y :
  (∀ p, p ∈ L → conn L' p.1 p.2) → conn L x y → conn L' x y.
Proof.
  intros H. induction 1 as [|x y' y [Hxy|Hxy] _ IH]; [apply conn_refl| |].
  - eapply conn_trans; [apply (H _ Hxy)|done].
  - eapply conn_trans; [apply conn_sym, (H _ Hxy)|done].
Qed.

Lemma conn_edges_sub (T : list edge) (L' : list (Z * Z)) x y :
  (∀ e, e ∈ T → conn L' (src e) (dst e)) → conn (ends <$> T) x y → conn L' x y.
Proof.
  intros H. apply conn_sub. intros p (e & -> & He)%list_elem_of_fmap. by apply H.
Qed.

Lemma least_weight_ext (Q Q' : list edge → Prop) w :
  (∀ T, Q T ↔ Q' T) → least_weight Q w → least_weight Q' w.
Proof.
  intros H [(T & HT & <-) Hmin]. split.
  - exists T. by rewrite <- H.
  - intros T' HT'. apply Hmin. by rewrite H.
Qed.

Lemma basis_spanning_forest T :
  basis (λ e, e ∈ edges) [] T ↔ spanning_forest edges T.
Proof.
  split.
  - intros [H1 H2 H3]. split_and!; [done|by apply acyclic_forest_mod|].
    intros u v. apply conn_edges_sub. intros e He.
    specialize (H3 e He). by rewrite app_nil_r in H3.
  - intros (H1 & H2 & H3). split; [done|by apply acyclic_forest_mod|].
    intros e He. rewrite app_nil_r. apply H3, edge_conn, He.
Qed.

Lemma conn_wf_range x y :
  wf_edges N edges → conn (ends <$> edges) x y →
  x = y ∨ (1 ≤ x ≤ N ∧ 1 ≤ y ≤ N).
Proof.
  intros Hwf. induction 1 as [|x y' y Hxy _ IH]; [by left|]. right.
  assert (1 ≤ x ≤ N ∧ 1 ≤ y' ≤ N) as [Hx Hy'].
  { destruct Hxy as [Hxy|Hxy];
      apply list_elem_of_fmap in Hxy as (e & Heq & He);
      injection Heq as -> ->; destruct (Hwf e He); done. }
  destruct IH as [<-|[_ ?]]; done.
Qed.

Lemma spanning_forest_tree T :
  wf_edges N edges → connected N edges →
  spanning_forest edges T ↔ spanning_tree N edges T.
Proof.
  intros Hwf Hconn. split; intros (H1 & H2 & H3); split_and!; try done.
  - intros u v Hu Hv. by apply H3, Hconn.
  - intros u v Huv. destruct (conn_wf_range u v Hwf Huv) as [->|[Hu Hv]];
      [apply conn_refl|by apply H3].
Qed.

Lemma basis_component_tree r T :
  basis (in_component r edges) [] T ↔ component_tree r edges T.
Proof.
  split.
  - intros [H1 H2 H3]. split_and!.
    + intros e He. by destruct (H1 e He).
    + by apply acyclic_forest_mod.
    + intros e He. by destruct (H1 e He).
    + assert (Hgen : ∀ x v, conn (ends <$> edges) x v →
                conn (ends <$> edges) r x → conn (ends <$> T) r x →
                conn (ends <$> T) r v).
      { intros x v. induction 1 as [|x y z Hxy _ IH]; [done|].
        intros Hx HTx.
        assert (Hy : conn (ends <$> edges) r y).
        { eapply conn_trans; [exact Hx|]. by apply conn_edge. }
        apply IH; [done|]. eapply conn_trans; [exact HTx|].
        destruct Hxy as [Hxy|Hxy];
          apply list_elem_of_fmap in Hxy as (e & Heq & He);
          injection Heq as -> ->.
        - specialize (H3 e (conj He Hx)). by rewrite app_nil_r in H3.
        - specialize (H3 e (conj He Hy)). rewrite app_nil_r in H3.
          by apply conn_sym. }
      intros v Hv. apply (Hgen r v Hv); apply conn_refl.
  - intros (H1 & H2 & H3 & H4). split.
    + intros e He. split; [by apply H1|by apply H3].
    + by apply acyclic_forest_mod.
    + intros e [He Hc]. rewrite app_nil_r.
      eapply conn_trans; [apply conn_sym, H4, Hc|].
      apply H4. eapply conn_trans; [exact Hc|by apply edge_conn].
Qed.

Lemma connected_in_component e :
  wf_edges N edges → connected N edges →
  in_component 1 edges e ↔ e ∈ edges.
Proof.
  intros Hwf Hconn. split; [by intros [? _]|]. intros He. split; [done|].
  destruct (Hwf e He) as [? _]. apply Hconn; lia.
Qed.
End Trees.

Section Results.
Implicit Types (N : Z) (edges : list edge).

Lemma wf_edges_in_range N edges :
  wf_edges N edges → ∀ e, e ∈ edges → in_range N (src e) ∧ in_range N (dst e).
Proof. intros Hwf e He. destruct (Hwf e He). unfold in_range. lia. Qed.

(** [run_kruskal] on edges whose endpoints are cells of the structure. *)
Lemma run_kruskal_spec N edges :
  (∀ e, e ∈ edges → in_range N (src e) ∧ in_range N (dst e)) →
  ∃ w c uf',
    kruskal_loop (sorted_by_weight edges) 0 0 (UnionFind_init N)
      = Ok ((w, c), uf') ∧
    uf_inv N uf' ∧
    run_kruskal N edges = Ok w ∧
    min_basis (λ e, e ∈ edges) [] w.
Proof.
  intros Hrange.
  destruct (kruskal_loop_spec N (sorted_by_weight edges) (UnionFind_init N) [] 0 0)
    as (w & c & uf' & Hk & Hinv & Hmin).
  - apply init_inv.
  - apply init_represents.
  - intros e He. apply Hrange. by rewrite <- sorted_by_weight_perm.
  - apply sorted_by_weight_ascending.
  - exists w, c, uf'. rewrite !Z.add_0_l in Hk. split_and!; [done..| |].
    + unfold run_kruskal. by rewrite Hk.
    + eapply min_basis_ext; [|exact Hmin]. intros e. simpl.
      by rewrite sorted_by_weight_perm.
Qed.


Lemma run_prim_final N (adj0 : gmap Z (list (Z * Z))) st :
  prim_final N adj0 = Some st → run_prim N adj0 = Some (mst_weight st, adj st).
Proof. intros H. unfold run_prim. by rewrite H. Qed.

Lemma run_prim_component N edges (adj0 : gmap Z (list (Z * Z))) :
  1 ≤ N → wf_edges N edges → adj_matches edges adj0 →
  ∃ st, prim_final N adj0 = Some st ∧
        least_weight (component_tree 1 edges) (mst_weight st) ∧
        (∀ v, v ∈ visited st → 1 ≤ v ≤ N ∧ conn (ends <$> edges) 1 v) ∧
        (pq st = [] ∨ ¬ Z.of_nat (size (visited st)) < N).
Proof.
  intros HN Hwf Hadj.
  destruct (prim_final_spec N edges Hwf adj0 HN Hadj)
    as (st & P & Hfin & Hinv & Hexit & Hmin).
  exists st. split_and!; [done| | |].
  - eapply least_weight_ext; [|exact Hmin]. apply basis_component_tree.
  - intros v Hv. split; [by apply (pi_range _ _ _ _ Hinv)|].
    by apply (pi_graph _ _ _ _ Hinv), (pi_tree _ _ _ _ Hinv).
  - destruct st as [q V m a]. rewrite prim_step_eq in Hexit. simpl in *.
    destruct q as [|[w u] q']; [by left|]. right.
    case_decide; [|done]. case_decide; [done|].
    by destruct (adj_getitem a u).
Qed.
End Results.

Section Loader.
Implicit Types (a : gmap Z (list (Z * Z))) (u k v w : Z) (x : Z * Z).

Lemma adj_append_list a u x k :
  adj_list (adj_append a u x) k
  = if decide (k = u) then adj_list a u ++ [x] else adj_list a k.
Proof.
  unfold adj_append.
  pose proof (adj_getitem_fst a u) as H1.
  pose proof (adj_getitem_list a u k) as H2.
  destruct (adj_getitem a u) as [l a']. simpl in *. subst l.
  unfold adj_list at 1. destruct (decide (k = u)) as [->|Hne].
  - by rewrite lookup_insert_eq.
  - rewrite lookup_insert_ne by done. exact H2.
Qed.

Lemma adj_append_elem a u x k y :
  y ∈ adj_list (adj_append a u x) k ↔ y ∈ adj_list a k ∨ (k = u ∧ y = x).
Proof.
  rewrite adj_append_list. destruct (decide (k = u)) as [->|Hne].
  - rewrite elem_of_app, list_elem_of_singleton. tauto.
  - tauto.
Qed.

Lemma foldl_adj_matches (es : list edge) a u v w :
  (w, v) ∈ adj_list
    (foldl (λ adj e, adj_append (adj_append adj (src e) (weight e, dst e))
                                (dst e) (weight e, src e)) a es) u
  ↔ (w, v) ∈ adj_list a u ∨ (u, v, w) ∈ es ∨ (v, u, w) ∈ es.
Proof.
  revert a. induction es as [|[[s d] c] es IH]; intros a; simpl.
  - rewrite !elem_of_nil. tauto.
  - rewrite IH, !adj_append_elem, !elem_of_cons. unfold src, dst, weight. simpl.
    split.
    + intros [[[?|[-> [= -> ->]]]|[-> [= -> ->]]]|[?|?]]; tauto.
    + intros [?|[[[= -> -> ->]|?]|[[= -> -> ->]|?]]]; tauto.
Qed.

(** The adjacency that the loader builds matches the edge list. *)
Lemma build_adj_matches (edges : list edge) : adj_matches edges (build_adj edges).
Proof.
  intros u v w. unfold build_adj. rewrite foldl_adj_matches.
  unfold adj_list at 1. rewrite lookup_empty. simpl. rewrite elem_of_nil. tauto.
Qed.
End Loader.

(** ** A spanning forest, component by component *)

Global Instance conn_decision (L : list (Z * Z)) x y : Decision (conn L x y).
Proof.
  revert x y. induction L as [|[a b] L IH]; intros x y.
  - destruct (decide (x = y)) as [->|Hne];
      [left; apply conn_refl|right; by rewrite conn_nil].
  - destruct (IH x y) as [H|H]; [left; by apply conn_cons_weaken|].
    destruct (IH x a) as [Hxa|Hxa], (IH b y) as [Hby|Hby];
      try (left; apply conn_cons; tauto);
      destruct (IH x b) as [Hxb|Hxb], (IH a y) as [Hay|Hay];
      try (left; apply conn_cons; tauto);
      right; rewrite conn_cons; tauto.
Qed.

Section Sides.
Implicit Types (L : list (Z * Z)) (S : list edge) (V : Z → bool).





End Sides.

Section ComponentSum.
Context (N : Z) (edges : list edge).
Hypothesis Hwf : wf_edges N edges.
Implicit Types (r v : Z) (reps : list Z).






End ComponentSum.

(** ** Results *)

Lemma wf_edges_Forall N (edges : list edge) :
  Forall (λ e, (1 ≤ src e ≤ N) ∧ (1 ≤ dst e ≤ N)) edges → wf_edges N edges.
Proof. intros H e He. rewrite Forall_forall in H. by apply H. Qed.

Lemma connected_star N (edges : list edge) :
  (∀ v, 1 ≤ v ≤ N → conn (ends <$> edges) 1 v) → connected N edges.
Proof.
  intros H u v Hu Hv. eapply conn_trans; [apply conn_sym|]; by apply H.
Qed.

Lemma triangle_wf : wf_edges 3 triangle.
Proof. apply wf_edges_Forall. unfold triangle, src, dst. repeat constructor; simpl; lia. Qed.

Lemma triangle_connected : connected 3 triangle.
Proof.
  apply connected_star. intros v Hv.
  assert (v = 1 ∨ v = 2 ∨ v = 3) as [-> | [-> | ->]] by lia.
  - apply conn_refl.
  - apply conn_edge. left. apply elem_of_cons. by left.
  - apply conn_edge. left. do 2 (apply elem_of_cons; right). apply elem_of_cons. by left.
Qed.

(** On a connected graph both routines compute the least weight of a
    spanning tree. *)
Lemma kruskal_prim_agree N (edges : list edge) (adj0 : gmap Z (list (Z * Z))) :
  1 ≤ N → wf_edges N edges → adj_matches edges adj0 → connected N edges →
  ∃ w st,
    run_kruskal N edges = Ok w ∧
    prim_final N adj0 = Some st ∧ mst_weight st = w ∧
    least_weight (spanning_tree N edges) w.
Proof.
  intros HN Hwf Hadj Hconn.
  destruct (run_kruskal_spec N edges (wf_edges_in_range N edges Hwf))
    as (w & c & uf' & _ & _ & Hrun & Hmin).
  destruct (prim_final_spec N edges Hwf adj0 HN Hadj)
    as (st & P & Hfin & _ & _ & Hmin').
  exists w, st. split_and!; [done..| |].
  - eapply min_basis_unique; [|exact Hmin].
    eapply min_basis_ext; [|exact Hmin'].
    intros e. by apply (connected_in_component N).
  - eapply least_weight_ext; [|exact Hmin]. intros T.
    rewrite basis_spanning_forest. by apply spanning_forest_tree.
Qed.

(** C1. On a connected graph with vertices [1 .. N] (N >= 1), whose
    adjacency lists both directions of every edge, [run_kruskal] and
    [run_prim] return the same total weight, and that weight is the least
    total weight of a spanning tree of the graph. *)
Theorem kruskal_prim_mst N (edges : list edge) (adj0 : gmap Z (list (Z * Z))) :
  1 ≤ N → wf_edges N edges → adj_matches edges adj0 → connected N edges →
  ∃ w adj',
    run_kruskal N edges = Ok w ∧
    run_prim N adj0 = Some (w, adj') ∧
    least_weight (spanning_tree N edges) w.
Proof.
  intros HN Hwf Hadj Hconn.
  destruct (kruskal_prim_agree N edges adj0 HN Hwf Hadj Hconn)
    as (w & st & Hrun & Hfin & Hw & Hleast).
  exists w, (adj st). split_and!; [done| |done].
  rewrite (run_prim_final _ _ _ Hfin). by rewrite Hw.
Qed.

Lemma kruskal_prim_mst_witness :
  ∃ w adj',
    run_kruskal 3 triangle = Ok w ∧
    run_prim 3 (build_adj triangle) = Some (w, adj') ∧
    least_weight (spanning_tree 3 triangle) w.
Proof.
  apply (kruskal_prim_mst 3 triangle (build_adj triangle)).
  - lia.
  - exact triangle_wf.
  - exact (build_adj_matches triangle).
  - exact triangle_connected.
Defined.





Section UnionFindClaims.
Context (n : Z).
Implicit Types (uf : UnionFind) (L pairs : list (Z * Z)).

Lemma do_unions_spec pairs :
  ∀ uf L,
    uf_inv n uf → represents n uf L →
    (∀ p, p ∈ pairs → in_range n p.1 ∧ in_range n p.2) →
    ∃ uf', do_unions pairs uf = Ok (tt, uf') ∧ uf_inv n uf' ∧
           represents n uf' (reverse pairs ++ L).
Proof.
  induction pairs as [|[a b] pairs IH]; intros uf L Hinv Hrep Hrange.
  - by exists uf.
  - destruct (Hrange (a, b)) as [Ha Hb]; [by left|]. simpl in Ha, Hb.
    destruct (union_represents n uf a b L Hinv Ha Hb Hrep)
      as (m & uf1 & Hun & Hinv1 & Hrep1 & _).
    destruct (IH uf1 ((a, b) :: L) Hinv1 Hrep1) as (uf' & Hdo & Hinv' & Hrep').
    { intros p Hp. apply Hrange. by right. }
    exists uf'. simpl. unfold bind. rewrite Hun. split_and!; [done..|].
    by rewrite reverse_cons, <- app_assoc.
Qed.

Lemma find_eq_spec uf a b :
  uf_inv n uf → in_range n a → in_range n b →
  ∃ (r : bool) uf',
    find_eq a b uf = Ok (r, uf') ∧ uf_inv n uf' ∧
    (r = true ↔ same_set (parent uf) a b).
Proof.
  intros Hinv Ha Hb.
  destruct (find_spec n uf a Hinv Ha)
    as (l1 & ra & uf1 & Hf1 & Hc1 & _ & _ & _ & Hinv1 & Hsr1).
  destruct (find_spec n uf1 b Hinv1 Hb)
    as (l2 & rb & uf2 & Hf2 & Hc2 & _ & _ & _ & Hinv2 & _).
  exists (bool_decide (ra = rb)), uf2. split_and!; [|done|].
  - unfold find_eq, bind. by rewrite Hf1, Hf2.
  - rewrite bool_decide_eq_true. symmetry. apply same_set_roots.
    + by exists l1.
    + apply Hsr1; [done|]. by exists l2.
Qed.
End UnionFindClaims.

(** C3. After [UnionFind(n)] and any sequence of [union] calls on
    arguments within [0 .. n], [find(a) == find(b)] holds exactly when [a]
    and [b] are joined by the pairs that were united, for all [a] and [b]
    within [0 .. n]. *)
Theorem find_eq_iff_connected n (pairs : list (Z * Z)) a b :
  (∀ p, p ∈ pairs → in_range n p.1 ∧ in_range n p.2) →
  in_range n a → in_range n b →
  ∃ (r : bool) uf',
    (do_unions pairs ;;; find_eq a b) (UnionFind_init n) = Ok (r, uf') ∧
    (r = true ↔ conn pairs a b).
Proof.
  intros Hpairs Ha Hb.
  destruct (do_unions_spec n pairs (UnionFind_init n) [] (init_inv n)
              (init_represents n) Hpairs) as (uf1 & Hdo & Hinv1 & Hrep1).
  destruct (find_eq_spec n uf1 a b Hinv1 Ha Hb) as (r & uf' & Hfe & _ & Hr).
  exists r, uf'. split.
  - unfold bind. by rewrite Hdo.
  - rewrite Hr, (Hrep1 a b Ha Hb). apply conn_ext. intros p.
    by rewrite app_nil_r, elem_of_reverse.
Qed.

Lemma find_eq_iff_connected_witness :
  ∃ (r : bool) uf',
    (do_unions [(1, 2); (3, 4); (2, 3)] ;;; find_eq 1 4) (UnionFind_init 5)
      = Ok (r, uf') ∧
    (r = true ↔ conn [(1, 2); (3, 4); (2, 3)] 1 4).
Proof.
  apply (find_eq_iff_connected 5 [(1, 2); (3, 4); (2, 3)] 1 4).
  - intros p Hp. unfold in_range.
    repeat (apply elem_of_cons in Hp as [->|Hp]); simpl; [lia..|].
    by apply elem_of_nil in Hp.
  - unfold in_range. lia.
  - unfold in_range. lia.
Defined.



(** C5. In every state reachable from [UnionFind(n)], [find(x)] returns
    for every [x] within [0 .. n]; the value returned is a root, and every
    cell visited on the way, the root included, points to it afterwards;
    no other cell and no rank changes. *)
Theorem find_returns_root_and_compresses n uf x :
  reachable n uf → in_range n x →
  ∃ l r uf',
    find x uf = Ok (r, uf') ∧
    chain (parent uf) x l r ∧
    pfun (parent uf') r = r ∧
    (∀ y, y ∈ l ++ [r] → pfun (parent uf') y = r) ∧
    (∀ y, in_range n y → y ∉ l → pfun (parent uf') y = pfun (parent uf) y) ∧
    rank uf' = rank uf.
Proof.
  intros Hreach Hx. pose proof (reachable_inv n uf Hreach) as Hinv.
  destruct (find_spec n uf x Hinv Hx)
    as (l & r & uf' & Hf & Hc & Hp & Hrk & Hr & Hinv' & Hsr).
  destruct (chain_in_range n _ _ _ _ (inv_parent_range _ _ Hinv) Hx Hc) as [_ Hl].
  assert (Hroot : pfun (parent uf') r = r).
  { rewrite Hp, (pfun_compress_out n); [by eapply chain_is_root|done..|].
    exact (chain_not_root n uf x l r Hinv Hx Hc). }
  exists l, r, uf'. split_and!; try done.
  - intros y [Hy| ->%list_elem_of_singleton]%elem_of_app; [|done].
    rewrite Hp. apply (pfun_compress_in n); [apply Hinv|done|done].
  - intros y Hy Hnin. rewrite Hp. by apply (pfun_compress_out n).
Qed.

Lemma find_returns_root_and_compresses_witness :
  ∃ l r uf',
    find 2 (UnionFind_init 3) = Ok (r, uf') ∧
    chain (parent (UnionFind_init 3)) 2 l r ∧
    pfun (parent uf') r = r ∧
    (∀ y, y ∈ l ++ [r] → pfun (parent uf') y = r) ∧
    (∀ y, in_range 3 y → y ∉ l →
          pfun (parent uf') y = pfun (parent (UnionFind_init 3)) y) ∧
    rank uf' = rank (UnionFind_init 3).
Proof.
  apply (find_returns_root_and_compresses 3 (UnionFind_init 3) 2).
  - apply reach_init.
  - unfold in_range. lia.
Defined.

(** C6. When [union] merges two sets with roots [ri] and [rj]: the root of
    smaller rank is put under the root of larger rank and no rank changes;
    when the ranks are equal, [rj] is put under [ri] and the rank of [ri],
    and no other, grows by one. *)
Theorem union_by_rank n uf i j ri rj :
  reachable n uf → in_range n i → in_range n j →
  root_of (parent uf) i ri → root_of (parent uf) j rj → ri ≠ rj →
  ∃ uf',
    union i j uf = Ok (true, uf') ∧
    (pfun (rank uf) ri < pfun (rank uf) rj →
       pfun (parent uf') ri = rj ∧ pfun (parent uf') rj = rj ∧
       rank uf' = rank uf) ∧
    (pfun (rank uf) rj < pfun (rank uf) ri →
       pfun (parent uf') rj = ri ∧ pfun (parent uf') ri = ri ∧
       rank uf' = rank uf) ∧
    (pfun (rank uf) ri = pfun (rank uf) rj →
       pfun (parent uf') rj = ri ∧ pfun (parent uf') ri = ri ∧
       pfun (rank uf') ri = pfun (rank uf) ri + 1 ∧
       ∀ x, in_range n x → x ≠ ri → pfun (rank uf') x = pfun (rank uf) x).
Proof.
  intros Hreach Hi Hj Hri Hrj Hne. pose proof (reachable_inv n uf Hreach) as Hinv.
  destruct (union_exec n uf i j Hinv Hi Hj)
    as (ri' & rj' & uf2 & Hri' & Hrj' & Hiri & Hirj & Hinv2 & Hsr & Hrk & Hex).
  rewrite <- (root_of_det _ _ _ _ Hri Hri') in *.
  rewrite <- (root_of_det _ _ _ _ Hrj Hrj') in *. clear Hri' Hrj'.
  rewrite decide_False in Hex by done.
  pose proof (inv_len_parent _ _ Hinv2) as Hlp.
  pose proof (inv_len_rank _ _ Hinv2) as Hlr.
  assert (Hroot : ∀ r k, in_range n r → root_of (parent uf) k r →
                         pfun (parent uf2) r = r).
  { intros r k Hr Hk. apply (root_of_is_root _ r), Hsr; [done|].
    apply root_of_root. by eapply root_of_is_root. }
  destruct (decide (pfun (rank uf) ri < pfun (rank uf) rj)) as [Hlt|Hge];
    destruct Hex as (tr & Hex & _); eexists; (split; [exact Hex|]);
    unfold linked; simpl; rewrite Hrk.
  - rewrite decide_False by lia. split_and!; [|intros; lia..].
    intros _. split_and!; [by apply (pfun_insert_eq n)| |done].
    rewrite (pfun_insert_ne n) by done. by apply (Hroot rj j).
  - assert (Hp : pfun (<[Z.to_nat rj:=ri]> (parent uf2)) rj = ri
                 ∧ pfun (<[Z.to_nat rj:=ri]> (parent uf2)) ri = ri).
    { split; [by apply (pfun_insert_eq n)|].
      rewrite (pfun_insert_ne n) by done. by apply (Hroot ri i). }
    split_and!; [intros; lia| |].
    + intros Hlt. rewrite decide_False by lia. by destruct Hp.
    + intros Heq. rewrite decide_True by done. destruct Hp.
      split_and!; [done..| |].
      * apply (pfun_insert_eq n); [congruence|done].
      * intros x Hx Hxr. by rewrite (pfun_insert_ne n).
Qed.

Lemma union_by_rank_witness :
  ∃ uf',
    union 1 2 (UnionFind_init 3) = Ok (true, uf') ∧
    (pfun (rank (UnionFind_init 3)) 1 < pfun (rank (UnionFind_init 3)) 2 →
       pfun (parent uf') 1 = 2 ∧ pfun (parent uf') 2 = 2 ∧
       rank uf' = rank (UnionFind_init 3)) ∧
    (pfun (rank (UnionFind_init 3)) 2 < pfun (rank (UnionFind_init 3)) 1 →
       pfun (parent uf') 2 = 1 ∧ pfun (parent uf') 1 = 1 ∧
       rank uf' = rank (UnionFind_init 3)) ∧
    (pfun (rank (UnionFind_init 3)) 1 = pfun (rank (UnionFind_init 3)) 2 →
       pfun (parent uf') 2 = 1 ∧ pfun (parent uf') 1 = 1 ∧
       pfun (rank uf') 1 = pfun (rank (UnionFind_init 3)) 1 + 1 ∧
       ∀ x, in_range 3 x → x ≠ 1 →
            pfun (rank uf') x = pfun (rank (UnionFind_init 3)) x).
Proof.
  apply (union_by_rank 3 (UnionFind_init 3) 1 2 1 2).
  - apply reach_init.
  - unfold in_range. lia.
  - unfold in_range. lia.
  - apply root_of_root. reflexivity.
  - apply root_of_root. reflexivity.
  - lia.
Defined.

(** C9. On the triangle with edges (1,2,1), (2,3,2), (1,3,3), with any
    adjacency that lists both directions of each edge, [run_kruskal]
    returns 3 and [run_prim], which starts at vertex 1, returns 3. *)
Theorem triangle_weight_three (adj0 : gmap Z (list (Z * Z))) :
  adj_matches triangle adj0 →
  run_kruskal 3 triangle = Ok 3 ∧ fst <$> run_prim 3 adj0 = Some 3.
Proof.
  intros Hadj.
  destruct (kruskal_prim_agree 3 triangle adj0 ltac:(lia) triangle_wf Hadj
              triangle_connected) as (w & st & Hrun & Hfin & Hw & _).
  assert (Hk : run_kruskal 3 triangle = Ok 3) by (vm_compute; reflexivity).
  split; [done|].
  rewrite (run_prim_final _ _ _ Hfin). simpl. congruence.
Qed.

Lemma triangle_weight_three_witness :
  run_kruskal 3 triangle = Ok 3 ∧
  fst <$> run_prim 3 (build_adj triangle) = Some 3.
Proof.
  apply (triangle_weight_three (build_adj triangle)).
  exact (build_adj_matches triangle).
Defined.

(** The scenarios of the specification, by evaluation. *)
Example single_vertex :
  run_kruskal 1 [] = Ok 0 ∧ fst <$> run_prim 1 ∅ = Some 0.
Proof. split; vm_compute; reflexivity. Qed.

Example single_edge :
  (∃ uf, kruskal_loop (sorted_by_weight [(1, 2, 5)]) 0 0 (UnionFind_init 2)
         = Ok ((5, 1), uf)) ∧
  (∃ st, prim_final 2 (build_adj [(1, 2, 5)]) = Some st ∧
         mst_weight st = 5 ∧ visited st = {[1; 2]}).
Proof.
  split; eexists; [vm_compute; reflexivity|].
  split; [vm_compute; reflexivity|]. split; vm_compute; reflexivity.
Qed.

Example triangle_by_evaluation :
  (∃ uf, kruskal_loop (sorted_by_weight triangle) 0 0 (UnionFind_init 3)
         = Ok ((3, 2), uf)) ∧
  fst <$> run_prim 3 (build_adj triangle) = Some 3.
Proof. split; [eexists|]; vm_compute; reflexivity. Qed.

(** C10. When every endpoint lies within [1 .. num_nodes], a whole run of
    [run_kruskal] returns normally, and every subscript it used on [parent]
    and [rank], both of length [num_nodes + 1] from [UnionFind(num_nodes)]
    to the end, lies within [0 .. num_nodes]. *)
Theorem kruskal_subscripts_in_bounds N (edges : list edge) :
  wf_edges N edges →
  length (parent (UnionFind_init N)) = Z.to_nat (N + 1) ∧
  length (rank (UnionFind_init N)) = Z.to_nat (N + 1) ∧
  ∃ w c uf',
    kruskal_loop (sorted_by_weight edges) 0 0 (UnionFind_init N)
      = Ok ((w, c), uf') ∧
    run_kruskal N edges = Ok w ∧
    length (parent uf') = Z.to_nat (N + 1) ∧
    length (rank uf') = Z.to_nat (N + 1) ∧
    Forall (λ i, 0 ≤ i ≤ N) (accessed uf').
Proof.
  intros Hwf.
  destruct (run_kruskal_spec N edges (wf_edges_in_range N edges Hwf))
    as (w & c & uf' & Hk & Hinv & Hrun & _).
  split_and!; [apply (init_inv N)..|].
  exists w, c, uf'. split_and!; [done|done|apply Hinv..].
Qed.

Lemma kruskal_subscripts_in_bounds_witness :
  length (parent (UnionFind_init 3)) = Z.to_nat (3 + 1) ∧
  length (rank (UnionFind_init 3)) = Z.to_nat (3 + 1) ∧
  ∃ w c uf',
    kruskal_loop (sorted_by_weight triangle) 0 0 (UnionFind_init 3)
      = Ok ((w, c), uf') ∧
    run_kruskal 3 triangle = Ok w ∧
    length (parent uf') = Z.to_nat (3 + 1) ∧
    length (rank uf') = Z.to_nat (3 + 1) ∧
    Forall (λ i, 0 ≤ i ≤ 3) (accessed uf').
Proof.
  apply (kruskal_subscripts_in_bounds 3 triangle).
  exact triangle_wf.
Defined.

Section Frame.
Context (N : Z) (adj0 : gmap Z (list (Z * Z))).
Implicit Types (st : prim_state).

Lemma adj_touched_list V a k :
  adj_touched adj0 V a → adj_list a k = adj_list adj0 k.
Proof.
  intros H. unfold adj_list. rewrite (H k).
  destruct (adj0 !! k); [done|]. by case_decide.
Qed.

Lemma prim_step_frame st st' :
  prim_frame adj0 st → prim_step N st = Some st' → prim_frame adj0 st'.
Proof.
  destruct st as [q V m a]. intros [Hadj Hq Hv]. simpl in *.
  rewrite prim_step_eq. simpl.
  destruct q as [|[w u] q']; [done|].
  case_decide; [|done]. case_decide as Hu.
  - intros [= <-]. split; simpl; [done| |done].
    intros w' y Hin. apply Hq. by right.
  - pose proof (adj_getitem_fst a u) as Hnb.
    pose proof (adj_getitem_lookup a u) as Hlook.
    destruct (adj_getitem a u) as [nbrs a']. simpl in Hnb, Hlook. subst nbrs.
    intros [= <-]. split; simpl.
    + intros k. rewrite Hlook, (Hadj k). destruct (adj0 !! k); [done|].
      destruct (decide (k ∈ V)) as [Hk|Hk].
      * rewrite decide_True; [done|by apply visit_old].
      * destruct (decide (k = u)) as [->|Hne].
        -- rewrite decide_True; [done|apply visit_new].
        -- rewrite decide_False; [done|]. by intros [?|?]%visit_inv.
    + intros w' y [Hin|[Hin _]]%push_neighbors_elem.
      * apply Hq. by right.
      * right. exists u. by rewrite <- (adj_touched_list V a).
    + intros v [Hin| ->]%visit_inv; [by apply Hv|].
      destruct (Hq w u) as [[= _ ->]|[x Hx]]; [by left|by left|].
      right. by exists x, w.
Qed.

Lemma prim_loop_frame fuel st st' :
  prim_frame adj0 st → prim_loop fuel N st = Some st' → prim_frame adj0 st'.
Proof.
  revert st. induction fuel as [|fuel IH]; intros st Hfr; [done|].
  simpl. destruct (prim_step N st) as [st1|] eqn:Hstep.
  - apply IH. by eapply prim_step_frame.
  - by intros [= <-].
Qed.

Lemma prim_final_frame st :
  prim_final N adj0 = Some st → prim_frame adj0 st.
Proof.
  apply prim_loop_frame. split; simpl.
  - intros k. destruct (adj0 !! k); [done|].
    rewrite decide_False; [done|apply not_elem_of_empty].
  - intros w y ->%list_elem_of_singleton. by left.
  - by intros v ?%not_elem_of_empty.
Qed.
End Frame.

(** C8, as the claim states it, fails: on the single-vertex graph without
    edges, [run_prim] hands back an adjacency with the new key 1. *)
Lemma run_prim_adds_key :
  run_prim 1 ∅ = Some (0, {[1 := []]}) ∧
  dom ({[1 := []]} : gmap Z (list (Z * Z))) ≠ dom (∅ : gmap Z (list (Z * Z))).
Proof.
  split; [vm_compute; reflexivity|].
  rewrite dom_singleton_L, dom_empty_L. intros H.
  assert (1 ∈ ({[1]} : gset Z)) as Hin by (by apply elem_of_singleton).
  rewrite H in Hin. by apply not_elem_of_empty in Hin.
Qed.

(** C8, amended. [run_kruskal] leaves the caller's edge list as it is: it
    iterates over the new list that [sorted] returns.  [run_prim] always
    returns, changes no list of the adjacency and removes no key; the only
    change it can make is to add, with an empty list, a visited vertex that
    was not a key; the adjacency is left exactly as received when vertex 1
    is a key and every listed neighbour is a key. *)
Theorem inputs_after_run :
  (∀ N (σ : gmap positive (list edge)) r edges,
     σ !! r = Some edges →
     ∃ σ', run_kruskal_in_store N r σ = Some (run_kruskal N edges, σ') ∧
           σ' !! r = Some edges) ∧
  (∀ N (adj0 : gmap Z (list (Z * Z))),
     ∃ st, prim_final N adj0 = Some st ∧
           run_prim N adj0 = Some (mst_weight st, adj st) ∧
           adj_touched adj0 (visited st) (adj st) ∧
           (is_Some (adj0 !! 1) →
            (∀ x w y, (w, y) ∈ adj_list adj0 x → is_Some (adj0 !! y)) →
            adj st = adj0)).
Proof.
  split.
  - intros N σ r edges Hr. unfold run_kruskal_in_store, py_sorted. rewrite Hr.
    rewrite lookup_insert_eq. eexists. split; [reflexivity|].
    rewrite lookup_insert_ne; [done|].
    intros Heq. apply (is_fresh (dom σ)). rewrite Heq.
    apply elem_of_dom. by exists edges.
  - intros N adj0. destruct (prim_final_returns N adj0) as [st Hst].
    pose proof (prim_final_frame N adj0 st Hst) as [Hadj Hq Hv].
    exists st. split_and!; [done|by apply run_prim_final|done|].
    intros H1 Hclosed. apply map_eq. intros k. rewrite (Hadj k).
    destruct (adj0 !! k) eqn:Hk; [done|].
    rewrite decide_False; [done|]. intros Hin.
    destruct (Hv k Hin) as [->|(x & w & Hx)].
    + rewrite Hk in H1. by destruct H1.
    + apply Hclosed in Hx. rewrite Hk in Hx. by destruct Hx.
Qed.

Lemma inputs_after_run_witness :
  (∃ σ', run_kruskal_in_store 3 1%positive {[1%positive := triangle]}
         = Some (run_kruskal 3 triangle, σ') ∧
         σ' !! 1%positive = Some triangle) ∧
  (∃ st, prim_final 3 (build_adj triangle) = Some st ∧
         run_prim 3 (build_adj triangle) = Some (mst_weight st, adj st) ∧
         adj_touched (build_adj triangle) (visited st) (adj st) ∧
         (is_Some (build_adj triangle !! 1) →
          (∀ x w y, (w, y) ∈ adj_list (build_adj triangle) x →
                    is_Some (build_adj triangle !! y)) →
          adj st = build_adj triangle)).
Proof.
  split.
  - apply (proj1 inputs_after_run 3 {[1%positive := triangle]} 1%positive triangle).
    reflexivity.
  - apply (proj2 inputs_after_run 3 (build_adj triangle)).
Defined.

(** ** Union by rank keeps the trees shallow *)

Section Ranks.
Context (n : Z).
Implicit Types (l p rk L : list Z) (i j x y r s a b : Z) (uf : UnionFind).

Lemma pfun_rank_linked uf a b acc x :
  uf_inv n uf → in_range n a → in_range n x →
  pfun (rank (linked uf a b acc)) x
  = if decide (x = a) then
      (if decide (pfun (rank uf) a = pfun (rank uf) b)
       then pfun (rank uf) a + 1 else pfun (rank uf) a)
    else pfun (rank uf) x.
Proof.
  intros Hinv Ha Hx. pose proof (inv_len_rank _ _ Hinv) as Hlr.
  unfold linked. simpl.
  destruct (decide (pfun (rank uf) a = pfun (rank uf) b)).
  - destruct (decide (x = a)) as [->|].
    + by rewrite (pfun_insert_eq n).
    + by rewrite (pfun_insert_ne n).
  - by destruct (decide (x = a)) as [->|].
Qed.

Lemma init_rank_sizes : rank_sizes n (UnionFind_init n).
Proof.
  assert (Hrk : ∀ x, in_range n x → pfun (rank (UnionFind_init n)) x = 0).
  { intros x [? ?]. unfold pfun. simpl.
    apply lookup_total_replicate_2. lia. }
  split.
  - intros x Hx. rewrite Hrk by done. lia.
  - intros r Hr Hroot. exists [r]. split_and!.
    + apply NoDup_singleton.
    + intros x ->%list_elem_of_singleton. split; [done|by apply root_of_root].
    + rewrite Hrk by done. simpl. lia.
Qed.

(** A step that keeps roots and ranks keeps the sizes. *)
Lemma rank_sizes_same_roots uf uf' :
  same_roots n (parent uf) (parent uf') → rank uf' = rank uf →
  rank_sizes n uf → rank_sizes n uf'.
Proof.
  intros Hsr Hrk [Hpos Hsize]. unfold rank_sizes. rewrite Hrk. split; [done|].
  intros r Hr Hroot.
  assert (Hroot0 : pfun (parent uf) r = r).
  { apply (root_of_is_root _ r). apply Hsr; [done|]. by apply root_of_root. }
  destruct (Hsize r Hr Hroot0) as (L & Hnd & HL & Hle).
  exists L. split_and!; [done| |done].
  intros x Hx. destruct (HL x Hx) as [Hin Hxr]. split; [done|]. by apply Hsr.
Qed.

(** Linking the root [b] under a root [a] of rank at least that of [b]. *)
Lemma linked_rank_sizes uf a b acc :
  uf_inv n uf → rank_sizes n uf → in_range n a → in_range n b →
  pfun (parent uf) a = a → pfun (parent uf) b = b → a ≠ b →
  pfun (rank uf) b ≤ pfun (rank uf) a →
  rank_sizes n (linked uf a b acc).
Proof.
  intros Hinv [Hpos Hsize] Ha Hb Hra Hrb Hab Hle.
  pose proof (inv_len_parent _ _ Hinv) as Hlp.
  pose proof (root_of_link n (parent uf) a b (uf_inv_closed n _ Hinv)
                Ha Hb Hra Hrb Hab) as Hlink.
  split.
  - intros x Hx. rewrite pfun_rank_linked by done.
    pose proof (Hpos x Hx). pose proof (Hpos a Ha). repeat case_decide; lia.
  - intros r Hr. rewrite pfun_rank_linked by done. simpl.
    destruct (decide (r = b)) as [->|Hrb'].
    { rewrite (pfun_insert_eq n) by done. intros ->. done. }
    rewrite (pfun_insert_ne n) by done. intros Hroot.
    destruct (decide (r = a)) as [->|Hra'].
    + destruct (Hsize a Ha Hra) as (La & Hnda & HLa & Hlea).
      destruct (Hsize b Hb Hrb) as (Lb & Hndb & HLb & Hleb).
      exists (La ++ Lb). split_and!.
      * apply NoDup_app. split_and!; [done| |done].
        intros x Hxa Hxb. apply Hab.
        eapply root_of_det; [apply (HLa x Hxa)|apply (HLb x Hxb)].
      * intros x [Hx|Hx]%elem_of_app.
        -- destruct (HLa x Hx) as [Hin Hxr]. split; [done|].
           specialize (Hlink x a Hin Hxr). by rewrite decide_False in Hlink.
        -- destruct (HLb x Hx) as [Hin Hxr]. split; [done|].
           specialize (Hlink x b Hin Hxr). by rewrite decide_True in Hlink.
      * rewrite length_app, Nat2Z.inj_add.
        pose proof (Hpos a Ha). pose proof (Hpos b Hb).
        destruct (decide (pfun (rank uf) a = pfun (rank uf) b)) as [Heq|Hne].
        -- rewrite Z.pow_add_r by lia. rewrite <- Heq in Hleb. lia.
        -- lia.
    + destruct (Hsize r Hr Hroot) as (L & Hnd & HL & Hle').
      exists L. split_and!; [done| |done].
      intros x Hx. destruct (HL x Hx) as [Hin Hxr]. split; [done|].
      specialize (Hlink x r Hin Hxr). by rewrite decide_False in Hlink.
Qed.

Lemma find_rank_sizes uf i r uf' :
  uf_inv n uf → in_range n i → rank_sizes n uf →
  find i uf = Ok (r, uf') → rank_sizes n uf'.
Proof.
  intros Hinv Hi Hrs Hf.
  destruct (find_spec n uf i Hinv Hi)
    as (l & r' & uf'' & Hf' & _ & _ & Hrk & _ & _ & Hsr).
  assert (uf'' = uf') as -> by congruence.
  by apply (rank_sizes_same_roots uf).
Qed.

Lemma union_rank_sizes uf i j (merged : bool) uf' :
  uf_inv n uf → in_range n i → in_range n j → rank_sizes n uf →
  union i j uf = Ok (merged, uf') → rank_sizes n uf'.
Proof.
  intros Hinv Hi Hj Hrs Hu.
  destruct (union_exec n uf i j Hinv Hi Hj)
    as (ri & rj & uf2 & Hri & Hrj & Hiri & Hirj & Hinv2 & Hsr & Hrk & Hex).
  pose proof (rank_sizes_same_roots uf uf2 Hsr Hrk Hrs) as Hrs2.
  assert (Hroot : ∀ x, in_range n x → root_of (parent uf) x x →
                       pfun (parent uf2) x = x).
  { intros x Hx Hxx. apply (root_of_is_root _ x). by apply Hsr. }
  assert (Hrri : pfun (parent uf2) ri = ri).
  { apply Hroot; [done|]. apply root_of_root. by eapply root_of_is_root. }
  assert (Hrrj : pfun (parent uf2) rj = rj).
  { apply Hroot; [done|]. apply root_of_root. by eapply root_of_is_root. }
  destruct (decide (ri = rj)) as [Heq|Hne].
  { assert (uf2 = uf') as <- by congruence. done. }
  destruct (decide (pfun (rank uf) ri < pfun (rank uf) rj)) as [Hlt|Hge];
    destruct Hex as (tr & Hex & _).
  - assert (uf' = linked uf2 rj ri (tr ++ accessed uf2)) as -> by congruence.
    apply linked_rank_sizes; try done. rewrite Hrk; lia.
  - assert (uf' = linked uf2 ri rj (tr ++ accessed uf2)) as -> by congruence.
    apply linked_rank_sizes; try done. rewrite Hrk; lia.
Qed.

Lemma reachable_rank_sizes uf : reachable n uf → rank_sizes n uf.
Proof.
  induction 1 as [|uf i r uf' Hre IH Hi Hf|uf i j b uf' Hre IH Hi Hj Hu].
  - apply init_rank_sizes.
  - apply (find_rank_sizes uf i r uf'); [by apply reachable_inv|done..].
  - apply (union_rank_sizes uf i j b uf'); [by apply reachable_inv|done..].
Qed.

(** Along a chain every step gains at least one rank. *)
Lemma chain_rank_length uf i l r :
  uf_inv n uf → in_range n i → chain (parent uf) i l r →
  pfun (rank uf) i + Z.of_nat (length l) ≤ pfun (rank uf) r.
Proof.
  intros Hinv Hi H.
  induction H as [i _|i l r Hne _ IH]; [simpl; lia|].
  specialize (IH (inv_parent_range _ _ Hinv _ Hi)).
  pose proof (inv_rank_up _ _ Hinv _ Hi Hne).
  rewrite length_cons, Nat2Z.inj_succ. lia.
Qed.

(** The rank of a root is at most the logarithm of the number of cells. *)
Lemma root_rank_log uf r :
  uf_inv n uf → rank_sizes n uf → in_range n r → pfun (parent uf) r = r →
  2 ^ pfun (rank uf) r ≤ n + 1 ∧ pfun (rank uf) r ≤ Z.log2 (n + 1).
Proof.
  intros Hinv [Hpos Hsize] Hr Hroot.
  destruct (Hsize r Hr Hroot) as (L & Hnd & HL & Hle).
  assert (Hlen : (length L ≤ Z.to_nat (n + 1))%nat).
  { apply (in_range_NoDup_length n); [done|].
    apply Forall_forall. intros x Hx. by apply HL. }
  destruct Hr as [Hr0 Hrn].
  assert (H2 : 2 ^ pfun (rank uf) r ≤ n + 1) by lia.
  split; [done|]. apply Z.log2_le_pow2; [lia|done].
Qed.

Lemma rank_log uf x l r :
  uf_inv n uf → rank_sizes n uf → in_range n x → chain (parent uf) x l r →
  0 ≤ pfun (rank uf) x ∧ 2 ^ pfun (rank uf) x ≤ n + 1 ∧
  Z.of_nat (length l) ≤ Z.log2 (n + 1).
Proof.
  intros Hinv Hrs Hx Hc.
  pose proof (chain_rank_length uf x l r Hinv Hx Hc) as Hlen.
  destruct (chain_in_range n _ _ _ _ (inv_parent_range _ _ Hinv) Hx Hc)
    as [Hr _].
  destruct (root_rank_log uf r Hinv Hrs Hr (chain_is_root _ _ _ _ Hc))
    as [Hpow Hlog].
  pose proof (proj1 Hrs x Hx) as H0.
  split_and!; [done| |lia].
  transitivity (2 ^ pfun (rank uf) r); [|done].
  apply Z.pow_le_mono_r; lia.
Qed.

(** [find] from a cell whose chain has [length l] cells before the root
    needs [length l + 1] frames, and any larger depth gives the same
    outcome. *)
Lemma find_rec_enough uf x l r d :
  uf_inv n uf → in_range n x → chain (parent uf) x l r →
  (length l < d)%nat → find_rec d x uf = find x uf.
Proof.
  intros Hinv Hx Hc Hd. symmetry. apply find_depth_adequate.
  pose proof (uf_inv_closed n _ Hinv) as [Hlp Hp].
  destruct (find_rec_chain n (parent uf) (rank uf) x l r Hlp Hp Hx Hc
              d (accessed uf) Hd) as (tr & Hf & _).
  destruct uf as [p rk acc]. simpl in *. by rewrite Hf.
Qed.
End Ranks.

(** ** Counting the accepted edges *)

Section Roots.
Context (n : Z).
Implicit Types (l p rk : list Z) (i j x y r s a b : Z) (uf : UnionFind).







End Roots.

Section Counting.
Context {A B : Type} (R : A → B → Prop).

End Counting.

Section EdgeCount.
Context (N : Z) (edges : list edge).
Hypothesis Hwf : wf_edges N edges.
Implicit Types (reps : list Z) (uf : UnionFind).





End EdgeCount.

(** ** Negative subscripts and [IndexError] *)

Section Monad.
Context {A B : Type}.
Implicit Types (m : M A) (k : A → M B) (uf : UnionFind).

Lemma bind_Ok m k uf a uf' : m uf = Ok (a, uf') → bind m k uf = k a uf'.
Proof. intros H. unfold bind. by rewrite H. Qed.

Lemma bind_Raise m k uf e : m uf = Raise e → bind m k uf = Raise e.
Proof. intros H. unfold bind. by rewrite H. Qed.

Lemma bind_same m k u1 u2 :
  same_outcome (m u1) (m u2) →
  (∀ a v1 v2, same_lists v1 v2 → same_outcome (k a v1) (k a v2)) →
  same_outcome (bind m k u1) (bind m k u2).
Proof.
  intros Hm Hk. unfold bind.
  destruct (m u1) as [[a1 v1]|e1], (m u2) as [[a2 v2]|e2]; simpl in Hm; try done.
  destruct Hm as [-> Hv]. by apply Hk.
Qed.
End Monad.

Section Traces.
Implicit Types (i x : Z) (u uf : UnionFind).

Lemma same_lists_refl u : same_lists u u.
Proof. by split. Qed.

Lemma parent_get_same i u1 u2 :
  same_lists u1 u2 → same_outcome (parent_get i u1) (parent_get i u2).
Proof.
  intros [Hp Hr]. unfold parent_get. rewrite Hp.
  by destruct (py_getitem _ _).
Qed.

Lemma parent_set_same i x u1 u2 :
  same_lists u1 u2 → same_outcome (parent_set i x u1) (parent_set i x u2).
Proof.
  intros [Hp Hr]. unfold parent_set. rewrite Hp.
  by destruct (py_setitem _ _ _).
Qed.

Lemma rank_get_same i u1 u2 :
  same_lists u1 u2 → same_outcome (rank_get i u1) (rank_get i u2).
Proof.
  intros [Hp Hr]. unfold rank_get. rewrite Hr.
  by destruct (py_getitem _ _).
Qed.

Lemma rank_set_same i x u1 u2 :
  same_lists u1 u2 → same_outcome (rank_set i x u1) (rank_set i x u2).
Proof.
  intros [Hp Hr]. unfold rank_set. rewrite Hr.
  by destruct (py_setitem _ _ _).
Qed.

Lemma ret_same {A} (a : A) u1 u2 :
  same_lists u1 u2 → same_outcome (ret a u1) (ret a u2).
Proof. by intros H. Qed.

(** The recorded subscripts do not influence what [union] does with the
    two roots. *)
Lemma link_same ri rj u1 u2 :
  same_lists u1 u2 → same_outcome (link ri rj u1) (link ri rj u2).
Proof.
  intros H. unfold link. case_decide; [|by apply ret_same].
  apply bind_same; [by apply rank_get_same|]. intros a v1 v2 Hv.
  apply bind_same; [by apply rank_get_same|]. clear dependent v1 v2.
  intros b v1 v2 Hv.
  destruct (decide (a < b));
    (apply bind_same; [by apply parent_set_same|]; clear dependent v1 v2;
     intros _ v1 v2 Hv;
     apply bind_same; [by apply rank_get_same|]; clear dependent v1 v2;
     intros a' v1 v2 Hv;
     apply bind_same; [by apply rank_get_same|]; clear dependent v1 v2;
     intros b' v1 v2 Hv;
     apply bind_same; [|intros; by apply ret_same];
     case_decide; [|by apply ret_same];
     apply bind_same; [by apply rank_get_same|]; clear dependent v1 v2;
     intros c v1 v2 Hv; by apply rank_set_same).
Qed.

Lemma union_link i j uf ri uf' rj uf'' :
  find i uf = Ok (ri, uf') → find j uf' = Ok (rj, uf'') →
  union i j uf = link ri rj uf''.
Proof.
  intros H1 H2. unfold union.
  rewrite (bind_Ok _ _ _ _ _ H1). cbv beta.
  by rewrite (bind_Ok _ _ _ _ _ H2).
Qed.
End Traces.

Section Subscripts.
Context (n : Z).
Implicit Types (l p rk acc : list Z) (i j x r : Z) (uf u : UnionFind).

Lemma cell_in_range i : valid_subscript n i → in_range n (cell n i).
Proof. unfold valid_subscript, cell, in_range. case_decide; lia. Qed.

Lemma cell_of_in_range i : in_range n i → cell n i = i.
Proof. unfold cell, in_range. case_decide; lia. Qed.

Lemma in_range_valid i : in_range n i → valid_subscript n i.
Proof. unfold valid_subscript, in_range. lia. Qed.

Lemma py_index_valid i :
  valid_subscript n i →
  py_index (Z.to_nat (n + 1)) i = Some (Z.to_nat (cell n i)).
Proof.
  unfold valid_subscript, py_index, cell. intros Hi.
  repeat case_decide; (done || lia || f_equal; lia).
Qed.

Lemma py_index_invalid i :
  ¬ valid_subscript n i → py_index (Z.to_nat (n + 1)) i = None.
Proof.
  unfold valid_subscript, py_index. intros Hi.
  repeat case_decide; (done || lia).
Qed.

Lemma py_getitem_valid l i :
  length l = Z.to_nat (n + 1) → valid_subscript n i →
  py_getitem l i = Ok (pfun l (cell n i)).
Proof.
  intros Hl Hi. pose proof (cell_in_range i Hi) as [? ?].
  unfold py_getitem. rewrite Hl, (py_index_valid i Hi). unfold pfun.
  rewrite (list_lookup_lookup_total_lt l (Z.to_nat (cell n i))); [done|].
  rewrite Hl. lia.
Qed.

Lemma py_setitem_valid l i x :
  length l = Z.to_nat (n + 1) → valid_subscript n i →
  py_setitem l i x = Ok (<[Z.to_nat (cell n i) := x]> l).
Proof.
  intros Hl Hi. unfold py_setitem. by rewrite Hl, (py_index_valid i Hi).
Qed.

Lemma parent_get_valid p rk acc i :
  length p = Z.to_nat (n + 1) → valid_subscript n i →
  parent_get i (mkUF p rk acc) = Ok (pfun p (cell n i), mkUF p rk (i :: acc)).
Proof. intros Hl Hi. unfold parent_get. simpl. by rewrite py_getitem_valid. Qed.

Lemma parent_set_valid p rk acc i x :
  length p = Z.to_nat (n + 1) → valid_subscript n i →
  parent_set i x (mkUF p rk acc)
  = Ok (tt, mkUF (<[Z.to_nat (cell n i) := x]> p) rk (i :: acc)).
Proof. intros Hl Hi. unfold parent_set. simpl. by rewrite py_setitem_valid. Qed.

Lemma find_rec_unfold d i :
  find_rec (S d) i
  = (p <- parent_get i ;;
     if decide (p ≠ i) then
       p' <- parent_get i ;;
       r <- find_rec d p' ;;
       parent_set i r ;;;
       parent_get i
     else
       parent_get i).
Proof. done. Qed.

(** [find] under a negative subscript: the same root, the same
    compression, as under the cell's own subscript. *)
Lemma find_negative p rk acc i l r :
  closed_parent n p → valid_subscript n i → i < 0 →
  chain p (cell n i) l r → (length l < length p)%nat →
  ∃ acc', find i (mkUF p rk acc) = Ok (r, mkUF (compress p l r) rk acc').
Proof.
  intros [Hlp Hp] Hi Hneg Hc Hlen.
  pose proof (cell_in_range i Hi) as Hj. set (j := cell n i) in *.
  assert (Hpj : in_range n (pfun p j)) by auto.
  assert (Hne : pfun p j ≠ i) by (destruct Hpj; lia).
  unfold find. simpl parent. rewrite find_rec_unfold.
  rewrite (bind_Ok _ _ _ _ _ (parent_get_valid p rk acc i Hlp Hi)). cbv beta.
  fold j. rewrite decide_True by done.
  rewrite (bind_Ok _ _ _ _ _ (parent_get_valid p rk _ i Hlp Hi)). cbv beta.
  fold j.
  assert (Hlc : ∀ l', length (compress p l' r) = Z.to_nat (n + 1))
    by (intros; by rewrite length_compress).
  inversion Hc as [? Hroot|? l' ? Hstep Hc']; subst.
  - (* the cell is a root *)
    destruct (find_rec_chain n p rk j [] j Hlp Hp Hj Hc
                (length p) (i :: i :: acc))
      as (tr & Hf & _); [simpl in *; lia|].
    rewrite Hroot.
    rewrite (bind_Ok _ _ _ _ _ Hf). cbv beta.
    rewrite (bind_Ok _ _ _ _ _ (parent_set_valid _ rk _ i j (Hlc []) Hi)).
    cbv beta.
    rewrite parent_get_valid by (by rewrite ?length_insert).
    fold j. rewrite (pfun_insert_eq n) by done.
    eexists. do 3 f_equal. simpl. apply list_insert_id.
    rewrite <- Hroot at 2. apply list_lookup_lookup_total_lt.
    rewrite Hlp. destruct Hj. lia.
  - (* the cell points further up *)
    destruct (find_rec_chain n p rk (pfun p j) l' r Hlp Hp Hpj Hc'
                (length p) (i :: i :: acc))
      as (tr & Hf & _); [simpl in *; lia|].
    rewrite (bind_Ok _ _ _ _ _ Hf). cbv beta.
    rewrite (bind_Ok _ _ _ _ _ (parent_set_valid _ rk _ i r (Hlc l') Hi)).
    cbv beta.
    rewrite parent_get_valid by (by rewrite ?length_insert).
    fold j. rewrite (pfun_insert_eq n) by done.
    eexists. done.
Qed.

(** [find] under any valid subscript, whatever the recorded trace. *)
Lemma find_cell uf1 uf2 i :
  uf_inv n uf2 → same_lists uf1 uf2 → valid_subscript n i →
  ∃ r uf1' uf2',
    find i uf1 = Ok (r, uf1') ∧
    find (cell n i) uf2 = Ok (r, uf2') ∧
    same_lists uf1' uf2' ∧ uf_inv n uf2'.
Proof.
  intros Hinv [Hp Hrk] Hi.
  pose proof (cell_in_range i Hi) as Hj.
  destruct (find_spec n uf2 (cell n i) Hinv Hj)
    as (l & r & uf2' & Hf & Hc & Hp' & Hrk' & _ & Hinv' & _).
  destruct (chain_exists n uf2 (cell n i) Hinv Hj) as (l0 & r0 & Hc0 & Hlen).
  destruct (chain_det _ _ _ _ _ _ Hc Hc0) as [<- <-].
  pose proof (uf_inv_closed n _ Hinv) as Hcl.
  destruct uf1 as [p1 rk1 acc1]. simpl in Hp, Hrk. subst p1 rk1.
  destruct (decide (i < 0)) as [Hneg|Hpos].
  - destruct (find_negative (parent uf2) (rank uf2) acc1 i l r
                Hcl Hi Hneg Hc Hlen) as (acc' & Hf1).
    eexists r, _, uf2'. split_and!; [exact Hf1|done| |done].
    split; simpl; congruence.
  - assert (Hcell : cell n i = i) by (unfold cell; by rewrite decide_False).
    rewrite Hcell in *.
    destruct Hcl as [Hlp Hpr].
    destruct (find_rec_chain n (parent uf2) (rank uf2) i l r Hlp Hpr Hj Hc
                (S (length (parent uf2))) acc1) as (tr & Hf1 & _); [lia|].
    eexists r, _, uf2'. split_and!; [exact Hf1|done| |done].
    split; simpl; congruence.
Qed.

Lemma find_invalid uf i :
  length (parent uf) = Z.to_nat (n + 1) → ¬ valid_subscript n i →
  find i uf = Raise IndexError.
Proof.
  intros Hl Hi. unfold find. rewrite find_rec_unfold.
  apply bind_Raise. unfold parent_get, py_getitem.
  by rewrite Hl, py_index_invalid.
Qed.

(** [union] under valid subscripts: what it does under the cells' own
    subscripts. *)
Lemma union_cell uf1 uf2 i j :
  uf_inv n uf2 → same_lists uf1 uf2 →
  valid_subscript n i → valid_subscript n j →
  ∃ (merged : bool) uf1' uf2',
    union i j uf1 = Ok (merged, uf1') ∧
    union (cell n i) (cell n j) uf2 = Ok (merged, uf2') ∧
    same_lists uf1' uf2' ∧ uf_inv n uf2'.
Proof.
  intros Hinv Hsame Hi Hj.
  destruct (find_cell uf1 uf2 i Hinv Hsame Hi)
    as (ri & u1 & u2 & Hf1 & Hf2 & Hsame' & Hinv').
  destruct (find_cell u1 u2 j Hinv' Hsame' Hj)
    as (rj & v1 & v2 & Hg1 & Hg2 & Hsame'' & Hinv'').
  destruct (union_spec n uf2 (cell n i) (cell n j) Hinv
              (cell_in_range i Hi) (cell_in_range j Hj))
    as (m & uf2' & Hu & Hinv2 & _).
  pose proof (link_same ri rj v1 v2 Hsame'') as Hlink.
  rewrite <- (union_link i j uf1 ri u1 rj v1 Hf1 Hg1) in Hlink.
  rewrite <- (union_link _ _ uf2 ri u2 rj v2 Hf2 Hg2), Hu in Hlink.
  destruct (union i j uf1) as [[m1 uf1']|e]; [|done].
  destruct Hlink as [-> Hl]. by exists m, uf1', uf2'.
Qed.

Lemma union_invalid uf1 uf2 i j :
  uf_inv n uf2 → same_lists uf1 uf2 →
  ¬ (valid_subscript n i ∧ valid_subscript n j) →
  union i j uf1 = Raise IndexError.
Proof.
  intros Hinv Hsame Hij. unfold union.
  assert (Hl : ∀ u1 u2, uf_inv n u2 → same_lists u1 u2 →
                        length (parent u1) = Z.to_nat (n + 1)).
  { intros u1 u2 Hu [-> _]. apply Hu. }
  destruct (decide (valid_subscript n i)) as [Hi|Hi].
  - destruct (find_cell uf1 uf2 i Hinv Hsame Hi)
      as (ri & u1 & u2 & Hf1 & _ & Hsame' & Hinv').
    rewrite (bind_Ok _ _ _ _ _ Hf1). cbv beta.
    apply bind_Raise, find_invalid; [by eapply Hl|tauto].
  - apply bind_Raise, find_invalid; [by eapply Hl|done].
Qed.
End Subscripts.

Section Endpoints.
Context (n : Z).
Implicit Types (es : list edge) (e : edge) (uf : UnionFind).


Lemma kruskal_loop_invalid es :
  ∀ uf1 uf2 acc cnt,
    uf_inv n uf2 → same_lists uf1 uf2 → Exists (λ e, ¬ valid_edge n e) es →
    kruskal_loop es acc cnt uf1 = Raise IndexError.
Proof.
  induction es as [|[[u v] w] es IH]; intros uf1 uf2 acc cnt Hinv Hsame Hes.
  - by apply Exists_nil in Hes.
  - simpl.
    destruct (decide (valid_subscript n u ∧ valid_subscript n v)) as [[Hu Hv]|Hbad].
    + apply Exists_cons in Hes as [Hes|Hes]; [destruct Hes; by split|].
      destruct (union_cell n uf1 uf2 u v Hinv Hsame Hu Hv)
        as (m & u1 & u2 & Hu1 & _ & Hsame' & Hinv').
      rewrite (bind_Ok _ _ _ _ _ Hu1).
      destruct m; by eapply IH.
    + apply bind_Raise. by eapply union_invalid.
Qed.

End Endpoints.

Section RunKruskal.
Implicit Types (N : Z) (edges : list edge).


Lemma run_kruskal_invalid N edges :
  Exists (λ e, ¬ valid_edge N e) edges →
  run_kruskal N edges = Raise IndexError.
Proof.
  intros Hes. unfold run_kruskal.
  rewrite (kruskal_loop_invalid N (sorted_by_weight edges)
             (UnionFind_init N) (UnionFind_init N) 0 0); [done|..].
  - apply init_inv.
  - apply same_lists_refl.
  - apply Exists_exists in Hes as (e & He & Hbad). apply Exists_exists.
    exists e. split; [|done]. by rewrite sorted_by_weight_perm.
Qed.

Global Instance valid_edge_dec N e : Decision (valid_edge N e).
Proof. unfold valid_edge, valid_subscript. apply _. Defined.
End RunKruskal.

(** ** Order, direction and repetition of the edges *)

Section Undirected.
Implicit Types (L P : list (Z * Z)) (S E : list edge) (e : edge) (x y : Z).

Lemma flip_flip e : flip (flip e) = e.
Proof. by destruct e as [[u v] w]. Qed.

Lemma same_graph_sym E E' : same_graph E E' → same_graph E' E.
Proof. intros H e. symmetry. apply H. Qed.

Lemma same_graph_Forall E E' :
  Forall (λ e, e ∈ E' ∨ flip e ∈ E') E →
  Forall (λ e, e ∈ E ∨ flip e ∈ E) E' →
  same_graph E E'.
Proof.
  rewrite !Forall_forall. intros H H' e. split.
  - intros [He|He]; [by apply H|].
    destruct (H _ He) as [?|?]; [by right|left]. by rewrite <- (flip_flip e).
  - intros [He|He]; [by apply H'|].
    destruct (H' _ He) as [?|?]; [by right|left]. by rewrite <- (flip_flip e).
Qed.

(** Walks do not depend on the direction in which the pairs are given. *)
Lemma conn_undirected L L' x y :
  (∀ p, p ∈ L → p ∈ L' ∨ (p.2, p.1) ∈ L') → conn L x y → conn L' x y.
Proof.
  intros H. induction 1 as [|x y z Hxy _ IH]; [apply conn_refl|].
  eapply conn_step; [|exact IH].
  destruct Hxy as [Hxy|Hxy]; apply H in Hxy; simpl in Hxy; tauto.
Qed.

Lemma same_graph_conn E E' x y :
  same_graph E E' → conn (ends <$> E) x y → conn (ends <$> E') x y.
Proof.
  intros H. apply conn_undirected.
  intros p (e & -> & He)%list_elem_of_fmap.
  destruct (proj1 (H e) (or_introl He)) as [He'|He'].
  - left. apply list_elem_of_fmap. by exists e.
  - right. apply list_elem_of_fmap. by exists (flip e).
Qed.

Lemma direct_cases E' e : direct E' e = e ∨ direct E' e = flip e.
Proof. unfold direct. case_decide; auto. Qed.

Lemma direct_in E E' e : same_graph E E' → e ∈ E → direct E' e ∈ E'.
Proof.
  intros H He. unfold direct. case_decide as Hin; [done|].
  destruct (proj1 (H e) (or_introl He)); done.
Qed.

Lemma weight_direct E' e : weight (direct E' e) = weight e.
Proof. by destruct (direct_cases E' e) as [->| ->]. Qed.

Lemma total_weight_direct E' S :
  total_weight (direct E' <$> S) = total_weight S.
Proof.
  induction S as [|e S IH]; [done|].
  change (weight (direct E' e) + total_weight (direct E' <$> S)
          = weight e + total_weight S).
  by rewrite weight_direct, IH.
Qed.

Lemma conn_direct E' S P x y :
  conn ((ends <$> (direct E' <$> S)) ++ P) x y ↔ conn ((ends <$> S) ++ P) x y.
Proof.
  split; apply conn_undirected; intros p; rewrite !elem_of_app.
  - intros [(e' & -> & (e & -> & He)%list_elem_of_fmap)%list_elem_of_fmap|?];
      [|tauto].
    destruct (direct_cases E' e) as [->| ->].
    + left. left. apply list_elem_of_fmap. by exists e.
    + right. left. apply list_elem_of_fmap. by exists e.
  - intros [(e & -> & He)%list_elem_of_fmap|?]; [|tauto].
    destruct (direct_cases E' e) as [Hd|Hd].
    + left. left. apply list_elem_of_fmap. exists (direct E' e).
      split; [by rewrite Hd|]. apply list_elem_of_fmap. by exists e.
    + right. left. apply list_elem_of_fmap. exists (direct E' e).
      split; [by rewrite Hd|]. apply list_elem_of_fmap. by exists e.
Qed.

Lemma conn_ends_direct E' L e :
  conn L (src (direct E' e)) (dst (direct E' e)) ↔ conn L (src e) (dst e).
Proof.
  destruct (direct_cases E' e) as [->| ->]; [done|].
  split; apply conn_sym.
Qed.

Lemma forest_mod_direct E' P S :
  forest_mod P S → forest_mod P (direct E' <$> S).
Proof.
  induction S as [|e S IH]; [done|]. intros [HF He]. split; [by apply IH|].
  change (¬ conn ((ends <$> (direct E' <$> S)) ++ P)
              (src (direct E' e)) (dst (direct E' e))).
  by rewrite conn_ends_direct, conn_direct.
Qed.

(** A spanning forest of one description of the graph gives one of the
    other, of the same weight. *)
Lemma basis_same_graph E E' S :
  same_graph E E' → basis (λ e, e ∈ E) [] S →
  basis (λ e, e ∈ E') [] (direct E' <$> S).
Proof.
  intros H [Hsub HF Hspan]. split.
  - intros e' (e & -> & He)%list_elem_of_fmap. eapply direct_in; [done|auto].
  - by apply forest_mod_direct.
  - intros e' He'. rewrite conn_direct.
    destruct (proj2 (H e') (or_introl He')) as [He|He]; [by apply Hspan|].
    apply conn_sym. apply (Hspan (flip e') He).
Qed.

Lemma min_basis_same_graph E E' w :
  same_graph E E' →
  min_basis (λ e, e ∈ E) [] w → min_basis (λ e, e ∈ E') [] w.
Proof.
  intros H [(S & HS & <-) Hmin]. split.
  - exists (direct E' <$> S). split; [by apply (basis_same_graph E)|].
    apply total_weight_direct.
  - intros S' HS'. rewrite <- (total_weight_direct E S').
    apply Hmin. apply (basis_same_graph E'); [by apply same_graph_sym|done].
Qed.

Lemma same_graph_in_range n E E' :
  same_graph E E' →
  (∀ e, e ∈ E → in_range n (src e) ∧ in_range n (dst e)) →
  ∀ e, e ∈ E' → in_range n (src e) ∧ in_range n (dst e).
Proof.
  intros H HE e He.
  destruct (proj2 (H e) (or_introl He)) as [He'|He']; [auto|].
  destruct (HE _ He') as [? ?]. by split.
Qed.

Lemma same_graph_adj_matches E E' (a : gmap Z (list (Z * Z))) :
  same_graph E E' → adj_matches E' a → adj_matches E a.
Proof.
  intros H Ha u v w. rewrite (Ha u v w). symmetry. apply (H (u, v, w)).
Qed.

Lemma least_weight_unique (Q : list edge → Prop) w w' :
  least_weight Q w → least_weight Q w' → w = w'.
Proof.
  intros [(T & HT & <-) Hmin] [(T' & HT' & <-) Hmin'].
  specialize (Hmin _ HT'). specialize (Hmin' _ HT). lia.
Qed.

Lemma run_kruskal_same_graph N E E' :
  (∀ e, e ∈ E → in_range N (src e) ∧ in_range N (dst e)) →
  same_graph E E' → run_kruskal N E = run_kruskal N E'.
Proof.
  intros HE H.
  destruct (run_kruskal_spec N E HE) as (w & _ & _ & _ & _ & Hrun & Hmin).
  destruct (run_kruskal_spec N E' (same_graph_in_range N E E' H HE))
    as (w' & _ & _ & _ & _ & Hrun' & Hmin').
  rewrite Hrun, Hrun'. f_equal.
  eapply min_basis_unique; [|exact Hmin'].
  by apply (min_basis_same_graph E).
Qed.

(** Without a vertex to visit [run_prim] returns at its first test. *)
Lemma run_prim_no_vertex N (adj0 : gmap Z (list (Z * Z))) :
  N ≤ 0 → run_prim N adj0 = Some (0, adj0).
Proof.
  intros HN. unfold run_prim, prim_final.
  replace (adj_entries adj0 + 2)%nat with (S (adj_entries adj0 + 1)) by lia.
  cbn [prim_loop]. rewrite prim_step_eq.
  cbn [pq visited mst_weight adj].
  rewrite size_empty. by rewrite decide_False by lia.
Qed.

Lemma run_prim_same_graph N E (adj0 adj0' : gmap Z (list (Z * Z))) :
  wf_edges N E → adj_matches E adj0 → adj_matches E adj0' →
  fst <$> run_prim N adj0 = fst <$> run_prim N adj0'.
Proof.
  intros Hwf Ha Ha'.
  destruct (decide (1 ≤ N)) as [HN|HN];
    [|by rewrite !run_prim_no_vertex by lia].
  destruct (run_prim_component N E adj0 HN Hwf Ha) as (st & Hf & Hw & _).
  destruct (run_prim_component N E adj0' HN Hwf Ha') as (st' & Hf' & Hw' & _).
  rewrite (run_prim_final _ _ _ Hf), (run_prim_final _ _ _ Hf'). simpl.
  f_equal. by eapply least_weight_unique.
Qed.
End Undirected.

Section Rest.
Context (N : Z) (edges : list edge).
Hypothesis Hwf : wf_edges N edges.

Lemma outside_filter :
  outside edges (filter (λ e, ¬ conn (ends <$> edges) 1 (src e)) edges).
Proof. intros e. rewrite list_elem_of_filter. tauto. Qed.


End Rest.

(** ** A second run of [run_prim] *)

Section Again.
Context (N : Z).
Implicit Types (st : prim_state) (a : gmap Z (list (Z * Z))).

Lemma prim_step_same_run st1 st2 :
  same_run st1 st2 →
  match prim_step N st1, prim_step N st2 with
  | Some st1', Some st2' => same_run st1' st2'
  | None, None => True
  | _, _ => False
  end.
Proof.
  destruct st1 as [q V m a1], st2 as [q2 V2 m2 a2].
  intros (Hq & HV & Hm & Ha). simpl in *. subst q2 V2 m2.
  rewrite !prim_step_eq. simpl.
  destruct q as [|[w u] q']; [done|].
  case_decide; [|done]. case_decide; [done|].
  pose proof (adj_getitem_fst a1 u) as H1.
  pose proof (adj_getitem_list a1 u) as L1.
  pose proof (adj_getitem_fst a2 u) as H2.
  pose proof (adj_getitem_list a2 u) as L2.
  destruct (adj_getitem a1 u) as [n1 a1'], (adj_getitem a2 u) as [n2 a2'].
  simpl in *. subst n1 n2. split_and!; simpl; [by rewrite Ha|done..|].
  intros k. by rewrite L1, L2.
Qed.

Lemma prim_loop_same_run fuel1 :
  ∀ fuel2 st1 st2 r1 r2,
    same_run st1 st2 →
    prim_loop fuel1 N st1 = Some r1 → prim_loop fuel2 N st2 = Some r2 →
    same_run r1 r2.
Proof.
  induction fuel1 as [|fuel1 IH]; intros fuel2 st1 st2 r1 r2 Hs; [done|].
  destruct fuel2 as [|fuel2]; [done|]. simpl.
  pose proof (prim_step_same_run st1 st2 Hs) as Hstep.
  destruct (prim_step N st1) as [st1'|], (prim_step N st2) as [st2'|];
    try done.
  - by apply IH.
  - by intros [= <-] [= <-].
Qed.

(** A second run on the adjacency that a first run has left. *)
Lemma prim_final_again a0 st :
  prim_final N a0 = Some st →
  prim_final N (adj st) = Some (mkPrim (pq st) (visited st) (mst_weight st) (adj st)).
Proof.
  intros Hf.
  pose proof (pf_adj _ _ (prim_final_frame N a0 st Hf)) as Ht.
  destruct (prim_final_returns N (adj st)) as [st2 Hf2].
  pose proof (pf_adj _ _ (prim_final_frame N (adj st) st2 Hf2)) as Ht2.
  rewrite Hf2. f_equal.
  assert (Hs : same_run st st2).
  { unfold prim_final in Hf, Hf2.
    eapply prim_loop_same_run; [|exact Hf|exact Hf2].
    split_and!; simpl; [done..|].
    intros k. symmetry. by eapply adj_touched_list. }
  destruct Hs as (Hq & HV & Hm & _).
  destruct st2 as [q2 V2 m2 a2]. simpl in *. subst q2 V2 m2. f_equal.
  apply map_eq. intros k. rewrite (Ht2 k).
  destruct (adj st !! k) as [l|] eqn:Hk; [done|].
  case_decide as Hin; [|done]. rewrite (Ht k) in Hk.
  destruct (a0 !! k); [done|]. by rewrite decide_True in Hk.
Qed.
End Again.

Section Visited.
Context (N : Z) (edges : list edge).
Hypothesis Hwf : wf_edges N edges.

(** When the loop is left, it has visited the connected component of the
    vertex [1]. *)
Lemma prim_exit_visited st P v :
  prim_inv N edges st P → prim_step N st = None →
  (v ∈ visited st ↔ conn (ends <$> edges) 1 v).
Proof.
  intros Hinv Hstep. split.
  { intros Hv. by apply (pi_graph _ _ _ _ Hinv), (pi_tree _ _ _ _ Hinv). }
  destruct st as [q V m a]. destruct Hinv as
    [Hsorted Hstart Hrange Htree Hinside Hgraph Hqueue Hfront Hadj Hopt].
  simpl in *. rewrite prim_step_eq in Hstep. simpl in Hstep.
  assert (Hcases : q = [] ∨ ¬ Z.of_nat (size V) < N).
  { destruct q as [|[w u] q']; [by left|]. right.
    case_decide; [|done]. case_decide; [done|].
    by destruct (adj_getitem a u). }
  destruct Hcases as [-> |Hfull].
  - assert (Hclosed : ∀ x z, conn (ends <$> edges) x z → x ∈ V → z ∈ V).
    { intros x z. induction 1 as [|x y z Hxy _ IH]; [done|].
      intros Hx. apply IH.
      destruct (decide (y ∈ V)) as [|Hy]; [done|]. exfalso.
      assert (Hin : ∃ w, (w, y) ∈ adj_list a x).
      { destruct Hxy as [Hxy|Hxy];
          apply list_elem_of_fmap in Hxy as (f & Hf & Hin);
          injection Hf as -> ->;
          destruct (edge_adj_entry edges a f Hadj Hin); eauto. }
      destruct Hin as [w Hin].
      by pose proof (Hfront x w y Hx Hin Hy) as ?%elem_of_nil. }
    intros Hc. by eapply Hclosed.
  - intros Hc.
    destruct (conn_wf_range N edges 1 v Hwf Hc) as [<-|[_ Hv]]; [done|].
    destruct (decide (v ∈ V)) as [|Hnin]; [done|].
    destruct Hfull. by eapply visited_size_lt.
Qed.
End Visited.

(** ** The loop of [read_dimacs_graph] *)

Section Lines.
Context (max_str_digits : Z).
Implicit Types (line : string) (lines : list string) (st : loader_state).
Implicit Types (parts : list string) (k : nat) (e : error).

Lemma field_error_value parts k :
  match int_field max_str_digits parts k with
  | Returns z => field_value max_str_digits parts k = Some z
                 ∧ field_error max_str_digits parts k = None
  | Raises e => field_value max_str_digits parts k = None
                ∧ field_error max_str_digits parts k = Some e
                ∧ (e = Core IndexError ∨ e = ValueError)
  end.
Proof.
  unfold field_error, field_value, int_field.
  destruct (parts !! k) as [s|]; simpl; [|by auto].
  destruct (py_int max_str_digits s); by auto.
Qed.

(** One line: the state it leaves or the exception it raises. *)
Lemma read_line_eq st line :
  read_line max_str_digits st line
  = match line_error max_str_digits line with
    | Some e => Raises e
    | None =>
        Returns (default st.1.1 (line_nodes max_str_digits line),
                 st.1.2 ++ option_list (line_arc max_str_digits line),
                 from_option (adj_add st.2) st.2
                   (line_arc max_str_digits line))
    end.
Proof.
  destruct st as [[n es] a].
  unfold read_line, line_error, needed, line_nodes, line_arc. simpl.
  destruct (String.prefix "p" line).
  { pose proof (field_error_value (py_split line) 2) as H2.
    destruct (int_field _ _ 2) as [z|e]; simpl.
    - destruct H2 as [-> ->]. simpl. by rewrite app_nil_r.
    - by destruct H2 as (_ & -> & _). }
  destruct (String.prefix "a" line); [|by rewrite app_nil_r].
  pose proof (field_error_value (py_split line) 1) as H1.
  pose proof (field_error_value (py_split line) 2) as H2.
  pose proof (field_error_value (py_split line) 3) as H3.
  destruct (int_field _ _ 1) as [u|e]; simpl;
    [destruct H1 as [-> ->]|by destruct H1 as (_ & -> & _)].
  destruct (int_field _ _ 2) as [v|e]; simpl;
    [destruct H2 as [-> ->]|by destruct H2 as (_ & -> & _)].
  destruct (int_field _ _ 3) as [w|e]; simpl;
    [destruct H3 as [-> ->]|by destruct H3 as (_ & -> & _)].
  done.
Qed.

Lemma line_error_cases line e :
  line_error max_str_digits line = Some e →
  e = Core IndexError ∨ e = ValueError.
Proof.
  unfold line_error. intros H.
  apply head_Some_elem_of, list_elem_of_omap in H as (k & _ & Hk).
  pose proof (field_error_value (py_split line) k) as Hf.
  destruct (int_field _ _ k); [destruct Hf; congruence|].
  destruct Hf as (_ & Hf & Hcases). congruence.
Qed.

Lemma line_error_irrelevant line :
  relevant line = false → line_error max_str_digits line = None.
Proof.
  unfold relevant, line_error, needed. intros [-> ->]%orb_false_elim. done.
Qed.

Lemma line_nodes_irrelevant line :
  relevant line = false → line_nodes max_str_digits line = None.
Proof. unfold relevant, line_nodes. by intros [-> _]%orb_false_elim. Qed.

Lemma line_arc_irrelevant line :
  relevant line = false → line_arc max_str_digits line = None.
Proof. unfold relevant, line_arc. by intros [-> ->]%orb_false_elim. Qed.

(** The loop, from any state. *)
Lemma read_lines_eq lines :
  ∀ st,
    read_lines max_str_digits lines st
    = match first_error max_str_digits lines with
      | Some e => Raises e
      | None =>
          Returns (default st.1.1 (last (omap (line_nodes max_str_digits) lines)),
                   st.1.2 ++ omap (line_arc max_str_digits) lines,
                   foldl adj_add st.2 (omap (line_arc max_str_digits) lines))
      end.
Proof.
  induction lines as [|line lines IH]; intros [[n es] a].
  { simpl. by rewrite app_nil_r. }
  cbn [read_lines]. rewrite read_line_eq. unfold first_error.
  cbn [omap list_omap].
  destruct (line_error max_str_digits line) as [e|]; [done|].
  rewrite IH. fold (first_error max_str_digits lines).
  destruct (first_error max_str_digits lines) as [e|]; [done|].
  cbn [fst snd]. f_equal. f_equal; [f_equal|].
  - destruct (line_nodes max_str_digits line) as [n'|]; [|done].
    rewrite last_cons.
    by destruct (last (omap (line_nodes max_str_digits) lines)).
  - destruct (line_arc max_str_digits line); simpl;
      [by rewrite <- app_assoc|by rewrite app_nil_r].
  - by destruct (line_arc max_str_digits line).
Qed.

Lemma read_lines_graph lines :
  read_lines max_str_digits lines (0, [], ∅)
  = match first_error max_str_digits lines with
    | Some e => Raises e
    | None => Returns (graph_of_lines max_str_digits lines)
    end.
Proof. by rewrite read_lines_eq. Qed.

Lemma first_error_cases lines e :
  first_error max_str_digits lines = Some e →
  ∃ l1 bad l2,
    lines = l1 ++ bad :: l2 ∧
    Forall (λ l, line_error max_str_digits l = None) l1 ∧
    line_error max_str_digits bad = Some e.
Proof.
  unfold first_error. induction lines as [|line lines IH]; [done|]. simpl.
  destruct (line_error max_str_digits line) as [e'|] eqn:He.
  - intros [= <-]. by exists [], line, lines.
  - intros (l1 & bad & l2 & -> & Hl1 & Hbad)%IH.
    exists (line :: l1), bad, l2. split_and!; [done| |done].
    by constructor.
Qed.

Lemma first_error_prefix l1 bad l2 e :
  Forall (λ l, line_error max_str_digits l = None) l1 →
  line_error max_str_digits bad = Some e →
  first_error max_str_digits (l1 ++ bad :: l2) = Some e.
Proof.
  unfold first_error. intros Hl1 Hbad.
  induction Hl1 as [|l l1 Hl _ IH]; simpl; [by rewrite Hbad|by rewrite Hl].
Qed.

Lemma first_error_none lines :
  first_error max_str_digits lines = None ↔
  Forall (λ l, line_error max_str_digits l = None) lines.
Proof.
  unfold first_error. induction lines as [|line lines IH]; simpl.
  - split; [constructor|done].
  - destruct (line_error max_str_digits line) eqn:He.
    + split; [done|]. intros [? _]%Forall_cons. congruence.
    + rewrite IH. split; [by constructor|by intros [_ ?]%Forall_cons].
Qed.

Lemma omap_filter_relevant {A} (f : string → option A) lines :
  (∀ l, relevant l = false → f l = None) →
  omap f (filter (λ l, relevant l = true) lines) = omap f lines.
Proof.
  intros Hf. induction lines as [|l lines IH]; [done|].
  rewrite filter_cons. destruct (relevant l) eqn:Hl.
  - rewrite decide_True by done. cbn [omap list_omap]. by rewrite IH.
  - rewrite decide_False by done. cbn [omap list_omap].
    by rewrite IH, (Hf l Hl).
Qed.

(** The lines that start with neither letter change nothing. *)
Lemma read_lines_relevant lines st :
  read_lines max_str_digits (filter (λ l, relevant l = true) lines) st
  = read_lines max_str_digits lines st.
Proof.
  rewrite !read_lines_eq. unfold first_error.
  rewrite !omap_filter_relevant; [done|..].
  - apply line_arc_irrelevant.
  - apply line_nodes_irrelevant.
  - apply line_error_irrelevant.
Qed.
End Lines.

(** ** Reading back a written graph *)

(** ** The DIMACS format *)

Section Numerals.
Implicit Types (s t tail word : string) (c : ascii) (n d v k z : Z).

Lemma append_cons c s t : String c s +:+ t = String c (s +:+ t).
Proof. done. Qed.

Lemma append_assoc s t u : (s +:+ t) +:+ u = s +:+ (t +:+ u).
Proof.
  induction s as [|c s IH]; [done|]. by rewrite !append_cons, IH.
Qed.

Lemma append_nil_r s : s +:+ "" = s.
Proof. induction s as [|c s IH]; [done|]. by rewrite append_cons, IH. Qed.

Lemma ord_digit_char d : 0 ≤ d ≤ 9 → ord (digit_char d) = 48 + d.
Proof.
  intros Hd. unfold ord, digit_char. rewrite N_ascii_embedding; lia.
Qed.

Lemma digit_digit_char d : 0 ≤ d ≤ 9 → digit (digit_char d) = Some d.
Proof.
  intros Hd. unfold digit. rewrite ord_digit_char by done.
  rewrite decide_True by lia. f_equal. lia.
Qed.

Lemma isspace_digit_char d : 0 ≤ d ≤ 9 → isspace (digit_char d) = false.
Proof.
  intros Hd. unfold isspace. rewrite ord_digit_char by done.
  apply bool_decide_eq_false. lia.
Qed.

Lemma int_space_digit_char d : 0 ≤ d ≤ 9 → int_space (digit_char d) = false.
Proof.
  intros Hd. unfold int_space. rewrite ord_digit_char by done.
  apply bool_decide_eq_false. lia.
Qed.

Lemma digit_char_not c d : 0 ≤ d ≤ 9 → ¬ (48 ≤ ord c ≤ 57) → digit_char d ≠ c.
Proof. intros Hd Hc <-. rewrite ord_digit_char in Hc by done. lia. Qed.

Lemma numeral_from_S fuel n tail :
  numeral_from (S fuel) n tail
  = if decide (n < 10) then String (digit_char (n mod 10)) tail
    else numeral_from fuel (n / 10) (String (digit_char (n mod 10)) tail).
Proof. done. Qed.

(** The numeral starts with a digit. *)
Lemma numeral_from_head fuel n tail :
  0 ≤ n → ∃ d s, 0 ≤ d ≤ 9 ∧ numeral_from (S fuel) n tail = String (digit_char d) s.
Proof.
  revert n tail. induction fuel as [|fuel IH]; intros n tail Hn.
  - simpl. pose proof (Z.mod_pos_bound n 10 ltac:(lia)).
    case_decide; eexists _, _; (split; [|done]); lia.
  - rewrite numeral_from_S. case_decide.
    + pose proof (Z.mod_pos_bound n 10 ltac:(lia)).
      eexists _, _; (split; [|done]); lia.
    + apply IH. apply Z.div_pos; lia.
Qed.

Lemma no_space_numeral_from fuel n tail :
  0 ≤ n → no_space tail = true → no_space (numeral_from fuel n tail) = true.
Proof.
  revert n tail. induction fuel as [|fuel IH]; intros n tail Hn Ht; [done|].
  rewrite numeral_from_S.
  pose proof (Z.mod_pos_bound n 10 ltac:(lia)).
  assert (Ht' : no_space (String (digit_char (n mod 10)) tail) = true).
  { simpl. rewrite isspace_digit_char by lia. done. }
  case_decide; [done|]. apply IH; [|done]. apply Z.div_pos; lia.
Qed.

(** Reading the numeral back: [k] digits, which make [n]. *)
Lemma scan_numeral_from fuel :
  ∀ n tail (b : bool) v d,
    0 ≤ n < 2 ^ Z.of_nat (S fuel) →
    ∃ k, 1 ≤ k ∧ (k = 1 ∨ 10 ^ (k - 1) ≤ n) ∧
         scan_digits b v d (numeral_from (S fuel) n tail)
         = scan_digits false (v * 10 ^ k + n) (d + k) tail.
Proof.
  induction fuel as [|fuel IH]; intros n tail b v d Hn.
  - assert (n < 10) by (change (2 ^ Z.of_nat 1) with 2 in Hn; lia).
    exists 1. cbn [numeral_from]. rewrite decide_True by done.
    cbn [scan_digits]. rewrite Z.mod_small by lia.
    rewrite digit_digit_char by lia.
    split_and!; [lia|by left|]. f_equal; lia.
  - rewrite numeral_from_S. destruct (decide (n < 10)) as [Hlt|Hge].
    + exists 1. cbn [scan_digits]. rewrite Z.mod_small by lia.
      rewrite digit_digit_char by lia.
      split_and!; [lia|by left|]. f_equal; lia.
    + pose proof (Z.mod_pos_bound n 10 ltac:(lia)) as Hmod.
      pose proof (Z.div_mod n 10 ltac:(lia)) as Hdiv.
      destruct (IH (n / 10) (String (digit_char (n mod 10)) tail) b v d)
        as (k & Hk & Hlow & Hscan).
      { split; [apply Z.div_pos; lia|].
        rewrite Nat2Z.inj_succ, Z.pow_succ_r in Hn by lia.
        apply Z.div_lt_upper_bound; lia. }
      exists (k + 1). rewrite Hscan. cbn [scan_digits].
      rewrite digit_digit_char by lia.
      split_and!; [lia| |].
      * right. replace (k + 1 - 1) with k by lia.
        destruct Hlow as [->|Hlow]; [lia|].
        replace k with (Z.succ (k - 1)) by lia.
        rewrite Z.pow_succ_r by lia. lia.
      * rewrite Z.pow_add_r, Z.pow_1_r by lia. f_equal; lia.
Qed.

Lemma numeral_bound n : 0 ≤ n → n < 2 ^ Z.of_nat (S (Z.to_nat (Z.log2 n))).
Proof.
  intros Hn. rewrite Nat2Z.inj_succ, Z2Nat.id by apply Z.log2_nonneg.
  destruct (decide (n = 0)) as [->|]; [done|].
  apply Z.log2_spec. lia.
Qed.

Lemma scan_numeral n tail (b : bool) v d :
  0 ≤ n →
  ∃ k, 1 ≤ k ∧ (k = 1 ∨ 10 ^ (k - 1) ≤ n) ∧
       scan_digits b v d (numeral n +:+ tail)
       = scan_digits false (v * 10 ^ k + n) (d + k) tail.
Proof.
  intros Hn. unfold numeral.
  assert (Happ : ∀ fuel m t, numeral_from fuel m t +:+ tail
                             = numeral_from fuel m (t +:+ tail)).
  { induction fuel as [|fuel IH]; intros m t; [done|].
    rewrite !numeral_from_S. case_decide; [done|]. by rewrite IH. }
  rewrite Happ. apply scan_numeral_from. split; [done|by apply numeral_bound].
Qed.

Lemma numeral_head n :
  0 ≤ n → ∃ d s, 0 ≤ d ≤ 9 ∧ numeral n = String (digit_char d) s.
Proof. intros Hn. by apply numeral_from_head. Qed.

Lemma no_space_numeral n : 0 ≤ n → no_space (numeral n) = true.
Proof. intros Hn. unfold numeral. by apply no_space_numeral_from. Qed.

Lemma no_space_show z : no_space (show z) = true.
Proof.
  unfold show. case_decide.
  - cbn [no_space]. by rewrite no_space_numeral by lia.
  - apply no_space_numeral. lia.
Qed.

Lemma show_nonempty z : show z ≠ "".
Proof.
  unfold show. case_decide; [done|].
  destruct (numeral_head z) as (d & s & _ & ->); [lia|done].
Qed.

Lemma digits_fit max_str_digits n k :
  0 ≤ n → fits max_str_digits n → 1 ≤ k → (k = 1 ∨ 10 ^ (k - 1) ≤ n) →
  ¬ (640 < k ∧ 0 < max_str_digits ∧ max_str_digits < k).
Proof.
  intros Hn Hfit Hk Hlow (H640 & Hmax & Hlt).
  destruct Hlow as [->|Hlow]; [lia|].
  unfold fits in Hfit. rewrite Z.abs_eq in Hfit by done.
  assert (Hpow : ∀ m, 0 ≤ m → n < 10 ^ m → k - 1 < m).
  { intros m Hm Hnm. apply (Z.pow_lt_mono_r_iff 10); lia. }
  destruct Hfit as [H|[H|H]]; [|lia|].
  - specialize (Hpow 640 ltac:(lia) H). lia.
  - specialize (Hpow max_str_digits ltac:(lia) H). lia.
Qed.

(** [int(str(z)) == z], within the interpreter's limit. *)
Lemma py_int_show max_str_digits z :
  fits max_str_digits z → py_int max_str_digits (show z) = Some z.
Proof.
  intros Hfit. unfold py_int, show.
  destruct (decide (z < 0)) as [Hneg|Hpos].
  - cbn [lstrip]. change (int_space "-") with false. cbv iota.
    cbn [split_sign]. rewrite decide_False by done.
    rewrite decide_True by done.
    destruct (scan_numeral (- z) "" true 0 0 ltac:(lia))
      as (k & Hk & Hlow & Hscan).
    rewrite append_nil_r in Hscan. rewrite Hscan. cbn [scan_digits all_space].
    rewrite decide_False; [f_equal; lia|].
    apply (digits_fit _ (- z)); try done; [lia|].
    unfold fits in *. by rewrite Z.abs_opp.
  - destruct (numeral_head z ltac:(lia)) as (d0 & s0 & Hd0 & Hhead).
    destruct (scan_numeral z "" true 0 0 ltac:(lia))
      as (k & Hk & Hlow & Hscan).
    rewrite append_nil_r in Hscan. rewrite Hhead in *.
    cbn [lstrip]. rewrite int_space_digit_char by done.
    cbn [split_sign].
    rewrite decide_False
      by (apply digit_char_not; [done|change (ord "+") with 43; lia]).
    rewrite decide_False
      by (apply digit_char_not; [done|change (ord "-") with 45; lia]).
    rewrite Hscan. cbn [scan_digits all_space].
    rewrite decide_False; [f_equal; lia|].
    apply (digits_fit _ z); try done. lia.
Qed.
End Numerals.

Section Splitting.
Implicit Types (s t word : string) (c : ascii).

(** A word without white space is read in one piece. *)
Lemma split_from_word t : ∀ word s,
  no_space t = true →
  split_from word (t +:+ s) = split_from (word +:+ t) s.
Proof.
  induction t as [|c t IH]; intros word s Ht.
  - by rewrite append_nil_r.
  - simpl in Ht. apply andb_true_iff in Ht as [Hc Ht].
    apply negb_true_iff in Hc.
    rewrite append_cons.
    cbn [split_from]. rewrite Hc, IH by done.
    by rewrite append_assoc.
Qed.

Lemma split_from_space word c s :
  isspace c = true → word ≠ "" →
  split_from word (String c s) = word :: split_from "" s.
Proof. intros Hc Hw. cbn [split_from]. by rewrite Hc, decide_False. Qed.

(** A word and the white space after it. *)
Lemma split_word t c s :
  no_space t = true → t ≠ "" → isspace c = true →
  split_from "" (t +:+ String c s) = t :: split_from "" s.
Proof.
  intros Ht Hne Hc. rewrite split_from_word by done.
  by apply split_from_space.
Qed.

Lemma space_append s : " " +:+ s = String " " s.
Proof. done. Qed.

Lemma py_split_arc_line e :
  py_split (arc_line e)
  = ["a"; show (src e); show (dst e); show (weight e)].
Proof.
  unfold py_split, arc_line, newline. rewrite !space_append.
  change ("a " +:+ ?s) with ("a" +:+ String " " s).
  rewrite (split_word "a") by done. f_equal.
  rewrite split_word by (apply no_space_show || apply show_nonempty || done).
  f_equal.
  rewrite split_word by (apply no_space_show || apply show_nonempty || done).
  f_equal.
  by rewrite split_word by (apply no_space_show || apply show_nonempty || done).
Qed.

Lemma py_split_problem_line n m :
  py_split (problem_line n m) = ["p"; "sp"; show n; show m].
Proof.
  unfold py_split, problem_line, newline. rewrite !space_append.
  change ("p sp " +:+ ?s) with ("p" +:+ String " " ("sp" +:+ String " " s)).
  rewrite (split_word "p") by done. f_equal.
  rewrite (split_word "sp") by done. f_equal.
  rewrite split_word by (apply no_space_show || apply show_nonempty || done).
  f_equal.
  by rewrite split_word by (apply no_space_show || apply show_nonempty || done).
Qed.
End Splitting.

Section RoundTrip.
Context (max_str_digits : Z).
Implicit Types (e : edge) (es edges : list edge) (n m : Z).

Lemma line_error_arc_line e :
  fits_edge max_str_digits e → line_error max_str_digits (arc_line e) = None.
Proof.
  intros (Hu & Hv & Hw). unfold line_error, needed.
  change (String.prefix "p" (arc_line e)) with false.
  change (String.prefix "a" (arc_line e)) with true. cbv iota.
  rewrite py_split_arc_line. unfold field_error, int_field.
  cbn [omap list_omap lookup list_lookup].
  by rewrite !py_int_show.
Qed.

Lemma line_arc_arc_line e :
  fits_edge max_str_digits e → line_arc max_str_digits (arc_line e) = Some e.
Proof.
  intros (Hu & Hv & Hw). unfold line_arc.
  change (String.prefix "p" (arc_line e)) with false.
  change (String.prefix "a" (arc_line e)) with true. cbv iota zeta.
  rewrite py_split_arc_line. unfold field_value.
  cbn [lookup list_lookup mbind option_bind].
  rewrite !py_int_show by done. by destruct e as [[u v] w].
Qed.

Lemma line_nodes_arc_line e : line_nodes max_str_digits (arc_line e) = None.
Proof. done. Qed.

Lemma line_error_problem_line n m :
  fits max_str_digits n →
  line_error max_str_digits (problem_line n m) = None.
Proof.
  intros Hn. unfold line_error, needed.
  change (String.prefix "p" (problem_line n m)) with true. cbv iota.
  rewrite py_split_problem_line. unfold field_error, int_field.
  cbn [omap list_omap lookup list_lookup].
  by rewrite py_int_show.
Qed.

Lemma line_nodes_problem_line n m :
  fits max_str_digits n →
  line_nodes max_str_digits (problem_line n m) = Some n.
Proof.
  intros Hn. unfold line_nodes.
  change (String.prefix "p" (problem_line n m)) with true. cbv iota.
  rewrite py_split_problem_line. unfold field_value.
  cbn [lookup list_lookup mbind option_bind]. by rewrite py_int_show.
Qed.

Lemma line_arc_problem_line n m :
  line_arc max_str_digits (problem_line n m) = None.
Proof. done. Qed.

Lemma arc_lines es :
  Forall (fits_edge max_str_digits) es →
  first_error max_str_digits (arc_line <$> es) = None ∧
  omap (line_arc max_str_digits) (arc_line <$> es) = es ∧
  omap (line_nodes max_str_digits) (arc_line <$> es) = [].
Proof.
  unfold first_error.
  induction 1 as [|e es He _ (IH1 & IH2 & IH3)]; [done|].
  cbn [fmap list_fmap omap list_omap].
  rewrite line_error_arc_line, line_arc_arc_line, line_nodes_arc_line by done.
  by rewrite IH2.
Qed.

Lemma read_dimacs_lines n edges :
  fits max_str_digits n → Forall (fits_edge max_str_digits) edges →
  read_lines max_str_digits (dimacs_lines n edges) (0, [], ∅)
  = Returns (n, edges, build_adj edges).
Proof.
  intros Hn Hes. destruct (arc_lines edges Hes) as (H1 & H2 & H3).
  rewrite read_lines_graph. unfold dimacs_lines, first_error, graph_of_lines.
  cbn [omap list_omap].
  rewrite line_error_problem_line, line_arc_problem_line,
    line_nodes_problem_line by done.
  fold (first_error max_str_digits (arc_line <$> edges)).
  by rewrite H1, H2, H3.
Qed.
End RoundTrip.

(** ** The loop of [benchmark] *)

Section Allocation.
Context (lim : limits).
Implicit Types (N : Z) (edges : list edge).

Lemma UnionFind_new_eq N :
  UnionFind_new lim N
  = if decide (Z.pos (maxsize lim) < N + 1) then Raises OverflowError
    else if decide (Z.pos (max_cells lim) < N + 1) then Raises MemoryError
    else Returns (UnionFind_init N).
Proof. done. Qed.

Lemma UnionFind_new_allocates N :
  allocates lim N → UnionFind_new lim N = Returns (UnionFind_init N).
Proof.
  intros [H1 H2]. unfold UnionFind_new.
  rewrite decide_False by lia. by rewrite decide_False by lia.
Qed.

Lemma UnionFind_new_cases N :
  allocates lim N ∧ UnionFind_new lim N = Returns (UnionFind_init N)
  ∨ Z.pos (maxsize lim) < N + 1 ∧ UnionFind_new lim N = Raises OverflowError
  ∨ N + 1 ≤ Z.pos (maxsize lim) ∧ Z.pos (max_cells lim) < N + 1
    ∧ UnionFind_new lim N = Raises MemoryError.
Proof.
  unfold UnionFind_new, allocates.
  case_decide; [by auto|]. case_decide; [right; right|left]; split_and!;
    try done; lia.
Qed.

(** With its structure built, [run_kruskal] is the routine of the core. *)
Lemma run_kruskal_within_allocates N edges :
  allocates lim N →
  run_kruskal_within lim N edges = lift (run_kruskal N edges).
Proof.
  intros Ha. unfold run_kruskal_within, run_kruskal.
  rewrite (UnionFind_new_allocates N Ha).
  by destruct (kruskal_loop _ 0 0 _) as [[[w c] uf']|e].
Qed.


Lemma allocates_zero : allocates lim 0.
Proof. unfold allocates. lia. Qed.

Lemma run_kruskal_within_refused N edges :
  ¬ allocates lim N →
  ∃ e, (e = OverflowError ∨ e = MemoryError) ∧
       UnionFind_new lim N = Raises e ∧
       run_kruskal_within lim N edges = Raises e.
Proof.
  intros Hn. unfold run_kruskal_within.
  destruct (UnionFind_new_cases N) as [[Ha _]|[[_ ->]|(_ & _ & ->)]];
    [done|by eauto..].
Qed.
End Allocation.

Section NoNodes.
(** With a single cell, every union joins the cell to itself. *)
Lemma union_single u v acc :
  valid_subscript 0 u → valid_subscript 0 v →
  ∃ acc', union u v (mkUF [0] [0] acc) = Ok (false, mkUF [0] [0] acc').
Proof.
  unfold valid_subscript. intros Hu Hv.
  assert (u = -1 ∨ u = 0) as [-> | ->] by lia;
    assert (v = -1 ∨ v = 0) as [-> | ->] by lia;
    vm_compute; by eexists.
Qed.

Lemma kruskal_loop_single es :
  ∀ m c acc,
    Forall (valid_edge 0) es →
    ∃ acc', kruskal_loop es m c (mkUF [0] [0] acc)
            = Ok ((m, c), mkUF [0] [0] acc').
Proof.
  induction es as [|[[u v] w] es IH]; intros m c acc Hes.
  - by exists acc.
  - apply Forall_cons in Hes as [[Hu Hv] Hes].
    destruct (union_single u v acc Hu Hv) as [acc1 Hun].
    destruct (IH m c acc1 Hes) as [acc' Hloop]. exists acc'.
    cbn [kruskal_loop]. unfold bind. by rewrite Hun.
Qed.

Lemma run_kruskal_no_nodes (edges : list edge) :
  Forall (valid_edge 0) edges → run_kruskal 0 edges = Ok 0.
Proof.
  intros Hes. unfold run_kruskal.
  destruct (kruskal_loop_single (sorted_by_weight edges) 0 0 []) as [acc' H].
  { by rewrite sorted_by_weight_perm. }
  change (UnionFind_init 0) with (mkUF [0] [0] []). by rewrite H.
Qed.
End NoNodes.

Section Printing.
Lemma printable_small max_str_digits z :
  Z.abs z < 10 ^ 640 → printable max_str_digits z = true.
Proof. intros H. apply bool_decide_eq_true. by left. Qed.

Lemma printable_fits max_str_digits z :
  printable max_str_digits z = true ↔ fits max_str_digits z.
Proof. apply bool_decide_eq_true. Qed.
End Printing.

Section Repetitions.
Implicit Types (N c : Z) (edges : list edge) (a : gmap Z (list (Z * Z))).

(** Runs of [run_kruskal] on the same arguments. *)
Lemma kruskal_runs_S lim k N edges c :
  kruskal_runs lim (S k) N edges c = run_kruskal_within lim N edges.
Proof.
  revert c. induction k as [|k IH]; intros c.
  - simpl. by destruct (run_kruskal_within lim N edges).
  - change (kruskal_runs lim (S (S k)) N edges c)
      with (match run_kruskal_within lim N edges with
            | Returns cost => kruskal_runs lim (S k) N edges cost
            | Raises e => Raises e
            end).
    destruct (run_kruskal_within lim N edges) eqn:Hrun; [|done].
    by rewrite IH.
Qed.

(** Runs of [run_prim] on the adjacency that a run has left. *)
Lemma prim_runs_fixed k N a c :
  run_prim N a = Some (c, a) → prim_runs k N a c = Some (c, a).
Proof.
  intros Hrun. induction k as [|k IH]; [done|]. simpl. by rewrite Hrun.
Qed.

(** Runs of [run_prim], each on the adjacency that the runs before have
    left. *)
Lemma prim_runs_S k N a c :
  prim_runs (S k) N a c = run_prim N a.
Proof.
  destruct (prim_final_returns N a) as [st Hf].
  cbn [prim_runs]. rewrite (run_prim_final N a st Hf).
  apply prim_runs_fixed. unfold run_prim.
  by rewrite (prim_final_again N a st Hf).
Qed.

End Repetitions.

Section Reports.
Context (lim : limits) (max_str_digits : Z) (fs : files).
Implicit Types (name filename : string) (ds : list (string * string)).

Lemma benchmark_loop_cons name filename ds :
  benchmark_loop lim max_str_digits fs ((name, filename) :: ds)
  = and_then (report lim max_str_digits fs name filename)
             (benchmark_loop lim max_str_digits fs ds).
Proof.
  cbn [benchmark_loop]. unfold report.
  destruct (benchmark_loop lim max_str_digits fs ds) as [out e].
  destruct (read_dimacs_graph max_str_digits fs filename)
    as [[[N edges] a]|[e'| | | |]]; try done.
  rewrite kruskal_runs_S, prim_runs_S.
  destruct (run_kruskal_within lim N edges) as [k_cost|]; [|done].
  destruct (printable max_str_digits k_cost); [|done].
  destruct (run_prim N a) as [[p_cost a']|]; [|done].
  by destruct (printable max_str_digits p_cost).
Qed.

Lemma and_then_assoc r1 r2 r3 :
  and_then (and_then r1 r2) r3 = and_then r1 (and_then r2 r3).
Proof.
  destruct r1 as [o1 [|e1|]], r2 as [o2 [|e2|]], r3 as [o3 e3];
    unfold and_then; simpl; by rewrite ?app_assoc.
Qed.

Lemma benchmark_loop_app ds1 ds2 :
  benchmark_loop lim max_str_digits fs (ds1 ++ ds2)
  = and_then (benchmark_loop lim max_str_digits fs ds1)
             (benchmark_loop lim max_str_digits fs ds2).
Proof.
  induction ds1 as [|[name filename] ds1 IH].
  - simpl. unfold and_then. simpl.
    by destruct (benchmark_loop lim max_str_digits fs ds2).
  - rewrite <- app_comm_cons, !benchmark_loop_cons, IH.
    by rewrite and_then_assoc.
Qed.

Lemma read_dimacs_graph_cases filename :
  match read_dimacs_graph max_str_digits fs filename with
  | Returns (N, edges, a) =>
      ∃ lines, fs filename = Some lines ∧
               (N, edges, a) = graph_of_lines max_str_digits lines
  | Raises e =>
      e = FileNotFoundError ∧ fs filename = None
      ∨ (e = Core IndexError ∨ e = ValueError) ∧
        ∃ lines, fs filename = Some lines ∧
                 first_error max_str_digits lines = Some e
  end.
Proof.
  unfold read_dimacs_graph. destruct (fs filename) as [lines|]; [|by left].
  rewrite read_lines_graph.
  destruct (first_error max_str_digits lines) as [e|] eqn:He.
  - right. split; [|by exists lines].
    apply first_error_cases in He as (? & bad & ? & _ & _ & Hbad).
    by eapply line_error_cases.
  - destruct (graph_of_lines max_str_digits lines) as [[N edges] a] eqn:Hg.
    by exists lines.
Qed.




End Reports.

(** ** Further results *)

Section Scenarios.
Lemma do_unions_reachable n (pairs : list (Z * Z)) :
  ∀ uf uf',
    reachable n uf →
    (∀ p, p ∈ pairs → in_range n p.1 ∧ in_range n p.2) →
    do_unions pairs uf = Ok (tt, uf') → reachable n uf'.
Proof.
  induction pairs as [|[a b] pairs IH]; intros uf uf' Hre Hrange.
  - intros H. injection H as <-. done.
  - destruct (Hrange (a, b)) as [Ha Hb]; [by left|]. simpl in Ha, Hb.
    simpl. unfold bind at 1.
    destruct (union a b uf) as [[m uf1]|e] eqn:Hu; [|done].
    apply IH; [by apply (reach_union n uf a b m uf1)|]. intros p Hp. apply Hrange. by right.
Qed.

Lemma two_islands_wf : wf_edges 4 two_islands.
Proof.
  apply wf_edges_Forall. unfold two_islands, src, dst.
  repeat constructor; simpl; lia.
Qed.



Lemma triangle_again_same : same_graph triangle triangle_again.
Proof.
  apply same_graph_Forall; apply (bool_decide_unpack _); by vm_compute.
Qed.


Lemma fits_small max_str_digits z : Z.abs z < 10 ^ 640 → fits max_str_digits z.
Proof. by left. Qed.

Lemma triangle_fits max_str_digits :
  ∀ e, e ∈ triangle → fits_edge max_str_digits e.
Proof.
  apply Forall_forall. unfold triangle, fits_edge.
  repeat constructor; by apply fits_small.
Qed.
End Scenarios.

(** * Further properties *)

(** X1. In every state reached from [UnionFind(n)] by calls of [find] and
    [union] within [0 .. n], a cell of rank [k] stands for at least [2^k]
    cells: every rank is between 0 and the binary logarithm of [n + 1],
    [find(x)] follows at most that many parent pointers, and a recursion
    depth of one more than that is enough for it. *)
Theorem find_depth_logarithmic n uf x :
  reachable n uf → in_range n x →
  0 ≤ pfun (rank uf) x ∧ 2 ^ pfun (rank uf) x ≤ n + 1 ∧
  ∃ l r uf',
    chain (parent uf) x l r ∧
    Z.of_nat (length l) ≤ Z.log2 (n + 1) ∧
    find x uf = Ok (r, uf') ∧
    ∀ depth, (Z.to_nat (Z.log2 (n + 1)) < depth)%nat →
      find_rec depth x uf = Ok (r, uf').
Proof.
  intros Hre Hx.
  pose proof (reachable_inv n uf Hre) as Hinv.
  pose proof (reachable_rank_sizes n uf Hre) as Hrs.
  destruct (find_spec n uf x Hinv Hx) as (l & r & uf' & Hf & Hc & _).
  destruct (rank_log n uf x l r Hinv Hrs Hx Hc) as (H0 & Hpow & Hlen).
  split_and!; [done..|]. exists l, r, uf'. split_and!; [done..|].
  intros d Hd. rewrite <- Hf. apply (find_rec_enough n uf x l r); [done..|lia].
Qed.

Lemma find_depth_logarithmic_witness :
  ∃ uf,
    do_unions [(1, 2); (3, 4); (2, 3)] (UnionFind_init 5) = Ok (tt, uf) ∧
    0 ≤ pfun (rank uf) 4 ∧ 2 ^ pfun (rank uf) 4 ≤ 5 + 1 ∧
    ∃ l r uf',
      chain (parent uf) 4 l r ∧
      Z.of_nat (length l) ≤ Z.log2 (5 + 1) ∧
      find 4 uf = Ok (r, uf') ∧
      ∀ depth, (Z.to_nat (Z.log2 (5 + 1)) < depth)%nat →
        find_rec depth 4 uf = Ok (r, uf').
Proof.
  eexists. split; [vm_compute; reflexivity|].
  apply (find_depth_logarithmic 5).
  - eapply (do_unions_reachable 5 [(1, 2); (3, 4); (2, 3)]);
      [apply reach_init| |vm_compute; reflexivity].
    apply Forall_forall. unfold in_range. repeat constructor; simpl; lia.
  - unfold in_range. lia.
Defined.






(** X5. The two results depend on the undirected graph only: two edge
    lists with the same edges, whatever their order, their direction and
    the number of times each is listed, give the same result of
    [run_kruskal], and adjacencies that match them the same result of
    [run_prim]. *)
Theorem results_depend_on_graph_only
    N (E E' : list edge) (adj0 adj0' : gmap Z (list (Z * Z))) :
  wf_edges N E → same_graph E E' →
  adj_matches E adj0 → adj_matches E' adj0' →
  run_kruskal N E = run_kruskal N E' ∧
  fst <$> run_prim N adj0 = fst <$> run_prim N adj0'.
Proof.
  intros Hwf H Ha Ha'. split.
  - apply run_kruskal_same_graph; [|done]. by apply wf_edges_in_range.
  - apply (run_prim_same_graph N E); [done..|].
    by apply (same_graph_adj_matches E E').
Qed.

Lemma results_depend_on_graph_only_witness :
  run_kruskal 3 triangle = run_kruskal 3 triangle_again ∧
  fst <$> run_prim 3 (build_adj triangle)
  = fst <$> run_prim 3 (build_adj triangle_again).
Proof.
  apply (results_depend_on_graph_only 3 triangle triangle_again).
  - exact triangle_wf.
  - exact triangle_again_same.
  - exact (build_adj_matches triangle).
  - exact (build_adj_matches triangle_again).
Defined.



(** X7. A run of [run_prim] on the adjacency that a run has left returns
    the same weight and leaves the adjacency as it finds it; the lists
    that [adj[k]] gives are those of the adjacency first received. *)
Theorem run_prim_again N (adj0 : gmap Z (list (Z * Z))) :
  ∃ w adj1,
    run_prim N adj0 = Some (w, adj1) ∧
    run_prim N adj1 = Some (w, adj1) ∧
    (∀ k, adj_list adj1 k = adj_list adj0 k).
Proof.
  destruct (prim_final_returns N adj0) as [st Hf].
  exists (mst_weight st), (adj st). split_and!.
  - by apply run_prim_final.
  - unfold run_prim. by rewrite (prim_final_again N adj0 st Hf).
  - intros k. eapply adj_touched_list, (prim_final_frame N adj0 st Hf).
Qed.

(** X8. On a graph with vertices [1 .. N] (N >= 1), when the loop of
    [run_prim] is left, [visited] holds exactly the vertices joined to the
    vertex 1 by a walk. *)
Theorem run_prim_visits_component
    N (edges : list edge) (adj0 : gmap Z (list (Z * Z))) :
  1 ≤ N → wf_edges N edges → adj_matches edges adj0 →
  ∃ st, prim_final N adj0 = Some st ∧
        run_prim N adj0 = Some (mst_weight st, adj st) ∧
        ∀ v, v ∈ visited st ↔ conn (ends <$> edges) 1 v.
Proof.
  intros HN Hwf Hadj.
  destruct (prim_final_spec N edges Hwf adj0 HN Hadj)
    as (st & P & Hfin & Hinv & Hexit & _).
  exists st. split_and!; [done|by apply run_prim_final|].
  intros v. by apply (prim_exit_visited N edges Hwf st P).
Qed.

Lemma run_prim_visits_component_witness :
  ∃ st, prim_final 4 (build_adj two_islands) = Some st ∧
        run_prim 4 (build_adj two_islands) = Some (mst_weight st, adj st) ∧
        ∀ v, v ∈ visited st ↔ conn (ends <$> two_islands) 1 v.
Proof.
  apply (run_prim_visits_component 4 two_islands).
  - lia.
  - exact two_islands_wf.
  - exact (build_adj_matches two_islands).
Defined.

(** X9. When [read_dimacs_graph] returns: [num_nodes] is the third field
    of the last line that starts with [p], or 0 without such a line;
    [edges] holds the arcs of the lines that start with [a], in the order
    of the file; [adj] is the adjacency built from them, which lists both
    directions of every edge and nothing else. *)
Theorem loader_result max_str_digits (fs : files) filename
    N (edges : list edge) (adj0 : gmap Z (list (Z * Z))) :
  read_dimacs_graph max_str_digits fs filename = Returns (N, edges, adj0) →
  ∃ lines,
    fs filename = Some lines ∧
    N = default 0 (last (omap (line_nodes max_str_digits) lines)) ∧
    edges = omap (line_arc max_str_digits) lines ∧
    adj0 = build_adj edges ∧
    adj_matches edges adj0.
Proof.
  intros Hread.
  pose proof (read_dimacs_graph_cases max_str_digits fs filename) as H.
  rewrite Hread in H. destruct H as (lines & Hfs & Hg).
  unfold graph_of_lines in Hg. injection Hg as -> -> ->.
  exists lines. split_and!; [done..|]. apply build_adj_matches.
Qed.

Lemma loader_result_witness :
  ∃ lines,
    sample_files "triangle.gr.gz" = Some lines ∧
    3 = default 0 (last (omap (line_nodes 4300) lines)) ∧
    triangle = omap (line_arc 4300) lines ∧
    build_adj triangle = build_adj triangle ∧
    adj_matches triangle (build_adj triangle).
Proof.
  apply (loader_result 4300 sample_files "triangle.gr.gz").
  by vm_compute.
Defined.

(** X10. The loop of [read_dimacs_graph] raises exactly when some line
    that starts with [p] or [a] lacks a field it needs (the third for [p],
    the second to fourth for [a]) or holds there something that is no
    integer literal.  The exception is that of the first such line and of
    its first such field, [IndexError] for a missing field, [ValueError]
    otherwise; the lines after it are not looked at. *)
Theorem loader_raises max_str_digits (lines : list string) :
  (∀ e, read_lines max_str_digits lines (0, [], ∅) = Raises e ↔
        ∃ l1 bad l2,
          lines = l1 ++ bad :: l2 ∧
          Forall (λ l, line_error max_str_digits l = None) l1 ∧
          line_error max_str_digits bad = Some e) ∧
  (∀ e, read_lines max_str_digits lines (0, [], ∅) = Raises e →
        e = Core IndexError ∨ e = ValueError) ∧
  ((∃ st, read_lines max_str_digits lines (0, [], ∅) = Returns st) ↔
     Forall (λ l, line_error max_str_digits l = None) lines).
Proof.
  rewrite read_lines_graph.
  assert (Hiff : ∀ e, first_error max_str_digits lines = Some e ↔
            ∃ l1 bad l2,
              lines = l1 ++ bad :: l2 ∧
              Forall (λ l, line_error max_str_digits l = None) l1 ∧
              line_error max_str_digits bad = Some e).
  { intros e. split; [apply first_error_cases|].
    intros (l1 & bad & l2 & -> & Hl1 & Hbad). by apply first_error_prefix. }
  pose proof (first_error_none max_str_digits lines) as Hnone.
  destruct (first_error max_str_digits lines) as [e0|] eqn:He0.
  - split_and!.
    + intros e. rewrite <- Hiff. split; congruence.
    + intros e [= <-].
      apply first_error_cases in He0 as (? & bad & ? & _ & _ & Hbad).
      by eapply line_error_cases.
    + split; [by intros [? ?]|]. intros H. by apply Hnone in H.
  - split_and!.
    + intros e. rewrite <- Hiff. split; congruence.
    + by intros e.
    + split; [intros _; by apply Hnone|]. intros _. by eexists.
Qed.

(** X11. [read_dimacs_graph] looks only at the lines that start with [p]
    or with [a]: from any state its loop does the same on a list of lines
    and on that list without its other lines (comments, blank lines). *)
Theorem loader_ignores_other_lines
    max_str_digits (lines : list string) (st : loader_state) :
  read_lines max_str_digits (filter (λ l, relevant l = true) lines) st
  = read_lines max_str_digits lines st.
Proof.
  rewrite !read_lines_eq. unfold first_error.
  rewrite !omap_filter_relevant; [done|..].
  - apply line_arc_irrelevant.
  - apply line_nodes_irrelevant.
  - apply line_error_irrelevant.
Qed.

(** X12. A file in the DIMACS format is read back as the graph it
    describes: when the lines that start with [p] or [a] are the problem
    line [p sp N M] followed by one line [a u v w] for each edge, with
    numbers as [str] writes them (and within the interpreter's limit on
    the digits of a literal), [read_dimacs_graph] returns [N], the edges
    in that order and the adjacency built from them. *)
Theorem loader_round_trip max_str_digits (fs : files) filename
    (lines : list string) N (edges : list edge) :
  fs filename = Some lines →
  filter (λ l, relevant l = true) lines = dimacs_lines N edges →
  fits max_str_digits N → (∀ e, e ∈ edges → fits_edge max_str_digits e) →
  read_dimacs_graph max_str_digits fs filename
  = Returns (N, edges, build_adj edges).
Proof.
  intros Hfs Hlines HN Hes. unfold read_dimacs_graph. rewrite Hfs.
  rewrite <- (read_lines_relevant max_str_digits lines), Hlines.
  apply read_dimacs_lines; [done|]. by apply Forall_forall.
Qed.

Lemma loader_round_trip_witness :
  read_dimacs_graph 4300 sample_files "triangle.gr.gz"
  = Returns (3, triangle, build_adj triangle).
Proof.
  apply (loader_round_trip 4300 sample_files "triangle.gr.gz" triangle_file).
  - reflexivity.
  - by vm_compute.
  - by apply fits_small.
  - apply triangle_fits.
Defined.

(** X13. The three repetitions in [benchmark] are three times the same
    run: the cost kept from the runs of [run_kruskal] is that of one run
    (or its exception), and so is the cost kept from the runs of
    [run_prim], although each of them works on the adjacency that the runs
    before have left.  For each data set [benchmark] prints what one run
    of each routine gives. *)
Theorem benchmark_repetitions :
  (∀ (lim : limits) N (edges : list edge) c,
     kruskal_runs lim 3 N edges c = run_kruskal_within lim N edges) ∧
  (∀ N (adj0 : gmap Z (list (Z * Z))) c,
     prim_runs 3 N adj0 c = run_prim N adj0) ∧
  (∀ (lim : limits) max_str_digits (fs : files) name filename datasets,
     benchmark_loop lim max_str_digits fs ((name, filename) :: datasets)
     = and_then (report lim max_str_digits fs name filename)
                (benchmark_loop lim max_str_digits fs datasets)).
Proof.
  split_and!.
  - intros. apply kruskal_runs_S.
  - intros. apply prim_runs_S.
  - intros. apply benchmark_loop_cons.
Qed.



(** X15. [benchmark] reports the data sets in order, and stops at the
    first one that does not finish: the data sets after it are not
    loaded.  A data set whose file is missing finishes, with two lines
    of output. *)
Theorem benchmark_in_sequence (lim : limits)
    max_str_digits (fs : files) (ds1 ds2 : list (string * string)) :
  benchmark_loop lim max_str_digits fs (ds1 ++ ds2)
  = and_then (benchmark_loop lim max_str_digits fs ds1)
             (benchmark_loop lim max_str_digits fs ds2) ∧
  ∀ name filename,
    fs filename = None →
    benchmark_loop lim max_str_digits fs (ds1 ++ (name, filename) :: ds2)
    = and_then (benchmark_loop lim max_str_digits fs ds1)
        (Loading filename :: NotFound filename
           :: (benchmark_loop lim max_str_digits fs ds2).1,
         (benchmark_loop lim max_str_digits fs ds2).2).
Proof.
  split; [apply benchmark_loop_app|].
  intros name filename Hfs.
  rewrite benchmark_loop_app, benchmark_loop_cons. f_equal.
  unfold report, read_dimacs_graph. rewrite Hfs.
  by destruct (benchmark_loop lim max_str_digits fs ds2).
Qed.

Lemma benchmark_in_sequence_witness :
  benchmark_loop roomy 4300 sample_files
    ([("T", "triangle.gr.gz")] ++ ("NY", "ny.gr.gz") :: [("H", "headless.gr.gz")])
  = and_then (benchmark_loop roomy 4300 sample_files [("T", "triangle.gr.gz")])
      (Loading "ny.gr.gz" :: NotFound "ny.gr.gz"
         :: (benchmark_loop roomy 4300 sample_files [("H", "headless.gr.gz")]).1,
       (benchmark_loop roomy 4300 sample_files [("H", "headless.gr.gz")]).2).
Proof.
  apply (proj2 (benchmark_in_sequence roomy 4300 sample_files
                  [("T", "triangle.gr.gz")] [("H", "headless.gr.gz")])
           "NY" "ny.gr.gz").
  by vm_compute.
Defined.

(** X16. For a data set whose file holds a connected graph with vertices
    [1 .. N] (N >= 1), when [UnionFind(N)] can be built, both routines
    compute the least total weight of a spanning tree.  If [str] accepts
    that weight, [benchmark] prints it in its Kruskal row and in its Prim
    row and goes on with the next data set; if the weight has more digits
    than [str] writes, [benchmark] is left by [ValueError] before the
    first row. *)
Theorem benchmark_reports_mst (lim : limits) max_str_digits (fs : files)
    name filename (datasets : list (string * string))
    N (edges : list edge) (adj0 : gmap Z (list (Z * Z))) :
  read_dimacs_graph max_str_digits fs filename = Returns (N, edges, adj0) →
  1 ≤ N → wf_edges N edges → connected N edges → allocates lim N →
  ∃ w,
    least_weight (spanning_tree N edges) w ∧
    run_kruskal_within lim N edges = Returns w ∧
    fst <$> run_prim N adj0 = Some w ∧
    benchmark_loop lim max_str_digits fs ((name, filename) :: datasets)
    = if printable max_str_digits w then
        (Loading filename :: KruskalRow name w :: PrimRow name w :: Rule
           :: (benchmark_loop lim max_str_digits fs datasets).1,
         (benchmark_loop lim max_str_digits fs datasets).2)
      else ([Loading filename], Aborted ValueError).
Proof.
  intros Hread HN Hwf Hconn Halloc.
  pose proof (read_dimacs_graph_cases max_str_digits fs filename) as H.
  rewrite Hread in H. destruct H as (lines & Hfs & Hg).
  assert (Hadj : adj_matches edges adj0).
  { unfold graph_of_lines in Hg. injection Hg as -> -> ->.
    apply build_adj_matches. }
  destruct (kruskal_prim_agree N edges adj0 HN Hwf Hadj Hconn)
    as (w & st & Hk & Hp & Hw & Hmin).
  assert (Hkw : run_kruskal_within lim N edges = Returns w).
  { by rewrite (run_kruskal_within_allocates lim N edges Halloc), Hk. }
  exists w. split_and!; [done..| |].
  - by rewrite (run_prim_final _ _ _ Hp), Hw.
  - rewrite benchmark_loop_cons. unfold report.
    rewrite Hread, Hkw, (run_prim_final _ _ _ Hp), Hw.
    destruct (printable max_str_digits w); [|done].
    by destruct (benchmark_loop lim max_str_digits fs datasets).
Qed.

Lemma benchmark_reports_mst_witness :
  ∃ w,
    least_weight (spanning_tree 3 triangle) w ∧
    run_kruskal_within roomy 3 triangle = Returns w ∧
    fst <$> run_prim 3 (build_adj triangle) = Some w ∧
    benchmark_loop roomy 4300 sample_files [("T", "triangle.gr.gz")]
    = if printable 4300 w then
        (Loading "triangle.gr.gz" :: KruskalRow "T" w :: PrimRow "T" w :: Rule
           :: (benchmark_loop roomy 4300 sample_files []).1,
         (benchmark_loop roomy 4300 sample_files []).2)
      else ([Loading "triangle.gr.gz"], Aborted ValueError).
Proof.
  apply (benchmark_reports_mst roomy 4300 sample_files "T" "triangle.gr.gz" []
           3 triangle (build_adj triangle)).
  - by vm_compute.
  - lia.
  - exact triangle_wf.
  - exact triangle_connected.
  - by vm_compute.
Defined.

(** X17. A file without a line that starts with [p] leaves [num_nodes]
    at 0.  If it holds an arc with an endpoint other than 0 and -1 (every
    arc of a DIMACS file, where vertices count from 1), [run_kruskal]
    raises [IndexError] and [benchmark] is left after the message of the
    loader; if it holds no arc, both rows show the cost 0. *)
Theorem benchmark_without_problem_line (lim : limits)
    max_str_digits (fs : files) name filename
    (datasets : list (string * string)) (lines : list string)
    N (edges : list edge) (adj0 : gmap Z (list (Z * Z))) :
  fs filename = Some lines →
  Forall (λ l, String.prefix "p" l = false) lines →
  read_dimacs_graph max_str_digits fs filename = Returns (N, edges, adj0) →
  N = 0 ∧
  ((∃ e, e ∈ edges ∧ ¬ valid_edge 0 e) →
   benchmark_loop lim max_str_digits fs ((name, filename) :: datasets)
   = ([Loading filename], Aborted (Core IndexError))) ∧
  (edges = [] →
   benchmark_loop lim max_str_digits fs ((name, filename) :: datasets)
   = (Loading filename :: KruskalRow name 0 :: PrimRow name 0 :: Rule
        :: (benchmark_loop lim max_str_digits fs datasets).1,
      (benchmark_loop lim max_str_digits fs datasets).2)).
Proof.
  intros Hfs Hp Hread.
  pose proof (read_dimacs_graph_cases max_str_digits fs filename) as H.
  rewrite Hread in H. destruct H as (lines' & Hfs' & Hg).
  assert (lines' = lines) as -> by congruence.
  unfold graph_of_lines in Hg. injection Hg as HN -> ->.
  assert (Hnone : omap (line_nodes max_str_digits) lines = []).
  { clear -Hp. induction Hp as [|l lines Hl _ IH]; [done|].
    cbn [omap list_omap]. unfold line_nodes at 1. by rewrite Hl. }
  rewrite Hnone in HN. simpl in HN. subst N.
  pose proof (run_kruskal_within_allocates lim 0) as Hk.
  specialize (Hk (omap (line_arc max_str_digits) lines) (allocates_zero lim)).
  split_and!; [done| |].
  - intros (e & He & Hbad).
    rewrite benchmark_loop_cons. unfold report. rewrite Hread, Hk.
    rewrite (run_kruskal_invalid 0); [done|].
    apply Exists_exists. by exists e.
  - intros Hnil. rewrite benchmark_loop_cons. unfold report.
    rewrite Hread, Hk, Hnil.
    change (run_kruskal 0 []) with (@Ok Z 0). cbn [lift].
    rewrite run_prim_no_vertex by lia.
    rewrite printable_small by done.
    by destruct (benchmark_loop lim max_str_digits fs datasets).
Qed.

Lemma benchmark_without_problem_line_witness :
  0 = 0 ∧
  ((∃ e, e ∈ [(1, 2, 5)] ∧ ¬ valid_edge 0 e) →
   benchmark_loop roomy 4300 sample_files
     [("H", "headless.gr.gz"); ("T", "triangle.gr.gz")]
   = ([Loading "headless.gr.gz"], Aborted (Core IndexError))) ∧
  ([(1, 2, 5)] = [] →
   benchmark_loop roomy 4300 sample_files
     [("H", "headless.gr.gz"); ("T", "triangle.gr.gz")]
   = (Loading "headless.gr.gz" :: KruskalRow "H" 0 :: PrimRow "H" 0 :: Rule
        :: (benchmark_loop roomy 4300 sample_files [("T", "triangle.gr.gz")]).1,
      (benchmark_loop roomy 4300 sample_files [("T", "triangle.gr.gz")]).2)).
Proof.
  apply (benchmark_without_problem_line roomy 4300 sample_files "H"
           "headless.gr.gz" [("T", "triangle.gr.gz")] headless_file 0
           [(1, 2, 5)] (build_adj [(1, 2, 5)])).
  - reflexivity.
  - unfold headless_file. repeat constructor.
  - by vm_compute.
Defined.

(** C7 (amended). On an empty edge list [run_kruskal] returns 0 for every
    [num_nodes] for which [UnionFind(num_nodes)] can be built, and raises
    [OverflowError] or [MemoryError] for the others; [run_prim] returns 0
    on an empty adjacency, whatever [num_nodes], and with [num_nodes = 0]
    on any adjacency, the seed [(0, 1)] staying in its queue.  With
    [num_nodes = 0], [run_kruskal] returns 0 exactly when every endpoint
    of every edge is 0 or -1, and raises [IndexError] otherwise. *)
Theorem empty_graph_weight_zero :
  (∀ (lim : limits) N,
     allocates lim N → run_kruskal_within lim N [] = Returns 0) ∧
  (∀ (lim : limits) N,
     ¬ allocates lim N →
     run_kruskal_within lim N [] = Raises OverflowError
     ∨ run_kruskal_within lim N [] = Raises MemoryError) ∧
  (∀ N, fst <$> run_prim N ∅ = Some 0) ∧
  (∀ adj0 : gmap Z (list (Z * Z)),
     prim_final 0 adj0 = Some (mkPrim [(0, 1)] ∅ 0 adj0) ∧
     run_prim 0 adj0 = Some (0, adj0)) ∧
  (∀ (lim : limits) (edges : list edge),
     (run_kruskal_within lim 0 edges = Returns 0 ↔
        ∀ e, e ∈ edges → -1 ≤ src e ≤ 0 ∧ -1 ≤ dst e ≤ 0) ∧
     (run_kruskal_within lim 0 edges = Raises (Core IndexError) ↔
        ∃ e, e ∈ edges ∧ ¬ (-1 ≤ src e ≤ 0 ∧ -1 ≤ dst e ≤ 0))).
Proof.
  split_and!.
  - intros lim N Ha.
    by rewrite (run_kruskal_within_allocates lim N [] Ha).
  - intros lim N Hn.
    destruct (run_kruskal_within_refused lim N [] Hn)
      as (e & [-> | ->] & _ & ->); auto.
  - intros N. unfold run_prim, prim_final.
    change (adj_entries ∅) with 0%nat.
    cbn [Nat.add prim_loop]. rewrite prim_step_eq.
    cbn [pq visited mst_weight adj].
    rewrite size_empty. case_decide; [|done].
    rewrite decide_False by (by apply not_elem_of_empty).
    reflexivity.
  - intros adj0.
    assert (H : prim_final 0 adj0 = Some (mkPrim [(0, 1)] ∅ 0 adj0)).
    { unfold prim_final.
      replace (adj_entries adj0 + 2)%nat with (S (adj_entries adj0 + 1)) by lia.
      cbn [prim_loop]. rewrite prim_step_eq.
      cbn [pq visited mst_weight adj].
      rewrite size_empty. by rewrite decide_False by lia. }
    split; [done|]. unfold run_prim. by rewrite H.
  - intros lim edges.
    rewrite (run_kruskal_within_allocates lim 0 edges (allocates_zero lim)).
    change (∀ e, e ∈ edges → -1 ≤ src e ≤ 0 ∧ -1 ≤ dst e ≤ 0)
      with (∀ e, e ∈ edges → valid_edge 0 e).
    change (∃ e, e ∈ edges ∧ ¬ (-1 ≤ src e ≤ 0 ∧ -1 ≤ dst e ≤ 0))
      with (∃ e, e ∈ edges ∧ ¬ valid_edge 0 e).
    destruct (decide (Forall (valid_edge 0) edges)) as [Hall|Hex].
    + rewrite (run_kruskal_no_nodes edges Hall).
      rewrite Forall_forall in Hall. split.
      * split; [done|]. by intros _.
      * split; [done|]. intros (e & He & Hbad). destruct Hbad. by apply Hall.
    + apply not_Forall_Exists in Hex; [|apply _].
      rewrite (run_kruskal_invalid 0 edges Hex).
      apply Exists_exists in Hex as (e & He & Hbad). split.
      * split; [done|]. intros Hall. destruct Hbad. by apply Hall.
      * split; [|done]. intros _. by exists e.
Qed.

Lemma empty_graph_weight_zero_witness :
  run_kruskal_within roomy 5 [] = Returns 0.
Proof.
  apply (proj1 empty_graph_weight_zero roomy 5). by vm_compute.
Defined.

(** C7, as first stated, fails: the file [headless.gr.gz] is read with
    [num_nodes = 0] and one edge, on which [run_kruskal] raises
    [IndexError]; and on an empty edge list [run_kruskal] raises
    [OverflowError] when [num_nodes] is [2^63]. *)
Lemma run_kruskal_empty_graph_raises :
  read_dimacs_graph 4300 sample_files "headless.gr.gz"
  = Returns (0, [(1, 2, 5)], build_adj [(1, 2, 5)]) ∧
  run_kruskal 0 [(1, 2, 5)] = Raise IndexError ∧
  run_kruskal_within roomy 0 [(1, 2, 5)] = Raises (Core IndexError) ∧
  run_kruskal_within roomy (2 ^ 63) [] = Raises OverflowError.
Proof. split_and!; by vm_compute. Qed.
